(** * Delivery-order backend: rate limiter, dispatch ledger, order lifecycle
      and recurring-order scheduler

    A shallow embedding of
    - [src/lib/rate-limiter.ts]   ([checkRateLimit] and the cleanup sweep),
    - [src/lib/event-dispatch.ts] ([hasDispatched], [markDispatched]),
    - the order route's [PATCH] handler (the lifecycle switch and the
      purchase dispatch that follows it),
    - [server.ts]                 ([has30DaysPassed], [createAutoOrdersForClient],
      [updateClientLastCheck], [runAutoOrderScheduler], the weekday and
      delivery-time helpers and the timers that start the scheduler),
    - the rest of [src/lib/rate-limiter.ts] ([getClientIdentifier], the 429
      answer, the rate-limit headers, [rateLimit], status and clearing),
    - [middleware.ts] with the language choice of [src/i18n/config.ts],
    - the order collection route ([GET]: filters and pagination; [POST]).

    Conventions.  JavaScript numbers that hold millisecond timestamps or
    counters are integers well inside the exact range of a double and are
    modelled as [Z].  A [Date] is its epoch value in milliseconds; the
    process runs with the UTC time zone, so [setDate (getDate () + n)] adds
    [n] days of 86 400 000 ms and [getDay] is read off the day number.
    [Date.now ()] and [new Date ()] are explicit arguments, and one
    scheduler run reads one instant.  Awaited calls are sequenced in
    program order; the detached dispatch block of the handler finishes
    before the next request is served. *)

From Stdlib Require Import ZArith Bool Lia.
From stdpp Require Import gmap strings list fin_maps pretty.
From Equations Require Import Equations.

Local Open Scope string_scope.
Local Open Scope list_scope.
Local Open Scope Z_scope.

(* ===================================================================== *)
(** ** Rate limiter ([src/lib/rate-limiter.ts]) *)
(* ===================================================================== *)

Module RateLimiter.

Record RateLimitRecord := mkRecord {
  count : Z;
  resetTime : Z;
  requestTimestamps : list Z
}.

Record RateLimitConfig := mkConfig {
  maxRequests : Z;
  windowMs : Z
}.

(** The object [checkRateLimit] returns.  [r_resetTime] is [None] when
    the source computes [undefined + windowMs] (that is [NaN]): the
    denied branch read on an empty timestamp array. *)
Record RateLimitResult := mkResult {
  allowed : bool;
  remaining : Z;
  r_resetTime : option Z
}.

(** [rateLimitStore]: a [Map<string, RateLimitRecord>]. *)
Abbreviation Store := (gmap string RateLimitRecord).

(** Lines 90-100: the record in effect, lazily created, or re-created
    when [record.resetTime < now]. *)
Definition currentRecord (store : Store) (key : string)
    (config : RateLimitConfig) (now : Z) : RateLimitRecord :=
  match store !! key with
  | Some record =>
      if resetTime record <? now
      then mkRecord 0 (now + windowMs config) []
      else record
  | None => mkRecord 0 (now + windowMs config) []
  end.

(** Lines 102-106: [filter (timestamp => timestamp > windowStart)]. *)
Definition inWindow (windowStart : Z) (ts : list Z) : list Z :=
  filter (λ timestamp, windowStart < timestamp) ts.

(** [checkRateLimit identifier config], with the clock reading [now]
    and the module-level store made explicit.  The record object is
    shared with the store, so each mutation of it is written back. *)
Definition checkRateLimit (identifier : string) (config : RateLimitConfig)
    (now : Z) (store : Store) : RateLimitResult * Store :=
  let key := identifier in
  let record := currentRecord store key config now in
  let windowStart := now - windowMs config in
  let ts := inWindow windowStart (requestTimestamps record) in
  if maxRequests config <=? Z.of_nat (length ts) then
    (mkResult false 0 ((λ t0, t0 + windowMs config) <$> head ts),
     <[key := mkRecord (count record) (resetTime record) ts]> store)
  else
    let ts' := ts ++ [now] in
    let count' := Z.of_nat (length ts') in
    (mkResult true (maxRequests config - count') (Some (resetTime record)),
     <[key := mkRecord count' (resetTime record) ts']> store).

(** The [setInterval] sweep (lines 23-30): delete every record whose
    [resetTime] is in the past. *)
Definition cleanup (now : Z) (store : Store) : Store :=
  filter (λ kv, ¬ (resetTime kv.2 < now)) store.

(** A client issuing calls at the given clock readings; the decisions
    are returned with their call times. *)
Fixpoint run (identifier : string) (config : RateLimitConfig)
    (times : list Z) (store : Store) : list (Z * RateLimitResult) * Store :=
  match times with
  | [] => ([], store)
  | now :: rest =>
      let '(res, store1) := checkRateLimit identifier config now store in
      let '(out, store2) := run identifier config rest store1 in
      ((now, res) :: out, store2)
  end.

(** Number of admitted calls whose call time lies in the trailing
    window [(t - windowMs, t]]. *)
Definition admittedIn (config : RateLimitConfig) (t : Z)
    (log : list (Z * RateLimitResult)) : Z :=
  Z.of_nat (length (filter
    (λ c, allowed c.2 = true ∧ t - windowMs config < c.1 ∧ c.1 <= t) log)).

(** Timestamps currently stored for a client. *)
Definition stored (store : Store) (key : string) : list Z :=
  match store !! key with
  | Some record => requestTimestamps record
  | None => []
  end.

End RateLimiter.

(* ===================================================================== *)
(** ** Shared data model (the Prisma enums and the order row) *)
(* ===================================================================== *)

Module Data.

Inductive Role := SUPER_ADMIN | MIDDLE_ADMIN | LOW_ADMIN | COURIER.
Inductive OrderStatus := PENDING | IN_DELIVERY | PAUSED | DELIVERED | FAILED.
Inductive PaymentStatus := PAID | UNPAID.
Inductive PaymentMethod := CARD | CASH.

#[export] Instance Role_eq_dec : EqDecision Role.
Proof. solve_decision. Defined.
#[export] Instance OrderStatus_eq_dec : EqDecision OrderStatus.
Proof. solve_decision. Defined.
#[export] Instance PaymentStatus_eq_dec : EqDecision PaymentStatus.
Proof. solve_decision. Defined.
#[export] Instance PaymentMethod_eq_dec : EqDecision PaymentMethod.
Proof. solve_decision. Defined.

(** A row of the order table, with the columns the scheduler writes and
    the lifecycle handler reads or updates. *)
Record Order := mkOrder {
  id : string;
  orderNumber : Z;
  customerId : string;
  adminId : string;
  courierId : option string;
  deliveryAddress : string;
  deliveryDate : option Z;
  deliveryTime : string;
  quantity : Z;
  calories : Z;
  specialFeatures : string;
  paymentStatus : PaymentStatus;
  paymentMethod : PaymentMethod;
  isPrepaid : bool;
  orderStatus : OrderStatus;
  deliveredAt : option Z
}.

(** What an awaited promise settles to. *)
Inductive Outcome (A : Type) :=
| Resolved (a : A)
| Rejected (reason : string).
Arguments Resolved {A} a.
Arguments Rejected {A} reason.

End Data.

Import Data.

(* ===================================================================== *)
(** ** Event dispatch ledger ([src/lib/event-dispatch.ts]) *)
(* ===================================================================== *)

Module EventDispatch.

(** The composite key [orderId_eventName]. *)
Definition Key : Type := string * string.

(** The interface the source declares for [(db as any).eventDispatch]:
    two promise-returning operations on some store [S].  The Prisma
    delegate behind it is not part of this repository, so the
    functions below are written against the interface. *)
Class Delegate (S : Type) := {
  findUnique : Key → S → Outcome (option Key);
  create : Key → S → Outcome Key * S
}.

(** [hasDispatched]: [try { return !!rec } catch { return false }]. *)
Definition hasDispatched {S} `{Delegate S}
    (orderId eventName : string) (s : S) : Outcome bool :=
  match findUnique (orderId, eventName) s with
  | Resolved rec => Resolved (bool_decide (is_Some rec))
  | Rejected _ => Resolved false
  end.

(** [markDispatched]: [try { await create } catch { }]. *)
Definition markDispatched {S} `{Delegate S}
    (orderId eventName : string) (s : S) : Outcome unit * S :=
  match create (orderId, eventName) s with
  | (Resolved _, s') => (Resolved tt, s')
  | (Rejected _, s') => (Resolved tt, s')
  end.

(** Modelled from the spec: the ledger store behind the delegate, a
    table with a unique index on (entityId, eventName) whose insert
    races resolve to "already exists", and which may be unreachable
    (or not migrated yet, as the source's comments say). *)
Record Table := mkTable {
  rows : list Key;
  reachable : bool
}.

Definition tableFindUnique (k : Key) (t : Table) : Outcome (option Key) :=
  if reachable t
  then Resolved (if bool_decide (k ∈ rows t) then Some k else None)
  else Rejected "ledger unreachable".

Definition tableCreate (k : Key) (t : Table) : Outcome Key * Table :=
  if reachable t then
    if bool_decide (k ∈ rows t)
    then (Rejected "Unique constraint failed", t)
    else (Resolved k, mkTable (rows t ++ [k]) (reachable t))
  else (Rejected "ledger unreachable", t).

#[export] Instance Table_Delegate : Delegate Table :=
  {| findUnique := tableFindUnique; create := tableCreate |}.

End EventDispatch.

Import EventDispatch.

(* ===================================================================== *)
(** ** Order lifecycle: the [PATCH] handler of the order route *)
(* ===================================================================== *)

Module Lifecycle.

Record JWTPayload := mkUser {
  userId : string;
  role : Role
}.

Inductive ErrorCode :=
| INVALID_TOKEN | FORBIDDEN | VALIDATION_ERROR | INVALID_INPUT
| NOT_FOUND | INVALID_STATE.

(** [createErrorResponse code message status] or
    [createSuccessResponse order]; messages are left out. *)
Inductive Response :=
| Success (order : Order)
| Failure (code : ErrorCode) (status : Z).

(** The request as the handler sees it: the verified token, the route
    parameter and the body ([None]: not JSON; [Some a]: JSON whose
    [action] field is [a]). *)
Record Request := mkRequest {
  user : option JWTPayload;
  orderIdParam : string;
  body : option string
}.

Inductive Action :=
| start_delivery | pause_delivery | resume_delivery | complete_delivery.

(** [UpdateOrderStatusSchema]: a [z.enum] of the four action names. *)
Definition parseAction (a : string) : option Action :=
  if String.eqb a "start_delivery" then Some start_delivery
  else if String.eqb a "pause_delivery" then Some pause_delivery
  else if String.eqb a "resume_delivery" then Some resume_delivery
  else if String.eqb a "complete_delivery" then Some complete_delivery
  else None.

Inductive Endpoint := GA4 | Meta.

(** Effects visible outside the handler, in program order.  [AuditLog]
    is the row [logDataOperation] writes after an update (lines 526-534):
    the caller's id and role, the order, and the [details] object.
    [ErrorAudit] is the row [handleError] writes for an error thrown into
    the [catch] block: the caller and the error's code and status.  The
    address and user agent both rows also carry are not part of
    [Request]. *)
Inductive Event :=
| AuditLog (userId : string) (userRole : Role) (orderId : string)
    (action : Action) (orderNumber : Z) (newStatus : OrderStatus)
| ErrorAudit (userId : string) (userRole : Role) (code : ErrorCode) (status : Z)
| LedgerRead (orderId eventName : string)
| Fetch (endpoint : Endpoint) (transactionId : string)
| LedgerInsert (orderId eventName : string).

(** [process.env] and the network: whether each endpoint has its
    credentials, and whether a [fetch] to it fails at network level. *)
Record Env := mkEnv {
  configured : Endpoint → bool;
  networkFails : Endpoint → bool
}.

Record World := mkWorld {
  orders : list Order;
  ledger : Table;
  trace : list Event
}.

Definition findOrder (orderId : string) (os : list Order) : option Order :=
  List.find (λ o, String.eqb (id o) orderId) os.

(** The fields [updateData] may carry. *)
Record UpdateData := mkUpdate {
  u_orderStatus : option OrderStatus;
  u_courierId : option string;
  u_deliveredAt : option Z
}.

Definition applyUpdate (d : UpdateData) (o : Order) : Order :=
  mkOrder (id o) (orderNumber o) (customerId o) (adminId o)
    (match u_courierId d with Some c => Some c | None => courierId o end)
    (deliveryAddress o) (deliveryDate o) (deliveryTime o) (quantity o)
    (calories o) (specialFeatures o) (paymentStatus o) (paymentMethod o)
    (isPrepaid o)
    (match u_orderStatus d with Some s => s | None => orderStatus o end)
    (match u_deliveredAt d with Some t => Some t | None => deliveredAt o end).

(** [db.order.update ({ where: { id }, data })]. *)
Definition updateOrder (orderId : string) (d : UpdateData)
    (os : list Order) : list Order :=
  map (λ o, if String.eqb (id o) orderId then applyUpdate d o else o) os.

(** The [switch (action)] of lines 450-496: either an early error
    response or the update to apply. *)
Definition transition (now : Z) (u : JWTPayload) (order : Order)
    (action : Action) : Response + UpdateData :=
  match action with
  | start_delivery =>
      if bool_decide (role u ≠ COURIER) then inl (Failure FORBIDDEN 403)
      else if bool_decide (orderStatus order ≠ PENDING)
      then inl (Failure INVALID_STATE 400)
      else inr (mkUpdate (Some IN_DELIVERY) (Some (userId u)) None)
  | pause_delivery =>
      if bool_decide (role u ≠ COURIER) then inl (Failure FORBIDDEN 403)
      else if bool_decide (orderStatus order ≠ IN_DELIVERY)
      then inl (Failure INVALID_STATE 400)
      else inr (mkUpdate (Some PAUSED) None None)
  | resume_delivery =>
      if bool_decide (role u ≠ COURIER) then inl (Failure FORBIDDEN 403)
      else if bool_decide (orderStatus order ≠ PAUSED)
      then inl (Failure INVALID_STATE 400)
      else inr (mkUpdate (Some IN_DELIVERY) None None)
  | complete_delivery =>
      if bool_decide (role u ≠ COURIER) then inl (Failure FORBIDDEN 403)
      else inr (mkUpdate (Some DELIVERED) None (Some now))
  end.

(** [dispatchGA4Purchase] / [dispatchMetaPurchase]: a no-op without
    credentials, otherwise one [fetch]; only a network failure rejects. *)
Definition dispatchPurchase (env : Env) (e : Endpoint) (txid : string)
    : Outcome unit * list Event :=
  if configured env e then
    (if networkFails env e then Rejected "network" else Resolved tt,
     [Fetch e txid])
  else (Resolved tt, []).

(** Lines 538-584, run to completion: the detached async block. *)
Definition purchaseDispatch (env : Env) (updatedOrder : Order)
    (w : World) : World :=
  let shouldDispatch :=
    bool_decide (paymentStatus updatedOrder = PAID) ||
    (bool_decide (orderStatus updatedOrder = DELIVERED) &&
     bool_decide (paymentMethod updatedOrder = CASH)) in
  if shouldDispatch then
    let eventName := "order_paid" in
    let oid := id updatedOrder in
    let already := hasDispatched oid eventName (ledger w) in
    let tr1 := trace w ++ [LedgerRead oid eventName] in
    match already with
    | Resolved false =>
        (* Promise.allSettled: both are started, rejections are kept
           as results and never thrown *)
        let '(_, ev1) := dispatchPurchase env GA4 oid in
        let '(_, ev2) := dispatchPurchase env Meta oid in
        let '(_, ledger') := markDispatched oid eventName (ledger w) in
        mkWorld (orders w) ledger'
          (tr1 ++ ev1 ++ ev2 ++ [LedgerInsert oid eventName])
    | _ => mkWorld (orders w) (ledger w) tr1
    end
  else w.

(** The handler.  [now] is the clock read by [new Date ()].  A body that
    is not JSON throws an [AppError] into the [catch] block, where
    [handleError] writes its audit row and answers with the error's code
    and status; the other errors are returned directly.  The two queries
    on the order table are taken to resolve; a rejected one would leave
    the [try] block for [handleError] before anything is written. *)
Definition PATCH (env : Env) (now : Z) (request : Request) (w : World)
    : Response * World :=
  match user request with
  | None => (Failure INVALID_TOKEN 401, w)
  | Some u =>
    match body request with
    | None =>
        (Failure INVALID_INPUT 400,
         mkWorld (orders w) (ledger w)
           (trace w ++ [ErrorAudit (userId u) (role u) INVALID_INPUT 400]))
    | Some a =>
      match parseAction a with
      | None => (Failure VALIDATION_ERROR 400, w)
      | Some action =>
        match findOrder (orderIdParam request) (orders w) with
        | None => (Failure NOT_FOUND 404, w)
        | Some order =>
          match transition now u order action with
          | inl response => (response, w)
          | inr updateData =>
              let updatedOrder := applyUpdate updateData order in
              let w1 :=
                mkWorld (updateOrder (orderIdParam request) updateData (orders w))
                  (ledger w)
                  (trace w ++ [AuditLog (userId u) (role u) (id updatedOrder)
                                 action (orderNumber order)
                                 (orderStatus updatedOrder)]) in
              (Success updatedOrder, purchaseDispatch env updatedOrder w1)
          end
        end
      end
    end
  end.

(** A client sending requests one after the other. *)
Fixpoint serve (env : Env) (reqs : list (Z * Request)) (w : World)
    : list Response * World :=
  match reqs with
  | [] => ([], w)
  | (now, r) :: rest =>
      let '(resp, w1) := PATCH env now r w in
      let '(resps, w2) := serve env rest w1 in
      (resp :: resps, w2)
  end.

(** The name an action has in the request body. *)
Definition actionName (a : Action) : string :=
  match a with
  | start_delivery => "start_delivery"
  | pause_delivery => "pause_delivery"
  | resume_delivery => "resume_delivery"
  | complete_delivery => "complete_delivery"
  end.

(** The request a signed-in user sends for an action on an order. *)
Definition actionRequest (u : JWTPayload) (orderId : string) (a : Action)
    : Request :=
  mkRequest (Some u) orderId (Some (actionName a)).

(** The [fetch] calls one purchase dispatch starts for an order. *)
Definition attempts (env : Env) (orderId : string) : list Event :=
  (dispatchPurchase env GA4 orderId).2 ++ (dispatchPurchase env Meta orderId).2.

(** Written from the specification's words, to be compared with
    [attempts]: one call to each endpoint that has its credentials, GA4
    before Meta, whether or not the network fails. *)
Definition expectedCalls (env : Env) (orderId : string) : list Event :=
  (if configured env GA4 then [Fetch GA4 orderId] else [])
  ++ (if configured env Meta then [Fetch Meta orderId] else []).

(** A purchase confirmation is due for the updated order (line 539). *)
Definition due (o : Order) : Prop :=
  paymentStatus o = PAID
  ∨ (orderStatus o = DELIVERED ∧ paymentMethod o = CASH).

(** Outbound HTTP calls recorded in a trace. *)
Definition isFetch (e : Event) : bool :=
  match e with Fetch _ _ => true | _ => false end.

Definition externalCalls (tr : list Event) : list Event :=
  List.filter isFetch tr.

End Lifecycle.

(* ===================================================================== *)
(** ** Recurring-order scheduler ([server.ts]) *)
(* ===================================================================== *)

Module Scheduler.

Definition msPerDay : Z := 1000 * 60 * 60 * 24.

(** [Date.prototype.getDay] under UTC; 1 January 1970 was a Thursday. *)
Definition getDay (date : Z) : Z := (date / msPerDay + 4) mod 7.

Definition days : list string :=
  ["sunday"; "monday"; "tuesday"; "wednesday"; "thursday"; "friday"; "saturday"].

Definition getDayOfWeek (date : Z) : string :=
  nth (Z.to_nat (getDay date)) days "".

(** [d.setDate (d.getDate () + n)] under UTC. *)
Definition addDays (date n : Z) : Z := date + n * msPerDay.

(** [has30DaysPassed], with the clock reading [now] explicit. *)
Definition has30DaysPassed (now date : Z) : bool :=
  let daysDiff := (now - date) / msPerDay in
  30 <=? daysDiff.

Record ClientDeliveryDays := mkDays {
  monday : bool; tuesday : bool; wednesday : bool; thursday : bool;
  friday : bool; saturday : bool; sunday : bool
}.

(** [client.deliveryDays[dayOfWeek]]: a property read by name. *)
Definition dayFlag (d : ClientDeliveryDays) (dayOfWeek : string) : bool :=
  if String.eqb dayOfWeek "monday" then monday d
  else if String.eqb dayOfWeek "tuesday" then tuesday d
  else if String.eqb dayOfWeek "wednesday" then wednesday d
  else if String.eqb dayOfWeek "thursday" then thursday d
  else if String.eqb dayOfWeek "friday" then friday d
  else if String.eqb dayOfWeek "saturday" then saturday d
  else if String.eqb dayOfWeek "sunday" then sunday d
  else false.

(** A row of the customer table. *)
Record Customer := mkCustomer {
  c_id : string;
  c_name : string;
  c_phone : string;
  c_address : string;
  c_preferences : option string;
  c_orderPattern : option string;
  c_isActive : bool;
  c_createdAt : Z;
  c_updatedAt : option Z
}.

Record Admin := mkAdmin {
  a_id : string;
  a_role : Role
}.

Record ClientData := mkClient {
  cd_id : string;
  cd_name : string;
  cd_phone : string;
  cd_address : string;
  cd_calories : Z;
  cd_specialFeatures : string;
  deliveryDays : ClientDeliveryDays;
  autoOrdersEnabled : bool;
  cd_isActive : bool;
  cd_createdAt : Z;
  lastAutoOrderCheck : option Z
}.

(** The database calls the scheduler awaits, each tagged with the
    customer (and loop date) it is made for. *)
Inductive Query :=
| CustomerFindMany
| CustomerFindUnique (clientId : string)
| AdminFindFirst (clientId : string)
| OrderFindFirst (clientId : string) (date : Z)
| OrderCreate (clientId : string) (date : Z)
| CustomerUpdate (clientId : string).

(** What the code cannot decide itself: which awaited query rejects,
    what [Math.random ()] yields at its k-th call (kept as the integer
    that [Math.floor (Math.random () * n)] is reduced to below), and the
    primary key the database gives its n-th order row. *)
Record Oracle := mkOracle {
  rejects : Query → bool;
  draw : nat → nat;
  newId : nat → string
}.

Record World := mkWorld {
  customers : list Customer;
  admins : list Admin;
  orders : list Order;
  draws : nat
}.

(** [Math.floor (Math.random () * n)] at the k-th call. *)
Definition randomBelow (o : Oracle) (n : Z) (k : nat) : Z :=
  Z.of_nat (draw o k) mod n.

Definition digit (n : Z) : string :=
  String (Ascii.ascii_of_nat (48 + Z.to_nat n)) EmptyString.

(** [n.toString ().padStart (2, '0')] for 0 <= n < 100. *)
Definition pad2 (n : Z) : string :=
  String.append (digit (n / 10)) (digit (n mod 10)).

(** [generateDeliveryTime], drawing at positions [k] and [k + 1]. *)
Definition generateDeliveryTime (o : Oracle) (k : nat) : string :=
  let hour := 11 + randomBelow o 3 k in
  let minute := randomBelow o 60 (S k) in
  String.append (pad2 hour) (String.append ":" (pad2 minute)).

(** [db.order.findFirst ({ orderBy: { orderNumber: 'desc' } })]. *)
Definition findLastOrder (os : list Order) : option Order :=
  foldl (λ best o,
           match best with
           | Some b => if orderNumber b <? orderNumber o then Some o else Some b
           | None => Some o
           end) None os.

(** The body of the [while] loop (lines 91-135) for one date. *)
Definition visitDate (o : Oracle) (client : ClientData)
    (dbClientId adminId' : string) (currentDate : Z)
    (acc : list Order * World) : list Order * World :=
  let '(createdOrders, w) := acc in
  let dayOfWeek := getDayOfWeek currentDate in
  if dayFlag (deliveryDays client) dayOfWeek then
    if rejects o (OrderFindFirst (cd_id client) currentDate)
    then (createdOrders, w)
    else
      let lastOrder := findLastOrder (orders w) in
      let nextOrderNumber :=
        match lastOrder with
        | Some l => orderNumber l + 1
        | None => 1
        end in
      let time := generateDeliveryTime o (draws w) in
      let w1 := mkWorld (customers w) (admins w) (orders w) (2 + draws w) in
      if rejects o (OrderCreate (cd_id client) currentDate)
      then (createdOrders, w1)
      else
        let newOrder :=
          mkOrder (newId o (length (orders w))) nextOrderNumber
            dbClientId adminId' None (cd_address client)
            (Some currentDate) time 1 (cd_calories client)
            (cd_specialFeatures client) UNPAID CASH false PENDING None in
        (createdOrders ++ [newOrder],
         mkWorld (customers w) (admins w) (orders w ++ [newOrder])
           (2 + draws w))
  else (createdOrders, w).

Lemma loop_measure (currentDate endDate : Z) :
  currentDate <= endDate →
  (Z.to_nat ((endDate - addDays currentDate 1) / msPerDay + 1)
   < Z.to_nat ((endDate - currentDate) / msPerDay + 1))%nat.
Proof.
  intros Hle. unfold addDays.
  replace (endDate - (currentDate + 1 * msPerDay))
    with ((endDate - currentDate) + (-1) * msPerDay) by lia.
  rewrite Z.div_add by (unfold msPerDay; lia).
  assert (0 <= (endDate - currentDate) / msPerDay)
    by (apply Z.div_pos; unfold msPerDay; lia).
  lia.
Qed.

(** [while (currentDate <= endDate) { ...; currentDate.setDate (+1) }]. *)
Equations orderLoop (o : Oracle) (client : ClientData)
    (dbClientId adminId' : string) (endDate currentDate : Z)
    (acc : list Order * World) : list Order * World
    by wf (Z.to_nat ((endDate - currentDate) / msPerDay + 1)) lt :=
  orderLoop o client dbClientId adminId' endDate currentDate acc
    with decide (currentDate <= endDate) => {
    | left Hle :=
        orderLoop o client dbClientId adminId' endDate
          (addDays currentDate 1)
          (visitDate o client dbClientId adminId' currentDate acc);
    | right _ := acc }.
Next Obligation. intros. by apply loop_measure. Qed.

Definition createAutoOrdersForClient (o : Oracle) (client : ClientData)
    (startDate endDate : Z) (w : World) : list Order * World :=
  if rejects o (CustomerFindUnique (cd_id client)) then ([], w)
  else
    match List.find (λ c, String.eqb (c_id c) (cd_id client)) (customers w) with
    | None => ([], w)
    | Some dbClient =>
        if rejects o (AdminFindFirst (cd_id client)) then ([], w)
        else
          match List.find (λ a, bool_decide (a_role a = SUPER_ADMIN)) (admins w) with
          | None => ([], w)
          | Some defaultAdmin =>
              orderLoop o client (c_id dbClient) (a_id defaultAdmin)
                endDate startDate ([], w)
          end
    end.

(** [updateClientLastCheck], writing the clock reading [now]. *)
Definition updateClientLastCheck (o : Oracle) (now : Z) (clientId : string)
    (w : World) : World :=
  if rejects o (CustomerUpdate clientId) then w
  else
    mkWorld
      (map (λ c, if String.eqb (c_id c) clientId
                 then mkCustomer (c_id c) (c_name c) (c_phone c) (c_address c)
                        (c_preferences c) (c_orderPattern c) (c_isActive c)
                        (c_createdAt c) (Some now)
                 else c) (customers w))
      (admins w) (orders w) (draws w).

(** The eligibility predicate of lines 174-188. *)
Definition isEligible (now : Z) (client : Customer) : bool :=
  let createdDate := c_createdAt client in
  let lastCheck :=
    match c_updatedAt client with
    | Some u => u
    | None => createdDate
    end in
  let daysSinceCreation := has30DaysPassed now createdDate in
  let daysSinceLastCheck := has30DaysPassed now lastCheck in
  daysSinceCreation || daysSinceLastCheck.

(** Lines 202-223. *)
Definition resolveDeliveryDays (orderPattern : option string)
    : ClientDeliveryDays :=
  match orderPattern with
  | Some p =>
      if String.eqb p "daily"
      then mkDays true true true true true true true
      else mkDays false false false false false false false
  | None => mkDays false false false false false false false
  end.

Definition toClientData (client : Customer) : ClientData :=
  mkClient (c_id client) (c_name client) (c_phone client) (c_address client)
    2000 (default "" (c_preferences client))
    (resolveDeliveryDays (c_orderPattern client))
    true (c_isActive client) (c_createdAt client) (c_updatedAt client).

(** One pass of the [for] loop of lines 200-253; the report collects
    what the closing log line of each pass prints. *)
Definition processClient (o : Oracle) (today : Z)
    (acc : list (string * list Order) * World) (client : Customer)
    : list (string * list Order) * World :=
  let '(report, w) := acc in
  let clientData := toClientData client in
  let startDate := today in
  let endDate := addDays today 30 in
  let '(clientOrders, w1) :=
    createAutoOrdersForClient o clientData startDate endDate w in
  let w2 := updateClientLastCheck o today (c_id client) w1 in
  (report ++ [(c_id client, clientOrders)], w2).

Definition eligibleClients (today : Z) (w : World) : list Customer :=
  List.filter (isEligible today)
    (List.filter c_isActive (customers w)).

(** [runAutoOrderScheduler] at clock reading [today]. *)
Definition runAutoOrderScheduler (o : Oracle) (today : Z) (w : World)
    : list (string * list Order) * World :=
  if rejects o CustomerFindMany then ([], w)
  else foldl (processClient o today) ([], w) (eligibleClients today w).

(** *** Vocabulary for the statements about the scheduler *)

(** The dates the [while] loop visits: [startDate], then one day later
    each time, while not after [endDate]. *)
Definition loopDates (startDate endDate : Z) : list Z :=
  if decide (startDate <= endDate)
  then (λ i, addDays startDate (Z.of_nat i))
         <$> seq 0 (Z.to_nat ((endDate - startDate) / msPerDay + 1))
  else [].

(** [lastOrder ? lastOrder.orderNumber + 1 : 1] on the current table. *)
Definition nextOrderNumber (os : list Order) : Z :=
  match findLastOrder os with
  | Some l => orderNumber l + 1
  | None => 1
  end.

(** One order per date, numbered upwards from [number], with the
    defaults the scheduler writes; [rowsBefore] and [drawsBefore] count
    the order rows and the random draws made so far. *)
Fixpoint ordersFor (o : Oracle) (client : ClientData)
    (dbClientId adminId' : string) (dates : list Z) (number : Z)
    (rowsBefore drawsBefore : nat) : list Order :=
  match dates with
  | [] => []
  | date :: rest =>
      mkOrder (newId o rowsBefore) number dbClientId adminId' None
        (cd_address client) (Some date)
        (generateDeliveryTime o drawsBefore) 1 (cd_calories client)
        (cd_specialFeatures client) UNPAID CASH false PENDING None
      :: ordersFor o client dbClientId adminId' rest (number + 1)
           (S rowsBefore) (2 + drawsBefore)
  end.

Definition everyDay : ClientDeliveryDays :=
  mkDays true true true true true true true.

Definition noDay : ClientDeliveryDays :=
  mkDays false false false false false false false.

(** No query made for this client's orders rejects. *)
Definition orderQueriesResolve (o : Oracle) (clientId : string) : Prop :=
  ∀ date, rejects o (OrderFindFirst clientId date) = false
          ∧ rejects o (OrderCreate clientId date) = false.

(** A customer row after [updateClientLastCheck] has written [now]. *)
Definition checkedAt (now : Z) (c : Customer) : Customer :=
  mkCustomer (c_id c) (c_name c) (c_phone c) (c_address c)
    (c_preferences c) (c_orderPattern c) (c_isActive c)
    (c_createdAt c) (Some now).

(** Some processed customer has this id and its update went through. *)
Definition touched (o : Oracle) (processed : list Customer)
    (clientId : string) : bool :=
  existsb (λ c, String.eqb (c_id c) clientId
                && negb (rejects o (CustomerUpdate (c_id c)))) processed.

(** The timestamp the eligibility test uses as the last check. *)
Definition lastCheckOf (c : Customer) : Z :=
  default (c_createdAt c) (c_updatedAt c).

End Scheduler.

(* ===================================================================== *)
(** ** Rate limiter: identifiers, responses and maintenance
       (the rest of [src/lib/rate-limiter.ts]) *)
(* ===================================================================== *)

Module RateLimitHttp.
Import RateLimiter.

(** What [request.headers.get] answers for the three proxy headers.  A
    header value is a byte string: each byte is one code unit below 256. *)
Record ProxyHeaders := mkProxy {
  xForwardedFor : option string;
  xRealIp : option string;
  cfConnectingIp : option string
}.

(** JavaScript truthiness of a [string | null]. *)
Definition truthy (h : option string) : bool :=
  match h with
  | Some s => negb (String.eqb s "")
  | None => false
  end.

(** The code units below 256 that [String.prototype.trim] strips: TAB, LF,
    VT, FF, CR, SPACE and NO-BREAK SPACE. *)
Definition isWhiteSpace (c : Ascii.ascii) : bool :=
  let n := Ascii.nat_of_ascii c in
  (n =? 9)%nat || (n =? 10)%nat || (n =? 11)%nat || (n =? 12)%nat
  || (n =? 13)%nat || (n =? 32)%nat || (n =? 160)%nat.

Fixpoint trimStart (s : string) : string :=
  match s with
  | String c rest => if isWhiteSpace c then trimStart rest else s
  | EmptyString => EmptyString
  end.

Fixpoint trimEnd (s : string) : string :=
  match s with
  | String c rest =>
      match trimEnd rest with
      | EmptyString => if isWhiteSpace c then EmptyString else String c EmptyString
      | kept => String c kept
      end
  | EmptyString => EmptyString
  end.

Definition trim (s : string) : string := trimEnd (trimStart s).

(** [s.split (',')[0]]: what precedes the first comma. *)
Fixpoint firstSegment (s : string) : string :=
  match s with
  | String c rest =>
      if Ascii.eqb c (Ascii.ascii_of_nat 44)
      then EmptyString else String c (firstSegment rest)
  | EmptyString => EmptyString
  end.

(** Whether a code unit occurs in a string. *)
Fixpoint occurs (c : Ascii.ascii) (s : string) : bool :=
  match s with
  | String c' rest => Ascii.eqb c c' || occurs c rest
  | EmptyString => false
  end.

Definition comma : Ascii.ascii := Ascii.ascii_of_nat 44.

(** [getClientIdentifier]. *)
Definition getClientIdentifier (h : ProxyHeaders) : string :=
  if truthy (xForwardedFor h)
  then trim (firstSegment (default "" (xForwardedFor h)))
  else if truthy (xRealIp h) then default "" (xRealIp h)
  else if truthy (cfConnectingIp h) then default "" (cfConnectingIp h)
  else "unknown".

(** [Math.ceil (x / d)] on integers, for a positive [d]. *)
Definition ceilDiv (x d : Z) : Z := - ((- x) / d).

(** Header names are case-insensitive; a [Headers] object keeps them in
    lower case. *)
Definition lowerAscii (c : Ascii.ascii) : Ascii.ascii :=
  let n := Ascii.nat_of_ascii c in
  if (65 <=? n)%nat && (n <=? 90)%nat then Ascii.ascii_of_nat (n + 32) else c.

Fixpoint lowerName (s : string) : string :=
  match s with
  | String c rest => String (lowerAscii c) (lowerName rest)
  | EmptyString => EmptyString
  end.

Abbreviation Headers := (gmap string string).

(** [headers.set (name, value)]. *)
Definition headerSet (name value : string) (h : Headers) : Headers :=
  <[lowerName name := value]> h.

(** [headers.get (name)]. *)
Definition headerGet (name : string) (h : Headers) : option string :=
  h !! lowerName name.

(** The body of a response: the JSON object of a 429 answer, or whatever
    another handler wrote. *)
Inductive Body :=
| RateLimitBody (error : string) (retryAfter : Z)
| OtherBody (raw : string).

Record HttpResponse := mkResponse {
  status : Z;
  statusText : string;
  headers : Headers;
  body : Body
}.

(** [String (n)] for a number that may be [NaN] ([None]). *)
Definition showNumber (n : option Z) : string :=
  match n with
  | Some z => pretty z
  | None => "NaN"
  end.

(** The seconds a 429 answer asks the client to wait: [retryAfter > 0 ?
    retryAfter : 0], with [retryAfter = Math.ceil ((resetTime - now) /
    1000)]; a [NaN] is not greater than 0. *)
Definition retryAfterSeconds (resetTime : option Z) (now : Z) : Z :=
  match resetTime with
  | Some r =>
      let retryAfter := ceilDiv (r - now) 1000 in
      if 0 <? retryAfter then retryAfter else 0
  | None => 0
  end.

(** [createRateLimitResponse], with the clock reading [now]. *)
Definition createRateLimitResponse (message : string) (resetTime : option Z)
    (maxRequests : Z) (now : Z) : HttpResponse :=
  let shown := retryAfterSeconds resetTime now in
  mkResponse 429 ""
    (headerSet "X-RateLimit-Reset"
       (showNumber ((λ r, ceilDiv r 1000) <$> resetTime))
       (headerSet "X-RateLimit-Remaining" "0"
          (headerSet "X-RateLimit-Limit" (pretty maxRequests)
             (headerSet "Retry-After" (pretty shown)
                (headerSet "Content-Type" "application/json" ∅)))))
    (RateLimitBody message shown).

(** [addRateLimitHeaders]: a copy of the response with three headers set. *)
Definition addRateLimitHeaders (response : HttpResponse) (remaining : Z)
    (resetTime : option Z) (maxRequests : Z) : HttpResponse :=
  mkResponse (status response) (statusText response)
    (headerSet "X-RateLimit-Reset"
       (showNumber ((λ r, ceilDiv r 1000) <$> resetTime))
       (headerSet "X-RateLimit-Remaining" (pretty remaining)
          (headerSet "X-RateLimit-Limit" (pretty maxRequests)
             (headers response))))
    (body response).

(** An entry of [RATE_LIMIT_CONFIGS]: the limits and the message. *)
Record RouteLimit := mkRouteLimit {
  limit : RateLimitConfig;
  message : option string
}.

(** [RATE_LIMIT_CONFIGS], read from the environment when the module is
    loaded. *)
Record RateLimitConfigs := mkConfigs {
  auth : RouteLimit;
  api : RouteLimit;
  admin : RouteLimit
}.

Inductive ConfigType := Auth | Api | Admin.

Definition configOf (configs : RateLimitConfigs) (t : ConfigType) : RouteLimit :=
  match t with
  | Auth => auth configs
  | Api => api configs
  | Admin => admin configs
  end.

(** The values used when the environment sets nothing. *)
Definition defaultConfigs : RateLimitConfigs :=
  mkConfigs
    (mkRouteLimit (mkConfig 5 (15 * 60 * 1000))
       (Some "Too many authentication attempts. Please try again later."))
    (mkRouteLimit (mkConfig 100 (15 * 60 * 1000))
       (Some "Too many requests. Please try again later."))
    (mkRouteLimit (mkConfig 50 (15 * 60 * 1000))
       (Some "Too many admin operations. Please try again later.")).

(** [config.message || 'Too many requests']. *)
Definition messageOf (r : RouteLimit) : string :=
  if truthy (message r) then default "" (message r) else "Too many requests".

(** The middleware [rateLimit (configType)] returns, applied to a request
    and to the handler [next], which may itself use the store. *)
Definition rateLimit (configs : RateLimitConfigs) (configType : ConfigType)
    (request : ProxyHeaders)
    (next : gmap string RateLimitRecord → HttpResponse * gmap string RateLimitRecord)
    (now : Z) (store : gmap string RateLimitRecord)
    : HttpResponse * gmap string RateLimitRecord :=
  let config := configOf configs configType in
  let identifier := getClientIdentifier request in
  let '(res, store1) := checkRateLimit identifier (limit config) now store in
  if allowed res then
    let '(response, store2) := next store1 in
    (addRateLimitHeaders response (remaining res) (r_resetTime res)
       (maxRequests (limit config)), store2)
  else
    (createRateLimitResponse (messageOf config) (r_resetTime res)
       (maxRequests (limit config)) now, store1).

Definition getRateLimitStatus (identifier : string)
    (store : gmap string RateLimitRecord) : option RateLimitRecord :=
  store !! identifier.

Definition clearRateLimit (identifier : string)
    (store : gmap string RateLimitRecord) : gmap string RateLimitRecord :=
  delete identifier store.

Definition clearAllRateLimits (store : gmap string RateLimitRecord)
    : gmap string RateLimitRecord := ∅.

End RateLimitHttp.

(* ===================================================================== *)
(** ** Language choice ([src/i18n/config.ts]) and the request middleware
       ([middleware.ts]) *)
(* ===================================================================== *)

Module Middleware.
Import RateLimiter RateLimitHttp.

Definition defaultLang : string := "uz".

(** [isLang]. *)
Definition isLang (x : option string) : bool :=
  match x with
  | Some s => String.eqb s "uz" || String.eqb s "ru"
  | None => false
  end.

(** [String.prototype.toLowerCase] on code units below 256: the ASCII
    capitals and the Latin-1 capitals U+00C0 to U+00DE (without U+00D7)
    move up by 32. *)
Definition toLowerUnit (c : Ascii.ascii) : Ascii.ascii :=
  let n := Ascii.nat_of_ascii c in
  if ((65 <=? n)%nat && (n <=? 90)%nat)
     || ((192 <=? n)%nat && (n <=? 222)%nat && negb (n =? 215)%nat)
  then Ascii.ascii_of_nat (n + 32) else c.

Fixpoint toLowerCase (s : string) : string :=
  match s with
  | String c rest => String (toLowerUnit c) (toLowerCase rest)
  | EmptyString => EmptyString
  end.

(** [s.includes (sub)]. *)
Fixpoint includes (s sub : string) : bool :=
  String.prefix sub s ||
  match s with
  | String _ rest => includes rest sub
  | EmptyString => false
  end.

(** [pickFromAcceptLanguage]. *)
Definition pickFromAcceptLanguage (header : option string) : string :=
  let h := toLowerCase (if truthy header then default "" header else "") in
  if includes h "uz" then "uz"
  else if includes h "ru" then "ru"
  else defaultLang.

(** What the middleware reads from a request.  [valid] is the verdict of
    [validateRequest] from the sanitization module, whose regular
    expressions are not modelled. *)
Record Request := mkRequest {
  valid : bool;
  pathname : string;
  proxy : ProxyHeaders;
  cookieLang : option string;
  queryLang : option string;
  acceptLanguage : option string
}.

(** What lies outside the middleware: the limits read from the
    environment, the responses the framework builds for [next ()] and for
    a redirect, and [applySecurityHeaders] as a map on headers. *)
Record Env := mkEnv {
  configs : RateLimitConfigs;
  nextResponse : HttpResponse;
  redirectResponse : HttpResponse;
  applySecurityHeaders : Headers → Headers
}.

Inductive Outcome :=
| BadRequest
| TooManyRequests (logged : ConfigType) (response : HttpResponse)
| Redirected (lang : string) (response : HttpResponse)
| Continued (lang : string) (response : HttpResponse).

(** The route class of a path: the limit that applies and the name the
    violation is logged under. *)
Definition routeClass (pathname : string) : ConfigType :=
  if String.prefix "/api/auth" pathname then Auth
  else if String.prefix "/api/admin" pathname then Admin
  else Api.

(** The two header passes every response that goes through gets. *)
Definition decorate (env : Env) (res : HttpResponse) (remaining : Z)
    (resetTime : option Z) (maxRequests : Z) : HttpResponse :=
  addRateLimitHeaders
    (mkResponse (status res) (statusText res)
       (applySecurityHeaders env (headers res)) (body res))
    remaining resetTime maxRequests.

(** [middleware], with the clock and the limiter's store explicit. *)
Definition middleware (env : Env) (req : Request) (now : Z)
    (store : gmap string RateLimitRecord)
    : Outcome * gmap string RateLimitRecord :=
  if negb (valid req) then (BadRequest, store)
  else
    let rateLimitConfig := configOf (configs env) (routeClass (pathname req)) in
    let identifier := getClientIdentifier (proxy req) in
    let '(res, store1) :=
      checkRateLimit identifier (limit rateLimitConfig) now store in
    if negb (allowed res) then
      (TooManyRequests (routeClass (pathname req))
         (createRateLimitResponse (messageOf rateLimitConfig) (r_resetTime res)
            (maxRequests (limit rateLimitConfig)) now),
       store1)
    else
      let finish r :=
        decorate env r (remaining res) (r_resetTime res)
          (maxRequests (limit rateLimitConfig)) in
      if isLang (queryLang req) then
        (Redirected (default defaultLang (queryLang req))
           (finish (redirectResponse env)), store1)
      else if negb (isLang (cookieLang req)) then
        (Continued (pickFromAcceptLanguage (acceptLanguage req))
           (finish (nextResponse env)), store1)
      else
        (Continued (default defaultLang (cookieLang req))
           (finish (nextResponse env)), store1).

(** Whether the middleware answered 429. *)
Definition isTooMany (o : Outcome) : bool :=
  match o with
  | TooManyRequests _ _ => true
  | _ => false
  end.

(** One request arriving again and again, at the given clock readings. *)
Fixpoint serve (env : Env) (req : Request) (times : list Z)
    (store : gmap string RateLimitRecord)
    : list Outcome * gmap string RateLimitRecord :=
  match times with
  | [] => ([], store)
  | now :: rest =>
      let '(o, store1) := middleware env req now store in
      let '(os, store2) := serve env req rest store1 in
      (o :: os, store2)
  end.

End Middleware.

(* ===================================================================== *)
(** ** The order collection route: listing filters, pagination, [POST] *)
(* ===================================================================== *)

Module OrdersRoute.
Import Lifecycle.

(** The flags of the [filters] query parameter, each by its truthiness. *)
Record Filters := mkFilters {
  successful : bool; failed : bool; pending : bool; inDelivery : bool;
  prepaid : bool; unpaid : bool; card : bool; cash : bool;
  calories1200 : bool; calories1600 : bool; calories2000 : bool;
  calories2500 : bool; calories3000 : bool;
  singleItem : bool; multiItem : bool
}.

(** The callback of [orders.filter] in [GET]: every flag that is set can
    only reject. *)
Definition passesFilters (filters : Filters) (order : Order) : bool :=
  if successful filters && bool_decide (orderStatus order ≠ DELIVERED) then false
  else if failed filters && bool_decide (orderStatus order ≠ FAILED) then false
  else if pending filters && bool_decide (orderStatus order ≠ PENDING) then false
  else if inDelivery filters && bool_decide (orderStatus order ≠ IN_DELIVERY) then false
  else if prepaid filters && negb (isPrepaid order) then false
  else if unpaid filters && bool_decide (paymentStatus order ≠ UNPAID) then false
  else if card filters && bool_decide (paymentMethod order ≠ CARD) then false
  else if cash filters && bool_decide (paymentMethod order ≠ CASH) then false
  else if calories1200 filters && bool_decide (calories order ≠ 1200) then false
  else if calories1600 filters && bool_decide (calories order ≠ 1600) then false
  else if calories2000 filters && bool_decide (calories order ≠ 2000) then false
  else if calories2500 filters && bool_decide (calories order ≠ 2500) then false
  else if calories3000 filters && bool_decide (calories order ≠ 3000) then false
  else if singleItem filters && bool_decide (quantity order ≠ 1) then false
  else if multiItem filters && bool_decide (quantity order = 1) then false
  else true.

(** The filtering step of [GET]: [hasKeys] is [Object.keys
    (filters).length > 0]. *)
Definition filterOrders (role : Role) (hasKeys : bool) (filters : Filters)
    (orders : list Order) : list Order :=
  if bool_decide (role ≠ COURIER) && hasKeys
  then List.filter (passesFilters filters) orders
  else orders.

(** [Math.max (1, n)] and [Math.min (100, n)] on a number that may be
    [NaN] ([None]): a [NaN] argument gives [NaN]. *)
Definition pageOf (parsed : option Z) : option Z := Z.max 1 <$> parsed.
Definition limitOf (parsed : option Z) : option Z :=
  (λ n, Z.min 100 (Z.max 1 n)) <$> parsed.

Record Pagination := mkPagination {
  total : Z;
  page : Z;
  pageLimit : Z;
  totalPages : Z;
  hasMore : bool
}.

(** The [pagination] object of the answer, for a page and a limit that
    are numbers. *)
Definition paginationOf (total page limit : Z) : Pagination :=
  mkPagination total page limit (RateLimitHttp.ceilDiv total limit)
    (page * limit <? total).

(** The rows [findMany] returns for a request without a cursor, out of
    the rows that match the [where] clause in the order of the [orderBy]:
    [take: limit, skip: (page - 1) * limit]. *)
Definition pageRows (matching : list Order) (page limit : Z) : list Order :=
  take (Z.to_nat limit) (drop (Z.to_nat ((page - 1) * limit)) matching).

(** The body of a [POST] after [CreateOrderSchema] accepted it (the
    schema's defaults applied). *)
Record CreateOrder := mkCreateOrder {
  customerName : string;
  customerPhone : string;
  co_deliveryAddress : string;
  co_deliveryTime : option string;
  co_quantity : Z;
  co_calories : Z;
  co_specialFeatures : option string;
  co_paymentStatus : PaymentStatus;
  co_paymentMethod : PaymentMethod;
  co_isPrepaid : bool;
  co_date : option Z;
  selectedClientId : option string
}.

Inductive PostBody :=
| NotJson
| Rejected (reason : string)
| Accepted (data : CreateOrder).

Record PostRequest := mkPost {
  p_user : option JWTPayload;
  p_body : PostBody
}.

(** What the database fills in: the primary keys of a new customer and a
    new order, and the columns of a new customer the handler does not
    set. *)
Record Generated := mkGenerated {
  g_customerId : string;
  g_orderId : string;
  g_isActive : bool;
  g_updatedAt : option Z
}.

(** How the [try] block ends: with a response, or with a thrown
    [AppError] that goes to the [catch] block. *)
Inductive PostResult :=
| Created (order : Order)
| Refused (code : string) (status : Z)
| Thrown (code : string) (status : Z).

(** The tables and logs the three entry points share. *)
Record State := mkState {
  customers : list Scheduler.Customer;
  admins : list Scheduler.Admin;
  world : World;
  creations : list (string * Z);
  draws : nat
}.

Definition withWorld (s : State) (w : World) : State :=
  mkState (customers s) (admins s) w (creations s) (draws s).

(** The dispatch block at the end of [POST], run to completion. *)
Definition createdDispatch (env : Env) (newOrder : Order) (w : World) : World :=
  if bool_decide (paymentStatus newOrder = PAID) then
    let eventName := "order_paid" in
    let oid := id newOrder in
    let already := hasDispatched oid eventName (ledger w) in
    let tr1 := trace w ++ [LedgerRead oid eventName] in
    match already with
    | Resolved false =>
        let '(_, ev1) := dispatchPurchase env GA4 oid in
        let '(_, ev2) := dispatchPurchase env Meta oid in
        let '(_, ledger') := markDispatched oid eventName (ledger w) in
        mkWorld (orders w) ledger'
          (tr1 ++ ev1 ++ ev2 ++ [LedgerInsert oid eventName])
    | _ => mkWorld (orders w) (ledger w) tr1
    end
  else w.

(** [POST].  [now] is the creation time the database stamps on a new
    customer.  All queries are taken to resolve. *)
Definition POST (env : Env) (gen : Generated) (now : Z)
    (request : PostRequest) (s : State) : PostResult * State :=
  match p_user request with
  | None => (Refused "INVALID_TOKEN" 401, s)
  | Some user =>
    if bool_decide (role user ≠ MIDDLE_ADMIN)
       && bool_decide (role user ≠ SUPER_ADMIN)
       && bool_decide (role user ≠ COURIER)
    then (Refused "INSUFFICIENT_PERMISSIONS" 403, s)
    else
      match p_body request with
      | NotJson => (Thrown "INVALID_INPUT" 400, s)
      | Rejected _ => (Refused "VALIDATION_ERROR" 400, s)
      | Accepted data =>
        let byId :=
          match selectedClientId data with
          | Some i => negb (String.eqb i "") && negb (String.eqb i "manual")
          | None => false
          end in
        let found :=
          if byId then
            List.find (λ c, String.eqb (Scheduler.c_id c)
                              (default "" (selectedClientId data)))
              (customers s)
          else
            List.find (λ c, String.eqb (Scheduler.c_phone c) (customerPhone data))
              (customers s) in
        let customerAndTable :=
          match found with
          | Some c => Some (c, customers s)
          | None =>
              if byId then None
              else
                let c :=
                  Scheduler.mkCustomer (g_customerId gen) (customerName data)
                    (customerPhone data) (co_deliveryAddress data)
                    (co_specialFeatures data) (Some "daily") (g_isActive gen)
                    now (g_updatedAt gen) in
                Some (c, customers s ++ [c])
          end in
        match customerAndTable with
        | None => (Thrown "CUSTOMER_NOT_FOUND" 404, s)
        | Some (customer, customers') =>
          let s1 := mkState customers' (admins s) (world s) (creations s) (draws s) in
          match List.find (λ a, bool_decide (Scheduler.a_role a = SUPER_ADMIN))
                  (admins s) with
          | None => (Thrown "ADMIN_NOT_FOUND" 500, s1)
          | Some admin =>
            let lastOrder := Scheduler.findLastOrder (orders (world s)) in
            let nextOrderNumber :=
              match lastOrder with
              | Some l => orderNumber l + 1
              | None => 1
              end in
            let newOrder :=
              mkOrder (g_orderId gen) nextOrderNumber
                (Scheduler.c_id customer) (Scheduler.a_id admin) None
                (co_deliveryAddress data) (co_date data)
                (if RateLimitHttp.truthy (co_deliveryTime data)
                 then default "" (co_deliveryTime data) else "12:00")
                (if co_quantity data =? 0 then 1 else co_quantity data)
                (co_calories data)
                (default "" (co_specialFeatures data))
                (co_paymentStatus data) (co_paymentMethod data)
                (co_isPrepaid data) PENDING None in
            let w1 :=
              mkWorld (orders (world s) ++ [newOrder]) (ledger (world s))
                (trace (world s)) in
            (Created newOrder,
             mkState customers' (admins s) (createdDispatch env newOrder w1)
               (creations s ++ [(id newOrder, nextOrderNumber)]) (draws s))
          end
        end
      end
  end.

(** The lifecycle handler and the scheduler on the shared state. *)
Definition patch (env : Env) (now : Z) (request : Request) (s : State)
    : Response * State :=
  let '(response, w) := PATCH env now request (world s) in
  (response, withWorld s w).

Definition schedulerRun (o : Scheduler.Oracle) (today : Z) (s : State) : State :=
  let w := Scheduler.mkWorld (customers s) (admins s) (orders (world s)) (draws s) in
  let w' := (Scheduler.runAutoOrderScheduler o today w).2 in
  mkState (Scheduler.customers w') (Scheduler.admins w')
    (mkWorld (Scheduler.orders w') (ledger (world s)) (trace (world s)))
    (creations s) (Scheduler.draws w').

(** One thing that happens to the backend. *)
Inductive Op :=
| Post (env : Env) (gen : Generated) (now : Z) (request : PostRequest)
| Patch (env : Env) (now : Z) (request : Request)
| Run (o : Scheduler.Oracle) (today : Z).

Definition step (s : State) (op : Op) : State :=
  match op with
  | Post env gen now request => (POST env gen now request s).2
  | Patch env now request => (patch env now request s).2
  | Run o today => schedulerRun o today s
  end.

(** The order numbers in the table, in row order. *)
Definition orderNumbers (s : State) : list Z :=
  orderNumber <$> orders (world s).

End OrdersRoute.

(** *** Vocabulary for further statements about the scheduler *)

Module SchedulerVocabulary.
Import Scheduler.

(** Order numbers that run upwards from [number] without a gap. *)
Definition consecutiveFrom (number : Z) (new : list Order) : Prop :=
  orderNumber <$> new = (λ i, number + Z.of_nat i) <$> seq 0 (length new).

(** The columns [db.order.create] receives in the scheduler (lines
    103-117), for the customer [clientId] and some super administrator
    of the table. *)
Definition autoOrder (adminRows : list Admin) (clientId : string)
    (x : Order) : Prop :=
  customerId x = clientId
  ∧ (∃ a, a ∈ adminRows ∧ a_role a = SUPER_ADMIN ∧ adminId x = a_id a)
  ∧ courierId x = None ∧ deliveredAt x = None
  ∧ orderStatus x = PENDING ∧ paymentStatus x = UNPAID
  ∧ paymentMethod x = CASH ∧ isPrepaid x = false
  ∧ quantity x = 1.

End SchedulerVocabulary.

(** *** The scheduler's timers ([createCustomServer], lines 326-335) *)

Module ServerTimers.
Import Scheduler.

(** The callback of [server.listen] first awaits [ensureDefaultAdmin],
    which only looks for a SUPER_ADMIN and logs, and then sets the two
    timers.  With the timers set at [armed] and each firing when it is
    due, the scheduler starts at these clock readings: once after ten
    seconds, then every hour, [n] times. *)
Definition schedulerTicks (armed : Z) (n : nat) : list Z :=
  (armed + 10000)
  :: ((λ k, armed + Z.of_nat k * (60 * 60 * 1000)) <$> seq 1 n).

(** The runs one after the other, each reading the clock at its start. *)
Definition runScheduler (o : Oracle) (times : list Z) (w : World) : World :=
  foldl (λ w today, (runAutoOrderScheduler o today w).2) w times.

End ServerTimers.

(** *** Vocabulary for further statements about the order routes *)

Module RouteVocabulary.
Import Lifecycle OrdersRoute.

(** The columns of an order row that the lifecycle handler never
    writes. *)
Definition fixedColumns (o : Order) :=
  (id o, orderNumber o, customerId o, adminId o, deliveryAddress o,
   deliveryDate o, deliveryTime o, quantity o, calories o,
   specialFeatures o, paymentStatus o, paymentMethod o, isPrepaid o).

(** The states an order in state [s] can be found in later. *)
Definition canBecome (s s' : OrderStatus) : bool :=
  match s, s' with
  | _, DELIVERED => true
  | PENDING, (PENDING | IN_DELIVERY | PAUSED) => true
  | (IN_DELIVERY | PAUSED), (IN_DELIVERY | PAUSED) => true
  | FAILED, FAILED => true
  | _, _ => false
  end.

(** The outbound calls of a trace that carry the given order id. *)
Definition fetchesFor (orderId : string) (tr : list Event) : list Event :=
  List.filter (λ e, match e with
                    | Fetch _ transactionId => String.eqb transactionId orderId
                    | _ => false
                    end) tr.

(** The dispatch block the two handlers share (lines 326-364 and
    538-584), with its condition as a parameter. *)
Definition dispatchBlock (env : Env) (shouldDispatch : bool) (o : Order)
    (w : World) : World :=
  if shouldDispatch then
    let eventName := "order_paid" in
    let oid := id o in
    let already := hasDispatched oid eventName (ledger w) in
    let tr1 := trace w ++ [LedgerRead oid eventName] in
    match already with
    | Resolved false =>
        let '(_, ev1) := dispatchPurchase env GA4 oid in
        let '(_, ev2) := dispatchPurchase env Meta oid in
        let '(_, ledger') := markDispatched oid eventName (ledger w) in
        mkWorld (orders w) ledger'
          (tr1 ++ ev1 ++ ev2 ++ [LedgerInsert oid eventName])
    | _ => mkWorld (orders w) (ledger w) tr1
    end
  else w.

(** The ledger can be reached, and every order id for which an outbound
    call was made has its ledger row and at most one call per endpoint. *)
Definition sentOnce (w : World) : Prop :=
  reachable (ledger w) = true
  ∧ ∀ orderId,
      fetchesFor orderId (trace w) = []
      ∨ ((orderId, "order_paid") ∈ rows (ledger w)
         ∧ fetchesFor orderId (trace w)
             `sublist_of` [Fetch GA4 orderId; Fetch Meta orderId]).

(** Two filter objects taken together: a flag is set when it is set in
    one of them. *)
Definition bothFilters (f g : Filters) : Filters :=
  mkFilters (successful f || successful g) (failed f || failed g)
    (pending f || pending g) (inDelivery f || inDelivery g)
    (prepaid f || prepaid g) (unpaid f || unpaid g)
    (card f || card g) (cash f || cash g)
    (calories1200 f || calories1200 g) (calories1600 f || calories1600 g)
    (calories2000 f || calories2000 g) (calories2500 f || calories2500 g)
    (calories3000 f || calories3000 g)
    (singleItem f || singleItem g) (multiItem f || multiItem g).

(** Whether some status flag of a filter object is set. *)
Definition anyStatusFlag (f : Filters) : bool :=
  successful f || failed f || pending f || inDelivery f.

End RouteVocabulary.

(* ===================================================================== *)
(** * Properties *)
(* ===================================================================== *)

(** ** Rate limiter *)

Section RateLimiterFacts.
Import RateLimiter.

Implicit Types (store : gmap string RateLimitRecord) (config : RateLimitConfig).

Lemma inWindow_nil ws : inWindow ws [] = [].
Proof. reflexivity. Qed.

Lemma inWindow_cons ws t ts :
  inWindow ws (t :: ts) =
  if decide (ws < t) then t :: inWindow ws ts else inWindow ws ts.
Proof. unfold inWindow. by rewrite filter_cons. Qed.

Lemma inWindow_elem ws t ts : t ∈ inWindow ws ts ↔ ws < t ∧ t ∈ ts.
Proof. unfold inWindow. by rewrite list_elem_of_filter. Qed.

(** Pruning for a later window absorbs pruning for an earlier one. *)
Lemma inWindow_inWindow ws ws' ts :
  ws <= ws' → inWindow ws' (inWindow ws ts) = inWindow ws' ts.
Proof.
  intros Hle. induction ts as [|t ts IH]; [done|].
  rewrite !inWindow_cons.
  destruct (decide (ws < t)), (decide (ws' < t));
    rewrite ?inWindow_cons; repeat case_decide; try lia; by rewrite IH.
Qed.

(** Nothing is pruned when every timestamp is inside the window. *)
Lemma inWindow_all ws ts : (∀ t, t ∈ ts → ws < t) → inWindow ws ts = ts.
Proof.
  induction ts as [|t ts IH]; intros Hall; [done|].
  rewrite inWindow_cons. rewrite decide_True by (apply Hall; left).
  f_equal. apply IH. intros t' Ht'. apply Hall. by right.
Qed.

Lemma stored_insert store key r :
  stored (<[key := r]> store) key = requestTimestamps r.
Proof. unfold stored. by rewrite lookup_insert_eq. Qed.

(** A call that finds a record whose [resetTime] has not passed works on
    that record as it is. *)
Lemma currentRecord_live store key config now r :
  store !! key = Some r → now <= resetTime r →
  currentRecord store key config now = r.
Proof.
  intros Hr Hle. unfold currentRecord. rewrite Hr.
  destruct (Z.ltb_spec (resetTime r) now); [lia | done].
Qed.

(** A denied call under a positive limit found a live record. *)
Lemma denied_live identifier config now store :
  0 < maxRequests config →
  allowed (checkRateLimit identifier config now store).1 = false →
  ∃ r, store !! identifier = Some r ∧ now <= resetTime r.
Proof.
  intros Hmax. unfold checkRateLimit, currentRecord.
  destruct (store !! identifier) as [r|] eqn:Hr.
  - destruct (Z.ltb_spec (resetTime r) now) as [Hlt|Hge].
    + cbn [requestTimestamps]. rewrite inWindow_nil. cbn [length].
      destruct (Z.leb_spec (maxRequests config) (Z.of_nat 0)); [lia|done].
    + intros _. eauto.
  - cbn [requestTimestamps]. rewrite inWindow_nil. cbn [length].
    destruct (Z.leb_spec (maxRequests config) (Z.of_nat 0)); [lia|done].
Qed.

(** What a call does when it finds no record to re-create: the spec's
    algorithm on the stored timestamps. *)
Lemma checkRateLimit_live identifier config now store :
  (∀ r, store !! identifier = Some r → now <= resetTime r) →
  let survivors := inWindow (now - windowMs config) (stored store identifier) in
  let res := (checkRateLimit identifier config now store).1 in
  let after := stored (checkRateLimit identifier config now store).2 identifier in
  if maxRequests config <=? Z.of_nat (length survivors)
  then res = mkResult false 0 ((λ t0, t0 + windowMs config) <$> head survivors)
       ∧ after = survivors
  else allowed res = true
       ∧ remaining res = maxRequests config - Z.of_nat (length (survivors ++ [now]))
       ∧ after = survivors ++ [now].
Proof.
  intros Hlive. cbv zeta. unfold checkRateLimit, stored.
  assert (requestTimestamps (currentRecord store identifier config now)
          = match store !! identifier with
            | Some record => requestTimestamps record
            | None => []
            end) as ->.
  { unfold currentRecord. destruct (store !! identifier) as [r|] eqn:Hr; [|done].
    destruct (Z.ltb_spec (resetTime r) now); [|done].
    specialize (Hlive r eq_refl). lia. }
  destruct (_ <=? _); cbn [fst snd]; rewrite lookup_insert_eq; done.
Qed.

Lemma inWindow_length ws ts : (length (inWindow ws ts) <= length ts)%nat.
Proof. unfold inWindow. apply length_filter. Qed.

(** The stored list of a client never grows beyond the limit. *)
Lemma checkRateLimit_stored_bound identifier config now store :
  0 <= maxRequests config →
  Z.of_nat (length (stored store identifier)) <= maxRequests config →
  Z.of_nat (length (stored (checkRateLimit identifier config now store).2 identifier))
  <= maxRequests config.
Proof.
  intros Hmax Hbound. unfold checkRateLimit.
  set (record := currentRecord store identifier config now).
  assert (Z.of_nat (length (requestTimestamps record)) <= maxRequests config) as Hrec.
  { subst record. unfold currentRecord, stored in *.
    destruct (store !! identifier) as [r|]; [|cbn; lia].
    destruct (resetTime r <? now); [cbn; lia | done]. }
  pose proof (inWindow_length (now - windowMs config) (requestTimestamps record)).
  destruct (Z.leb_spec (maxRequests config)
              (Z.of_nat (length (inWindow (now - windowMs config)
                                   (requestTimestamps record)))));
    cbn [snd]; rewrite stored_insert; cbn [requestTimestamps].
  - lia.
  - rewrite length_app. cbn [length]. lia.
Qed.

(** The sweep is invisible to callers: it deletes only records that the
    next call would re-create anyway. *)
Lemma cleanup_unobservable identifier config sweptAt now store :
  sweptAt <= now →
  (checkRateLimit identifier config now (cleanup sweptAt store)).1
  = (checkRateLimit identifier config now store).1.
Proof.
  intros Hle. unfold checkRateLimit.
  assert (currentRecord (cleanup sweptAt store) identifier config now
          = currentRecord store identifier config now) as ->.
  { unfold currentRecord, cleanup. rewrite map_lookup_filter.
    destruct (store !! identifier) as [r|]; [|done]. cbn.
    case_guard as Hkeep; cbn; [done|].
    destruct (Z.ltb_spec (resetTime r) now); [done|].
    cbn in Hkeep. lia. }
  by destruct (_ <=? _).
Qed.
End RateLimiterFacts.

Section RateLimiterBurst.
Import RateLimiter.

(** Case analysis on membership in an explicit list. *)
Local Ltac elem_cases H :=
  repeat (apply elem_of_cons in H as [H|H]; [subst|]);
  try (by apply elem_of_nil in H).

Lemma run_app identifier config times1 times2 (store : gmap string RateLimitRecord) :
  run identifier config (times1 ++ times2) store =
  let '(log1, store1) := run identifier config times1 store in
  let '(log2, store2) := run identifier config times2 store1 in
  (log1 ++ log2, store2).
Proof.
  revert store. induction times1 as [|now rest IH]; intros store; cbn [run app].
  - by destruct (run _ _ times2 store).
  - destruct (checkRateLimit _ _ now store) as [res store1].
    rewrite IH. destruct (run _ _ rest store1) as [log1 s1].
    by destruct (run _ _ times2 s1).
Qed.

(** Calls that all fall inside one window and inside the record's
    lifetime are admitted while there is room, and each is recorded. *)
Lemma run_admits identifier config T times :
  ∀ (store : gmap string RateLimitRecord) r,
  store !! identifier = Some r →
  (∀ now, now ∈ times → now <= resetTime r ∧ now <= T) →
  (∀ t, t ∈ requestTimestamps r ++ times → T - windowMs config < t) →
  Z.of_nat (length (requestTimestamps r) + length times) <= maxRequests config →
  Forall (λ c, allowed c.2 = true) (run identifier config times store).1
  ∧ (run identifier config times store).1.*1 = times
  ∧ ∃ r', (run identifier config times store).2 !! identifier = Some r'
          ∧ resetTime r' = resetTime r
          ∧ requestTimestamps r' = requestTimestamps r ++ times.
Proof.
  induction times as [|now rest IH]; intros store r Hr Htimes Hstamps Hroom.
  - cbn. split; [constructor|]. split; [done|].
    exists r. by rewrite app_nil_r.
  - cbn [run].
    assert (now <= resetTime r ∧ now <= T) as [HnowR HnowT]
      by (apply Htimes; left).
    pose proof (checkRateLimit_live identifier config now store) as Hlive.
    cbv zeta in Hlive.
    assert (stored store identifier = requestTimestamps r) as Hst
      by (unfold stored; by rewrite Hr).
    rewrite Hst in Hlive.
    rewrite inWindow_all in Hlive; last first.
    { intros t Ht. assert (T - windowMs config < t); [|lia].
      apply Hstamps. apply elem_of_app. by left. }
    destruct (Z.leb_spec (maxRequests config)
                (Z.of_nat (length (requestTimestamps r)))) as [Hfull|_].
    { cbn [length] in Hroom. lia. }
    destruct Hlive as (Hallowed & _ & Hafter).
    { intros r0 Hr0. congruence. }
    unfold checkRateLimit in *.
    rewrite (currentRecord_live _ _ _ _ _ Hr HnowR) in *.
    rewrite inWindow_all in *
      by (intros t Ht; assert (T - windowMs config < t);
          [apply Hstamps, elem_of_app; by left | lia]).
    destruct (maxRequests config <=? _); [done|].
    set (r1 := mkRecord _ _ _). set (store1 := <[identifier:=r1]> store).
    destruct (IH store1 r1) as (Hall & Hfst & r' & Hr' & HR' & Hts').
    + apply lookup_insert_eq.
    + intros t Ht. apply Htimes. by right.
    + intros t Ht. apply Hstamps. subst r1. cbn in Ht.
      rewrite <- app_assoc in Ht. done.
    + subst r1. cbn [requestTimestamps]. rewrite length_app. cbn [length] in *. lia.
    + destruct (run identifier config rest store1) as [log store2].
      cbn [fst snd] in *. split; [constructor; [done|done]|].
      split; [cbn; by rewrite Hfst|].
      exists r'. split; [done|]. split; [done|].
      rewrite Hts'. subst r1. cbn. by rewrite <- app_assoc.
Qed.

(** The first call of a client creates its record. *)
Lemma checkRateLimit_fresh identifier config now (store : gmap string RateLimitRecord) :
  store !! identifier = None → 0 < maxRequests config →
  checkRateLimit identifier config now store =
  (mkResult true (maxRequests config - 1) (Some (now + windowMs config)),
   <[identifier := mkRecord 1 (now + windowMs config) [now]]> store).
Proof.
  intros Hnone Hmax. unfold checkRateLimit, currentRecord. rewrite Hnone.
  cbn [requestTimestamps resetTime count]. rewrite inWindow_nil.
  cbn [length app].
  destruct (Z.leb_spec (maxRequests config) (Z.of_nat 0)); [lia|done].
Qed.

(** The specification's scenario: on a fresh store with
    [maxRequests = 5], five calls inside one window are admitted and a
    sixth inside the same window is denied with the first call's
    timestamp plus the window length as reset time. *)
Lemma six_requests identifier W t1 t2 t3 t4 t5 t6 :
  t1 <= t2 → t2 <= t3 → t3 <= t4 → t4 <= t5 → t5 <= t6 → t6 < t1 + W →
  let log := (run identifier (mkConfig 5 W) [t1; t2; t3; t4; t5; t6] ∅).1 in
  map (λ c, allowed c.2) log = [true; true; true; true; true; false]
  ∧ (snd <$> last log) = Some (mkResult false 0 (Some (t1 + W))).
Proof.
  intros H12 H23 H34 H45 H56 H61.
  change [t1; t2; t3; t4; t5; t6] with ([t1] ++ [t2; t3; t4; t5] ++ [t6]).
  rewrite run_app. cbn [run].
  rewrite checkRateLimit_fresh by (done || (cbn; lia)).
  cbn [maxRequests windowMs].
  set (r1 := mkRecord 1 (t1 + W) [t1]). set (store1 := <[identifier:=r1]> ∅).
  rewrite run_app.
  destruct (run_admits identifier (mkConfig 5 W) t6 [t2; t3; t4; t5] store1 r1)
    as (Hall & Hfst & r' & Hr' & HR' & Hts').
  { apply lookup_insert_eq. }
  { intros now Hnow. subst r1. cbn. elem_cases Hnow; lia. }
  { intros t Ht. subst r1. cbn in Ht. cbn. elem_cases Ht; lia. }
  { subst r1. cbn. lia. }
  destruct (run identifier (mkConfig 5 W) [t2; t3; t4; t5] store1) as [log2 store2].
  cbn [fst snd run] in *.
  pose proof (checkRateLimit_live identifier (mkConfig 5 W) t6 store2) as Hlive.
  cbv zeta in Hlive.
  assert (stored store2 identifier = [t1; t2; t3; t4; t5]) as Hst.
  { unfold stored. rewrite Hr', Hts'. by subst r1. }
  rewrite Hst in Hlive.
  rewrite inWindow_all in Hlive by (intros t Ht; cbn; elem_cases Ht; lia).
  cbn in Hlive. destruct Hlive as [Hres _].
  { intros r0 Hr0. assert (r0 = r') as -> by congruence.
    rewrite HR'. subst r1. cbn. lia. }
  destruct (checkRateLimit identifier (mkConfig 5 W) t6 store2) as [res6 store3].
  cbn [fst snd] in *. subst res6.
  destruct log2 as [|c2 [|c3 [|c4 [|c5 [|]]]]]; try discriminate Hfst.
  apply Forall_cons in Hall as [H2 Hall].
  apply Forall_cons in Hall as [H3 Hall].
  apply Forall_cons in Hall as [H4 Hall].
  apply Forall_cons in Hall as [H5 _].
  cbn [app map fst snd]. rewrite H2, H3, H4, H5. done.
Qed.

End RateLimiterBurst.

(** C4.  The trailing-window bound does not hold on the code: with
    [maxRequests = 2] and [windowMs = 10], calls at 0, 5, 11 and 12 are all
    admitted, and three of them (5, 11, 12) lie in the trailing window
    (2, 12].  The call at 11 finds [resetTime = 10 < 11] and starts an
    empty record, forgetting the admitted call at 5. *)
Theorem checkRateLimit_window_overrun :
  let config := RateLimiter.mkConfig 2 10 in
  let log := (RateLimiter.run "client" config [0; 5; 11; 12] ∅).1 in
  map (λ c, RateLimiter.allowed c.2) log = [true; true; true; true]
  ∧ RateLimiter.admittedIn config 12 log = 3
  ∧ RateLimiter.maxRequests config < RateLimiter.admittedIn config 12 log.
Proof. vm_compute. repeat split. Qed.

(** C7.  The call at 11 on the record left by calls at 0 and 5
    ([maxRequests = 2], [windowMs = 10]): timestamp 5 is not older than
    [now - windowMs = 1], yet it does not survive; the record is replaced
    by an empty one, the new count is 1 and [remaining] is 1, and the
    following call at 12 is admitted although 5, 11 and 12 would all be in
    its window. *)
Theorem checkRateLimit_reset_forgets_window :
  let config := RateLimiter.mkConfig 2 10 in
  let store := (RateLimiter.run "client" config [0; 5] ∅).2 in
  let call11 := RateLimiter.checkRateLimit "client" config 11 store in
  let call12 := RateLimiter.checkRateLimit "client" config 12 (call11.2) in
  RateLimiter.stored store "client" = [0; 5]
  ∧ RateLimiter.inWindow (11 - RateLimiter.windowMs config)
       (RateLimiter.stored store "client") = [5]
  ∧ call11.1 = RateLimiter.mkResult true 1 (Some 21)
  ∧ RateLimiter.stored call11.2 "client" = [11]
  ∧ call12.1 = RateLimiter.mkResult true 0 (Some 21).
Proof. vm_compute. repeat split. Qed.

(** C10.  A denied call (under a positive limit) stores no timestamp: the
    client's list afterwards is the in-window part of the list before,
    other clients are untouched, and every later call gets the same
    answer and leaves the same store as if the denied call had never
    been made, so denied calls cannot move the reported reset time. *)
Theorem checkRateLimit_denied_frame identifier config now store :
  0 < RateLimiter.maxRequests config →
  RateLimiter.allowed (RateLimiter.checkRateLimit identifier config now store).1 = false →
  let store' := (RateLimiter.checkRateLimit identifier config now store).2 in
  RateLimiter.stored store' identifier
    = RateLimiter.inWindow (now - RateLimiter.windowMs config)
        (RateLimiter.stored store identifier)
  ∧ (∀ other, other ≠ identifier → store' !! other = store !! other)
  ∧ (∀ now', now <= now' →
       RateLimiter.checkRateLimit identifier config now' store'
       = RateLimiter.checkRateLimit identifier config now' store).
Proof.
  intros Hmax Hdenied.
  destruct (denied_live _ _ _ _ Hmax Hdenied) as (r & Hr & Hlive).
  revert Hdenied. cbv zeta. unfold RateLimiter.checkRateLimit.
  rewrite (currentRecord_live _ _ _ _ _ Hr Hlive).
  destruct (_ <=? _) eqn:Hfull; [intros _ | done]. cbn [fst snd].
  split; [|split].
  - rewrite stored_insert. unfold RateLimiter.stored. by rewrite Hr.
  - intros other Hne. by rewrite lookup_insert_ne.
  - intros now' Hle.
    unfold RateLimiter.currentRecord. rewrite lookup_insert_eq, Hr.
    cbn [RateLimiter.resetTime].
    destruct (RateLimiter.resetTime r <? now');
      cbn [RateLimiter.requestTimestamps RateLimiter.count RateLimiter.resetTime];
      rewrite ?inWindow_inWindow by lia;
      by rewrite !insert_insert_eq.
Qed.

(** ** Event dispatch ledger *)

Section LedgerFacts.
Context {S : Type} `{Delegate S}.

Lemma hasDispatched_resolves orderId eventName (s : S) :
  ∃ b, hasDispatched orderId eventName s = Resolved b.
Proof. unfold hasDispatched. destruct (findUnique _ s); eauto. Qed.

Lemma hasDispatched_read_failure orderId eventName (s : S) reason :
  findUnique (orderId, eventName) s = Rejected reason →
  hasDispatched orderId eventName s = Resolved false.
Proof. unfold hasDispatched. by intros ->. Qed.

Lemma markDispatched_resolves orderId eventName (s : S) :
  (markDispatched orderId eventName s).1 = Resolved tt.
Proof. unfold markDispatched. by destruct (create _ s) as [[?|?] ?]. Qed.

End LedgerFacts.

Lemma table_hasDispatched orderId eventName (t : Table) :
  hasDispatched orderId eventName t =
  Resolved (reachable t && bool_decide ((orderId, eventName) ∈ rows t)).
Proof.
  unfold hasDispatched. cbn. unfold tableFindUnique.
  destruct (reachable t); [|done]. cbn [andb].
  destruct (decide ((orderId, eventName) ∈ rows t)) as [Hin|Hout].
  - rewrite !(bool_decide_eq_true_2 (_ ∈ _)) by done.
    by rewrite bool_decide_eq_true_2 by eauto.
  - rewrite !(bool_decide_eq_false_2 (_ ∈ _)) by done.
    by rewrite bool_decide_eq_false_2 by (by intros [? ?]).
Qed.

Lemma table_markDispatched_duplicate orderId eventName (t : Table) :
  (orderId, eventName) ∈ rows t →
  create (orderId, eventName) t = (Rejected "Unique constraint failed", t)
  ∨ create (orderId, eventName) t = (Rejected "ledger unreachable", t).
Proof.
  intros Hin. cbn. unfold tableCreate. destruct (reachable t); [|by right].
  rewrite bool_decide_eq_true_2 by done. by left.
Qed.

(** C6.  Both ledger operations always resolve, whatever the delegate
    does: [hasDispatched] answers [false] when the read rejects, and
    [markDispatched] resolves when the insert rejects.  On the ledger
    table, an unreachable store reads as "not dispatched", and marking a
    key that is already present (the insert fails on the unique index)
    resolves and leaves the table as it was. *)
Theorem ledger_best_effort :
  (∀ (S : Type) (D : Delegate S) (orderId eventName : string) (s : S),
     (∃ b, hasDispatched orderId eventName s = Resolved b)
     ∧ (∀ reason, findUnique (orderId, eventName) s = Rejected reason →
          hasDispatched orderId eventName s = Resolved false)
     ∧ (markDispatched orderId eventName s).1 = Resolved tt)
  ∧ (∀ (t : Table) (orderId eventName : string),
       reachable t = false →
       hasDispatched orderId eventName t = Resolved false
       ∧ markDispatched orderId eventName t = (Resolved tt, t))
  ∧ (∀ (t : Table) (orderId eventName : string),
       (orderId, eventName) ∈ rows t →
       (∃ reason, create (orderId, eventName) t = (Rejected reason, t))
       ∧ markDispatched orderId eventName t = (Resolved tt, t)).
Proof.
  split; [|split].
  - intros S D orderId eventName s. split; [|split].
    + apply hasDispatched_resolves.
    + intros reason. apply hasDispatched_read_failure.
    + apply markDispatched_resolves.
  - intros t orderId eventName Hdown. split.
    + rewrite table_hasDispatched, Hdown. done.
    + unfold markDispatched. cbn. unfold tableCreate. by rewrite Hdown.
  - intros t orderId eventName Hin.
    destruct (table_markDispatched_duplicate _ _ _ Hin) as [Hc|Hc];
      (split; [eauto | unfold markDispatched; by rewrite Hc]).
Qed.

(** ** Order lifecycle *)

Section LifecycleFacts.
Import Lifecycle.

Lemma parseAction_name a : parseAction (actionName a) = Some a.
Proof. by destruct a. Qed.

Lemma findOrder_id orderId os o : findOrder orderId os = Some o → id o = orderId.
Proof.
  unfold findOrder. intros [_ Heq]%find_some. by apply String.eqb_eq.
Qed.

Lemma applyUpdate_id d o : id (applyUpdate d o) = id o.
Proof. reflexivity. Qed.

Lemma findOrder_update orderId d os o :
  findOrder orderId os = Some o →
  findOrder orderId (updateOrder orderId d os) = Some (applyUpdate d o).
Proof.
  unfold findOrder, updateOrder. induction os as [|x os IH]; [done|].
  cbn [List.find map]. destruct (String.eqb (id x) orderId) eqn:Hx.
  - intros [= ->]. by rewrite applyUpdate_id, Hx.
  - intros Hfind. rewrite Hx. by apply IH.
Qed.

(** The handler on a well-formed request for an existing order. *)
Lemma PATCH_found env now u orderId a w order :
  findOrder orderId (orders w) = Some order →
  PATCH env now (actionRequest u orderId a) w =
  match transition now u order a with
  | inl response => (response, w)
  | inr d =>
      (Success (applyUpdate d order),
       purchaseDispatch env (applyUpdate d order)
         (mkWorld (updateOrder orderId d (orders w)) (ledger w)
            (trace w ++ [AuditLog (userId u) (role u) (id order) a
                           (orderNumber order)
                           (orderStatus (applyUpdate d order))])))
  end.
Proof.
  intros Hfind. unfold PATCH, actionRequest. cbn [user body orderIdParam].
  rewrite parseAction_name, Hfind. by destruct (transition now u order a).
Qed.

(** Every state guard the handler has: the action is refused and nothing
    changes. *)
Lemma guarded_action_refused env now u orderId a w order expected :
  findOrder orderId (orders w) = Some order →
  role u = COURIER →
  (a = start_delivery ∧ expected = PENDING
   ∨ a = pause_delivery ∧ expected = IN_DELIVERY
   ∨ a = resume_delivery ∧ expected = PAUSED) →
  orderStatus order ≠ expected →
  PATCH env now (actionRequest u orderId a) w = (Failure INVALID_STATE 400, w).
Proof.
  intros Hfind Hrole Hcase Hstate. rewrite (PATCH_found _ _ _ _ _ _ _ Hfind).
  destruct Hcase as [[-> ->]|[[-> ->]|[-> ->]]]; cbn [transition];
    rewrite Hrole; rewrite bool_decide_eq_false_2 by (by intros ?);
    by rewrite bool_decide_eq_true_2.
Qed.

Lemma non_courier_refused env now u orderId a w order :
  findOrder orderId (orders w) = Some order →
  role u ≠ COURIER →
  PATCH env now (actionRequest u orderId a) w = (Failure FORBIDDEN 403, w).
Proof.
  intros Hfind Hrole. rewrite (PATCH_found _ _ _ _ _ _ _ Hfind).
  destruct a; cbn [transition]; by rewrite bool_decide_eq_true_2.
Qed.

(** [complete_delivery] has no state guard. *)
Lemma complete_delivery_any_state now u order :
  role u = COURIER →
  transition now u order complete_delivery =
  inr (mkUpdate (Some DELIVERED) None (Some now)).
Proof.
  intros Hrole. cbn [transition]. rewrite Hrole.
  by rewrite bool_decide_eq_false_2 by (by intros ?).
Qed.

End LifecycleFacts.

Section DispatchFacts.
Import Lifecycle.

Lemma externalCalls_app tr1 tr2 :
  externalCalls (tr1 ++ tr2) = externalCalls tr1 ++ externalCalls tr2.
Proof. unfold externalCalls. apply List.filter_app. Qed.

Lemma externalCalls_attempts env orderId :
  externalCalls (attempts env orderId) = attempts env orderId.
Proof.
  unfold attempts, dispatchPurchase.
  by destruct (configured env GA4), (configured env Meta).
Qed.

(** The calls of one dispatch are the ones the specification expects. *)
Lemma attempts_expected env orderId :
  attempts env orderId = expectedCalls env orderId.
Proof.
  unfold attempts, expectedCalls, dispatchPurchase.
  by destruct (configured env GA4), (configured env Meta).
Qed.


Lemma due_shouldDispatch o :
  due o →
  bool_decide (paymentStatus o = PAID) ||
  (bool_decide (orderStatus o = DELIVERED) && bool_decide (paymentMethod o = CASH))
  = true.
Proof.
  intros [Hp|[Hs Hm]].
  - by rewrite (bool_decide_eq_true_2 _ Hp).
  - rewrite (bool_decide_eq_true_2 _ Hs), (bool_decide_eq_true_2 _ Hm).
    by rewrite orb_true_r.
Qed.



Lemma purchaseDispatch_orders env o w :
  orders (purchaseDispatch env o w) = orders w.
Proof.
  unfold purchaseDispatch. destruct (_ || _); [|done].
  destruct (hasDispatched _ _ _) as [[|]|]; try done.
  destruct (dispatchPurchase env GA4 _), (dispatchPurchase env Meta _).
  by destruct (markDispatched _ _ _).
Qed.

End DispatchFacts.

(** C9.  For an existing order: [start_delivery] by a courier on a
    [DELIVERED] order (indeed on any order that is not [PENDING]) is
    refused with [INVALID_STATE] and changes nothing; on a [PENDING] order
    it succeeds, moves the stored order to [IN_DELIVERY] and records the
    calling courier; [complete_delivery] by anyone who is not a courier is
    refused with [FORBIDDEN] and changes nothing. *)
Theorem start_delivery_and_role_guards env now u orderId w order :
  Lifecycle.findOrder orderId (Lifecycle.orders w) = Some order →
  (Lifecycle.role u = COURIER → orderStatus order = DELIVERED →
     Lifecycle.PATCH env now (Lifecycle.actionRequest u orderId Lifecycle.start_delivery) w
     = (Lifecycle.Failure Lifecycle.INVALID_STATE 400, w))
  ∧ (Lifecycle.role u = COURIER → orderStatus order ≠ PENDING →
     Lifecycle.PATCH env now (Lifecycle.actionRequest u orderId Lifecycle.start_delivery) w
     = (Lifecycle.Failure Lifecycle.INVALID_STATE 400, w))
  ∧ (Lifecycle.role u = COURIER → orderStatus order = PENDING →
     ∃ order' w',
       Lifecycle.PATCH env now (Lifecycle.actionRequest u orderId Lifecycle.start_delivery) w
       = (Lifecycle.Success order', w')
       ∧ Lifecycle.findOrder orderId (Lifecycle.orders w') = Some order'
       ∧ orderStatus order' = IN_DELIVERY
       ∧ courierId order' = Some (Lifecycle.userId u))
  ∧ (Lifecycle.role u ≠ COURIER →
     Lifecycle.PATCH env now (Lifecycle.actionRequest u orderId Lifecycle.complete_delivery) w
     = (Lifecycle.Failure Lifecycle.FORBIDDEN 403, w)).
Proof.
  intros Hfind. split; [|split; [|split]].
  - intros Hrole Hstate.
    apply (guarded_action_refused _ _ _ _ _ _ order PENDING); auto.
    by rewrite Hstate.
  - intros Hrole Hstate.
    apply (guarded_action_refused _ _ _ _ _ _ order PENDING); auto.
  - intros Hrole Hstate. rewrite (PATCH_found _ _ _ _ _ _ _ Hfind).
    cbn [Lifecycle.transition]. rewrite Hrole, Hstate.
    rewrite bool_decide_eq_false_2 by (by intros ?).
    rewrite bool_decide_eq_false_2 by (by intros ?).
    eexists _, _. split; [reflexivity|]. split; [|done].
    rewrite purchaseDispatch_orders. cbn [Lifecycle.orders].
    by apply findOrder_update.
  - intros Hrole. by apply (non_courier_refused _ _ _ _ _ _ order).
Qed.

(** C3.  [complete_delivery] has no state guard: a courier completing an
    order that is [PENDING], [DELIVERED] or [FAILED] (any status at all)
    gets a success response, and the stored order becomes [DELIVERED] with
    its delivery time stamped. *)
Theorem complete_delivery_ignores_state :
  ∀ (env : Lifecycle.Env) (now : Z) (status : OrderStatus),
    let order :=
      mkOrder "order-1" 7 "customer-1" "admin-1" None "1 Main Street" None
        "12:30" 1 2000 "" UNPAID CARD false status None in
    let w := Lifecycle.mkWorld [order] (mkTable [] true) [] in
    let courier := Lifecycle.mkUser "courier-1" COURIER in
    let delivered :=
      mkOrder "order-1" 7 "customer-1" "admin-1" None "1 Main Street" None
        "12:30" 1 2000 "" UNPAID CARD false DELIVERED (Some now) in
    Lifecycle.PATCH env now
      (Lifecycle.actionRequest courier "order-1" Lifecycle.complete_delivery) w
    = (Lifecycle.Success delivered,
       Lifecycle.mkWorld [delivered] (mkTable [] true)
         [Lifecycle.AuditLog "courier-1" COURIER "order-1"
            Lifecycle.complete_delivery 7 DELIVERED]).
Proof. intros env now status. by destruct status. Qed.

Section JourneyFacts.
Import Lifecycle.


(** One step of a courier on an order whose state admits the action. *)
Lemma PATCH_courier env now u orderId a w order d :
  findOrder orderId (orders w) = Some order →
  transition now u order a = inr d →
  let order' := applyUpdate d order in
  let w1 := mkWorld (updateOrder orderId d (orders w)) (ledger w)
              (trace w ++ [AuditLog (userId u) (role u) orderId a
                             (orderNumber order) (orderStatus order')]) in
  PATCH env now (actionRequest u orderId a) w
  = (Success order', purchaseDispatch env order' w1)
  ∧ findOrder orderId (orders (purchaseDispatch env order' w1)) = Some order'.
Proof.
  intros Hfind Htr. cbv zeta. rewrite (PATCH_found _ _ _ _ _ _ _ Hfind), Htr.
  rewrite (findOrder_id _ _ _ Hfind). split; [done|].
  rewrite purchaseDispatch_orders. cbn [orders]. by apply findOrder_update.
Qed.

End JourneyFacts.


(** ** Scheduler *)

Section SchedulerFacts.
Import Scheduler.

Lemma msPerDay_pos : 0 < msPerDay.
Proof. reflexivity. Qed.

Lemma orderLoop_unfold o client dbClientId adminId' endDate currentDate acc :
  orderLoop o client dbClientId adminId' endDate currentDate acc =
  if decide (currentDate <= endDate)
  then orderLoop o client dbClientId adminId' endDate (addDays currentDate 1)
         (visitDate o client dbClientId adminId' currentDate acc)
  else acc.
Proof.
  simp orderLoop. destruct (decide (currentDate <= endDate)); by simp orderLoop.
Qed.

Lemma addDays_add date i j : addDays (addDays date i) j = addDays date (i + j).
Proof. unfold addDays. lia. Qed.

(** The [while] loop is a left fold of its body over [loopDates]. *)
Lemma orderLoop_dates o client dbClientId adminId' endDate :
  ∀ n currentDate acc,
    Z.to_nat ((endDate - currentDate) / msPerDay + 1) = n →
    orderLoop o client dbClientId adminId' endDate currentDate acc =
    foldl (λ a date, visitDate o client dbClientId adminId' date a) acc
      (loopDates currentDate endDate).
Proof.
  induction n as [|n IH]; intros currentDate acc Hn;
    rewrite orderLoop_unfold; unfold loopDates;
    destruct (decide (currentDate <= endDate)) as [Hle|Hgt]; try done.
  - assert (0 <= (endDate - currentDate) / msPerDay)
      by (apply Z.div_pos; [lia | apply msPerDay_pos]). lia.
  - rewrite Hn. cbn [seq fmap list_fmap foldl].
    replace (addDays currentDate (Z.of_nat 0)) with currentDate by (unfold addDays; lia).
    assert (Hdiv : (endDate - addDays currentDate 1) / msPerDay
                   = (endDate - currentDate) / msPerDay - 1).
    { unfold addDays.
      replace (endDate - (currentDate + 1 * msPerDay))
        with ((endDate - currentDate) + (-1) * msPerDay) by lia.
      rewrite Z.div_add by (pose proof msPerDay_pos; lia). lia. }
    assert (0 <= (endDate - currentDate) / msPerDay)
      by (apply Z.div_pos; [lia | apply msPerDay_pos]).
    rewrite (IH (addDays currentDate 1)) by lia.
    unfold loopDates.
    destruct (decide (addDays currentDate 1 <= endDate)) as [Hle'|Hgt'].
    + replace (Z.to_nat ((endDate - addDays currentDate 1) / msPerDay + 1))
        with n by lia.
      f_equal. rewrite <- seq_shift, <- list_fmap_compose.
      apply list_fmap_ext. intros _ i _. cbn.
      rewrite addDays_add. f_equal. lia.
    + assert (n = 0%nat) as ->; [|done].
      assert ((endDate - addDays currentDate 1) / msPerDay < 0); [|lia].
      apply Z.div_lt_upper_bound; [apply msPerDay_pos | lia].
Qed.

Lemma loopDates_30 today :
  loopDates today (addDays today 30)
  = (λ i, addDays today (Z.of_nat i)) <$> seq 0 31.
Proof.
  unfold loopDates. rewrite decide_True by (unfold addDays, msPerDay; lia).
  replace (addDays today 30 - today) with (30 * msPerDay) by (unfold addDays; lia).
  by rewrite Z.div_mul.
Qed.

Lemma getDay_range date : 0 <= getDay date < 7.
Proof. unfold getDay. apply Z.mod_pos_bound. lia. Qed.

Lemma dayFlag_everyDay date : dayFlag everyDay (getDayOfWeek date) = true.
Proof.
  unfold getDayOfWeek. pose proof (getDay_range date) as Hr.
  assert (Hcases : getDay date = 0 ∨ getDay date = 1 ∨ getDay date = 2
                   ∨ getDay date = 3 ∨ getDay date = 4 ∨ getDay date = 5
                   ∨ getDay date = 6) by lia.
  destruct Hcases as [->|[->|[->|[->|[->|[->| ->]]]]]]; reflexivity.
Qed.

Lemma dayFlag_noDay dayOfWeek : dayFlag noDay dayOfWeek = false.
Proof. unfold dayFlag. by repeat case_match. Qed.

Lemma findLastOrder_snoc os o :
  findLastOrder (os ++ [o]) =
  match findLastOrder os with
  | Some b => if orderNumber b <? orderNumber o then Some o else Some b
  | None => Some o
  end.
Proof. unfold findLastOrder. by rewrite foldl_app. Qed.

Lemma nextOrderNumber_snoc os o :
  orderNumber o = nextOrderNumber os →
  nextOrderNumber (os ++ [o]) = nextOrderNumber os + 1.
Proof.
  unfold nextOrderNumber. rewrite findLastOrder_snoc.
  destruct (findLastOrder os) as [b|]; intros Hn; [|by rewrite Hn].
  destruct (Z.ltb_spec (orderNumber b) (orderNumber o)); [by rewrite Hn | lia].
Qed.


(** *** A client with no delivery day *)

Lemma visitDate_noDay o client dbClientId adminId' date acc :
  deliveryDays client = noDay →
  visitDate o client dbClientId adminId' date acc = acc.
Proof.
  intros Hno. unfold visitDate. destruct acc as [created w].
  by rewrite Hno, dayFlag_noDay.
Qed.

Lemma createAutoOrders_noDay o client startDate endDate w :
  deliveryDays client = noDay →
  createAutoOrdersForClient o client startDate endDate w = ([], w).
Proof.
  intros Hno. unfold createAutoOrdersForClient.
  repeat case_match; try done.
  rewrite (orderLoop_dates _ _ _ _ _ _ _ _ eq_refl).
  generalize (loopDates startDate endDate). intros dates.
  induction dates as [|date dates IH]; [done|].
  cbn [foldl]. by rewrite visitDate_noDay.
Qed.

(** *** A client served every day *)

Lemma visitDate_everyDay o client dbClientId adminId' date created w :
  deliveryDays client = everyDay →
  orderQueriesResolve o (cd_id client) →
  let newOrders :=
    ordersFor o client dbClientId adminId' [date]
      (nextOrderNumber (orders w)) (length (orders w)) (draws w) in
  visitDate o client dbClientId adminId' date (created, w)
  = (created ++ newOrders,
     mkWorld (customers w) (admins w) (orders w ++ newOrders) (2 + draws w)).
Proof.
  intros Hall Hok. destruct (Hok date) as [Hfind Hcreate].
  cbv zeta. unfold visitDate.
  by rewrite Hall, dayFlag_everyDay, Hfind, Hcreate.
Qed.

Lemma ordersFor_length o client dbClientId adminId' dates number rowsBefore drawsBefore :
  length (ordersFor o client dbClientId adminId' dates number rowsBefore drawsBefore)
  = length dates.
Proof.
  revert number rowsBefore drawsBefore.
  induction dates as [|d ds IH]; intros; cbn; [done | by rewrite IH].
Qed.

Lemma foldl_visitDate_everyDay o client dbClientId adminId' :
  deliveryDays client = everyDay →
  orderQueriesResolve o (cd_id client) →
  ∀ dates created w,
    let newOrders :=
      ordersFor o client dbClientId adminId' dates
        (nextOrderNumber (orders w)) (length (orders w)) (draws w) in
    foldl (λ a date, visitDate o client dbClientId adminId' date a)
      (created, w) dates
    = (created ++ newOrders,
       mkWorld (customers w) (admins w) (orders w ++ newOrders)
         (2 * length dates + draws w)).
Proof.
  intros Hall Hok. induction dates as [|date dates IH]; intros created w.
  - cbn. rewrite !app_nil_r. by destruct w.
  - cbn [foldl]. rewrite (visitDate_everyDay _ _ _ _ _ _ _ Hall Hok).
    cbv zeta in IH |- *. rewrite IH.
    cbn [orders draws customers admins ordersFor].
    rewrite nextOrderNumber_snoc by done.
    rewrite length_app. cbn [length].
    replace (length (orders w) + 1)%nat with (S (length (orders w))) by lia.
    rewrite <- !app_assoc. cbn [app]. do 2 f_equal. cbn [length]. lia.
Qed.

(** What one call creates for a customer who is served every day, is in
    the customer table, and has a default administrator, when no query
    of the call rejects. *)
Lemma createAutoOrders_everyDay o client startDate endDate w dbClient defaultAdmin :
  deliveryDays client = everyDay →
  orderQueriesResolve o (cd_id client) →
  rejects o (CustomerFindUnique (cd_id client)) = false →
  rejects o (AdminFindFirst (cd_id client)) = false →
  List.find (λ c, String.eqb (c_id c) (cd_id client)) (customers w) = Some dbClient →
  List.find (λ a, bool_decide (a_role a = SUPER_ADMIN)) (admins w) = Some defaultAdmin →
  let newOrders :=
    ordersFor o client (c_id dbClient) (a_id defaultAdmin)
      (loopDates startDate endDate)
      (nextOrderNumber (orders w)) (length (orders w)) (draws w) in
  createAutoOrdersForClient o client startDate endDate w
  = (newOrders,
     mkWorld (customers w) (admins w) (orders w ++ newOrders)
       (2 * length (loopDates startDate endDate) + draws w)).
Proof.
  intros Hall Hok Hc Ha Hfc Hfa. cbv zeta. unfold createAutoOrdersForClient.
  rewrite Hc, Hfc, Ha, Hfa.
  rewrite (orderLoop_dates _ _ _ _ _ _ _ _ eq_refl).
  by rewrite (foldl_visitDate_everyDay _ _ _ _ Hall Hok).
Qed.

(** The orders written for a list of dates carry the scheduler's
    defaults and consecutive numbers. *)
Lemma ordersFor_defaults o client dbClientId adminId' dates number rowsBefore drawsBefore :
  Forall (λ x, orderStatus x = PENDING ∧ paymentStatus x = UNPAID
               ∧ paymentMethod x = CASH ∧ isPrepaid x = false
               ∧ customerId x = dbClientId)
    (ordersFor o client dbClientId adminId' dates number rowsBefore drawsBefore).
Proof.
  revert number rowsBefore drawsBefore.
  induction dates as [|d ds IH]; intros; cbn; constructor; [done | apply IH].
Qed.

Lemma ordersFor_numbers o client dbClientId adminId' dates number rowsBefore drawsBefore :
  orderNumber <$> ordersFor o client dbClientId adminId' dates number rowsBefore drawsBefore
  = (λ i, number + Z.of_nat i) <$> seq 0 (length dates).
Proof.
  revert number rowsBefore drawsBefore.
  induction dates as [|d ds IH]; intros; [done|].
  cbn [ordersFor fmap list_fmap length seq orderNumber]. f_equal; [lia|].
  change (list_fmap _ _ orderNumber ?l) with (orderNumber <$> l).
  rewrite IH, <- seq_shift, <- list_fmap_compose.
  apply list_fmap_ext. intros _ i _. cbn. lia.
Qed.

Lemma ordersFor_dates o client dbClientId adminId' dates number rowsBefore drawsBefore :
  deliveryDate <$> ordersFor o client dbClientId adminId' dates number rowsBefore drawsBefore
  = Some <$> dates.
Proof.
  revert number rowsBefore drawsBefore.
  induction dates as [|d ds IH]; intros; [done|].
  cbn [ordersFor fmap list_fmap deliveryDate]. f_equal. apply IH.
Qed.

End SchedulerFacts.

Section SchedulerRunFacts.
Import Scheduler.

Lemma has30DaysPassed_spec now date :
  has30DaysPassed now date = true ↔ 30 * msPerDay <= now - date.
Proof.
  unfold has30DaysPassed. rewrite Z.leb_le. unfold msPerDay.
  pose proof (Z.div_mod (now - date) (1000 * 60 * 60 * 24)).
  pose proof (Z.mod_pos_bound (now - date) (1000 * 60 * 60 * 24)).
  lia.
Qed.

Lemma isEligible_spec now c :
  isEligible now c = true ↔
  30 * msPerDay <= now - c_createdAt c ∨ 30 * msPerDay <= now - lastCheckOf c.
Proof.
  unfold isEligible, lastCheckOf. rewrite orb_true_iff, !has30DaysPassed_spec.
  by destruct (c_updatedAt c).
Qed.

Lemma eligibleClients_elem today w c :
  c ∈ eligibleClients today w ↔
  c ∈ customers w ∧ c_isActive c = true ∧ isEligible today c = true.
Proof.
  unfold eligibleClients. rewrite !list_elem_of_In, !filter_In. tauto.
Qed.

Lemma visitDate_customers o client dbClientId adminId' date acc :
  customers (visitDate o client dbClientId adminId' date acc).2 = customers acc.2.
Proof. unfold visitDate. destruct acc as [created w]. by repeat case_match. Qed.

Lemma foldl_visitDate_customers o client dbClientId adminId' dates acc :
  customers
    (foldl (λ a date, visitDate o client dbClientId adminId' date a) acc dates).2
  = customers acc.2.
Proof.
  revert acc. induction dates as [|date dates IH]; intros acc; [done|].
  cbn [foldl]. by rewrite IH, visitDate_customers.
Qed.

Lemma createAutoOrders_customers o client startDate endDate w :
  customers (createAutoOrdersForClient o client startDate endDate w).2 = customers w.
Proof.
  unfold createAutoOrdersForClient. repeat case_match; try done.
  rewrite (orderLoop_dates _ _ _ _ _ _ _ _ eq_refl).
  by rewrite foldl_visitDate_customers.
Qed.

(** What processing one customer does to the report and to the customer
    table, whatever the oracle answers. *)
Lemma processClient_effect o today report w c :
  ∃ created,
    (processClient o today (report, w) c).1 = report ++ [(c_id c, created)]
    ∧ customers (processClient o today (report, w) c).2
      = (λ row, if String.eqb (c_id row) (c_id c)
                   && negb (rejects o (CustomerUpdate (c_id c)))
                then checkedAt today row else row) <$> customers w.
Proof.
  unfold processClient.
  pose proof (createAutoOrders_customers o (toClientData c) today
                (addDays today 30) w) as Hcust.
  destruct (createAutoOrdersForClient _ _ _ _ w) as [created w1].
  cbn [fst snd] in *. exists created. split; [done|].
  unfold updateClientLastCheck.
  destruct (rejects o (CustomerUpdate (c_id c))); cbn [customers negb].
  - rewrite Hcust. rewrite <- (list_fmap_id (customers w)) at 1.
    apply list_fmap_ext. intros _ row _. by rewrite andb_false_r.
  - rewrite Hcust. apply list_fmap_ext. intros _ row _. cbn.
    by rewrite andb_true_r.
Qed.

Lemma checkedAt_id today row : c_id (checkedAt today row) = c_id row.
Proof. reflexivity. Qed.

Lemma checkedAt_idem today row :
  checkedAt today (checkedAt today row) = checkedAt today row.
Proof. reflexivity. Qed.

(** The whole [for] loop: one report line per customer in the list, in
    order, and a last-check stamp on every row whose update went
    through. *)
Lemma foldl_processClient o today :
  ∀ clients report w,
    (foldl (processClient o today) (report, w) clients).1.*1
    = report.*1 ++ (c_id <$> clients)
    ∧ customers (foldl (processClient o today) (report, w) clients).2
      = (λ row, if touched o clients (c_id row)
                then checkedAt today row else row) <$> customers w.
Proof.
  induction clients as [|c clients IH]; intros report w.
  - cbn. rewrite app_nil_r. split; [done|]. by rewrite list_fmap_id.
  - cbn [foldl].
    destruct (processClient_effect o today report w c) as (created & Hrep & Hcust).
    destruct (processClient o today (report, w) c) as [report1 w1].
    cbn [fst snd] in *. subst report1.
    destruct (IH (report ++ [(c_id c, created)]) w1) as [IH1 IH2].
    split.
    + rewrite IH1, fmap_app. cbn. by rewrite <- app_assoc.
    + rewrite IH2, Hcust, <- list_fmap_compose.
      apply list_fmap_ext. intros _ row _. cbn [compose touched existsb].
      destruct (String.eqb (c_id row) (c_id c)) eqn:Hrow.
      * apply String.eqb_eq in Hrow. rewrite Hrow, String.eqb_refl.
        destruct (rejects o (CustomerUpdate (c_id c))); cbn [negb andb orb].
        -- by rewrite Hrow.
        -- rewrite checkedAt_id, Hrow. by destruct (touched o clients (c_id c)).
      * rewrite String.eqb_sym, Hrow. cbn [andb orb]. done.
Qed.

End SchedulerRunFacts.

(** A customer with the "daily" pattern, present in the customer table,
    with a default administrator and no rejecting query: one pass over
    the customer writes one order for each of the 31 dates from [today]
    to [today] plus 30 days, both included. *)
Lemma processClient_daily o today report w c dbClient defaultAdmin :
  Scheduler.c_orderPattern c = Some "daily" →
  Scheduler.orderQueriesResolve o (Scheduler.c_id c) →
  Scheduler.rejects o (Scheduler.CustomerFindUnique (Scheduler.c_id c)) = false →
  Scheduler.rejects o (Scheduler.AdminFindFirst (Scheduler.c_id c)) = false →
  List.find (λ x, String.eqb (Scheduler.c_id x) (Scheduler.c_id c))
    (Scheduler.customers w) = Some dbClient →
  List.find (λ a, bool_decide (Scheduler.a_role a = SUPER_ADMIN))
    (Scheduler.admins w) = Some defaultAdmin →
  ∃ created,
    (Scheduler.processClient o today (report, w) c).1
    = report ++ [(Scheduler.c_id c, created)]
    ∧ length created = 31%nat
    ∧ orderNumber <$> created
      = (λ i, Scheduler.nextOrderNumber (Scheduler.orders w) + Z.of_nat i) <$> seq 0 31
    ∧ deliveryDate <$> created
      = (λ i, Some (Scheduler.addDays today (Z.of_nat i))) <$> seq 0 31
    ∧ Forall (λ x, orderStatus x = PENDING ∧ paymentStatus x = UNPAID
                   ∧ paymentMethod x = CASH ∧ isPrepaid x = false
                   ∧ customerId x = Scheduler.c_id dbClient) created.
Proof.
  intros Hpat Hok Hc Ha Hfc Hfa. unfold Scheduler.processClient.
  assert (Hdays : Scheduler.deliveryDays (Scheduler.toClientData c) = Scheduler.everyDay).
  { cbn. by rewrite Hpat. }
  rewrite (createAutoOrders_everyDay o (Scheduler.toClientData c) today
             (Scheduler.addDays today 30) w dbClient defaultAdmin Hdays Hok Hc Ha Hfc Hfa).
  eexists. split; [reflexivity|].
  rewrite ordersFor_length, ordersFor_numbers, ordersFor_dates, loopDates_30.
  rewrite length_fmap, length_seq, <- list_fmap_compose.
  repeat split; try done. apply ordersFor_defaults.
Qed.

Section SchedulerIsolation.
Import Scheduler.

Lemma visitDate_admins o client dbClientId adminId' date acc :
  admins (visitDate o client dbClientId adminId' date acc).2 = admins acc.2.
Proof. unfold visitDate. destruct acc as [created w]. by repeat case_match. Qed.

Lemma createAutoOrders_admins o client startDate endDate w :
  admins (createAutoOrdersForClient o client startDate endDate w).2 = admins w.
Proof.
  unfold createAutoOrdersForClient. repeat case_match; try done.
  rewrite (orderLoop_dates _ _ _ _ _ _ _ _ eq_refl).
  generalize (loopDates startDate endDate). intros dates.
  change (admins w) with (admins (@nil Order, w).2).
  generalize (@nil Order, w). induction dates as [|date dates IH]; intros acc; [done|].
  cbn [foldl]. by rewrite IH, visitDate_admins.
Qed.

Lemma processClient_admins o today report w c :
  admins (processClient o today (report, w) c).2 = admins w.
Proof.
  unfold processClient.
  pose proof (createAutoOrders_admins o (toClientData c) today (addDays today 30) w).
  destruct (createAutoOrdersForClient _ _ _ _ w) as [created w1].
  cbn [snd] in *. unfold updateClientLastCheck. by case_match.
Qed.

(** The loop only ever appends to the report and keeps the
    administrators. *)
Lemma foldl_processClient_grows o today :
  ∀ clients report w,
    (∃ more, (foldl (processClient o today) (report, w) clients).1 = report ++ more)
    ∧ admins (foldl (processClient o today) (report, w) clients).2 = admins w.
Proof.
  induction clients as [|c clients IH]; intros report w.
  - cbn. split; [exists []; by rewrite app_nil_r | done].
  - cbn [foldl].
    destruct (processClient_effect o today report w c) as (created & Hrep & _).
    pose proof (processClient_admins o today report w c) as Hadm.
    destruct (processClient o today (report, w) c) as [report1 w1].
    cbn [fst snd] in *. subst report1.
    destruct (IH (report ++ [(c_id c, created)]) w1) as [[more Hmore] Hadm'].
    split; [|congruence].
    exists ((c_id c, created) :: more). rewrite Hmore. by rewrite <- app_assoc.
Qed.

Lemma find_by_id_fmap (g : Customer → Customer) clientId rows :
  (∀ row, c_id (g row) = c_id row) →
  List.find (λ c, String.eqb (c_id c) clientId) (g <$> rows)
  = g <$> List.find (λ c, String.eqb (c_id c) clientId) rows.
Proof.
  intros Hg. induction rows as [|row rows IH]; [done|].
  cbn [fmap list_fmap List.find]. rewrite Hg.
  destruct (String.eqb (c_id row) clientId); [done|]. apply IH.
Qed.

Lemma find_is_Some {A} (f : A → bool) (l : list A) x :
  x ∈ l → f x = true → is_Some (List.find f l).
Proof.
  intros Hin Hf. destruct (List.find f l) eqn:Hfind; [eauto|].
  apply list_elem_of_In in Hin.
  pose proof (find_none f l Hfind x Hin). congruence.
Qed.

(** Isolation: an eligible "daily" customer whose own queries resolve
    gets its 31 orders, whatever rejects for the customers processed
    before or after it. *)
Lemma run_serves_daily_customer o today w c :
  rejects o CustomerFindMany = false →
  c ∈ eligibleClients today w →
  c_orderPattern c = Some "daily" →
  orderQueriesResolve o (c_id c) →
  rejects o (CustomerFindUnique (c_id c)) = false →
  rejects o (AdminFindFirst (c_id c)) = false →
  (∃ a, a ∈ admins w ∧ a_role a = SUPER_ADMIN) →
  ∃ created,
    (c_id c, created) ∈ (runAutoOrderScheduler o today w).1
    ∧ length created = 31%nat
    ∧ Forall (λ x, orderStatus x = PENDING) created.
Proof.
  intros Hmany Hel Hpat Hok Hfu Hfa (a & Ha & Hrole).
  unfold runAutoOrderScheduler. rewrite Hmany.
  pose proof Hel as Hc. apply eligibleClients_elem in Hc as (Hc & _ & _).
  apply list_elem_of_split in Hel as (before & after & ->).
  rewrite foldl_app. cbn [foldl].
  destruct (foldl_processClient o today before [] w) as [_ Hcust].
  destruct (foldl_processClient_grows o today before [] w) as [_ Hadm].
  destruct (foldl (processClient o today) ([], w) before) as [report1 w1].
  cbn [fst snd] in *.
  destruct (find_is_Some (λ x, String.eqb (c_id x) (c_id c)) (customers w) c Hc
              (String.eqb_refl _)) as [dbClient0 Hfind0].
  destruct (find_is_Some (λ x, bool_decide (a_role x = SUPER_ADMIN)) (admins w) a Ha
              (bool_decide_eq_true_2 _ Hrole)) as [defaultAdmin Hfind1].
  assert (∃ dbClient,
            List.find (λ x, String.eqb (c_id x) (c_id c)) (customers w1)
            = Some dbClient) as [dbClient Hfind].
  { rewrite Hcust, find_by_id_fmap, Hfind0 by (intros row; by case_match).
    eauto. }
  rewrite <- Hadm in Hfind1.
  destruct (processClient_daily o today report1 w1 c dbClient defaultAdmin
              Hpat Hok Hfu Hfa Hfind Hfind1)
    as (created & Hrep & Hlen & _ & _ & Hdef).
  exists created.
  destruct (processClient o today (report1, w1) c) as [report2 w2].
  cbn [fst] in Hrep. subst report2.
  destruct (foldl_processClient_grows o today after
              (report1 ++ [(c_id c, created)]) w2) as [[more ->] _].
  split; [|split; [done|]].
  - rewrite !elem_of_app. left. right. by left.
  - eapply Forall_impl; [exact Hdef|]. by intros x (? & _).
Qed.

End SchedulerIsolation.

(** C1.  A customer with pattern "daily", created 31 days before the run
    and never checked, with orders up to number 41 already in the table:
    one scheduler run writes 31 orders for it, not 30, one for each date
    from today to today plus 30 days inclusive, numbered 42 to 72, all
    [PENDING], [UNPAID], [CASH] and not prepaid. *)
Theorem daily_run_creates_31_orders :
  let today := 20000 * Scheduler.msPerDay + 36000000 in
  let customer :=
    Scheduler.mkCustomer "customer-1" "Ann" "+998901234567" "1 Main Street"
      None (Some "daily") true (today - 31 * Scheduler.msPerDay) None in
  let existing :=
    mkOrder "order-41" 41 "customer-0" "admin-1" None "2 Side Street" None
      "12:00" 1 2000 "" PAID CARD false DELIVERED None in
  let w :=
    Scheduler.mkWorld [customer] [Scheduler.mkAdmin "admin-1" SUPER_ADMIN]
      [existing] 0 in
  let o := Scheduler.mkOracle (λ _, false) (λ k, k) (λ n, "generated") in
  let created := (Scheduler.runAutoOrderScheduler o today w).1 in
  ∃ newOrders,
    created = [("customer-1", newOrders)]
    ∧ length newOrders = 31%nat
    ∧ orderNumber <$> newOrders = (λ i, 42 + Z.of_nat i) <$> seq 0 31
    ∧ deliveryDate <$> newOrders
      = (λ i, Some (Scheduler.addDays today (Z.of_nat i))) <$> seq 0 31
    ∧ Forall (λ x, orderStatus x = PENDING ∧ paymentStatus x = UNPAID
                   ∧ paymentMethod x = CASH ∧ isPrepaid x = false) newOrders.
Proof.
  eexists. split; [vm_compute; reflexivity|].
  split; [reflexivity|]. split; [vm_compute; reflexivity|].
  split; [vm_compute; reflexivity|]. repeat constructor.
Qed.

(** C2.  Pattern resolution in the scheduler: "daily" selects all seven
    days and an unset pattern none, but "every_other_day_even" and
    "every_other_day_odd" select no day either, so a customer with
    pattern "every_other_day_even" gets no order at all from a run,
    whatever the date, the database content and the oracle. *)
Theorem alternate_day_patterns_select_no_day :
  Scheduler.resolveDeliveryDays (Some "daily") = Scheduler.everyDay
  ∧ Scheduler.resolveDeliveryDays None = Scheduler.noDay
  ∧ Scheduler.resolveDeliveryDays (Some "every_other_day_even") = Scheduler.noDay
  ∧ Scheduler.resolveDeliveryDays (Some "every_other_day_odd") = Scheduler.noDay
  ∧ ∀ o today w name phone address preferences createdAt updatedAt,
      let customer :=
        Scheduler.mkCustomer "customer-1" name phone address preferences
          (Some "every_other_day_even") true createdAt updatedAt in
      (Scheduler.processClient o today ([], w) customer).1
      = [("customer-1", [])]
      ∧ Scheduler.orders (Scheduler.processClient o today ([], w) customer).2
        = Scheduler.orders w
      ∧ length (Scheduler.loopDates today (Scheduler.addDays today 30)) = 31%nat.
Proof.
  repeat split; try reflexivity.
  - unfold Scheduler.processClient.
    by rewrite createAutoOrders_noDay by reflexivity.
  - unfold Scheduler.processClient.
    rewrite createAutoOrders_noDay by reflexivity.
    unfold Scheduler.updateClientLastCheck. by case_match.
  - by rewrite loopDates_30.
Qed.

(** C8.  When the customer query of a run resolves: an active customer is
    taken up exactly if 30 days have passed since its creation or since
    its last check (its creation when it was never checked); every
    customer taken up gets its line in the report, whichever queries
    reject along the way; each of them whose update is not rejected
    carries the run time as last check afterwards; and a "daily" customer
    whose own queries resolve gets its orders whatever rejects for the
    customers processed before or after it.  The stamp re-arms the
    last-check condition only: a row the run has stamped is eligible at a
    later time exactly if 30 days have passed since its creation or since
    the stamp, so a customer taken up for its creation age is still
    eligible at every later time, stamped or not. *)
Theorem scheduler_eligibility_and_isolation o today w :
  Scheduler.rejects o Scheduler.CustomerFindMany = false →
  let result := Scheduler.runAutoOrderScheduler o today w in
  (∀ c, c ∈ Scheduler.customers w → Scheduler.c_isActive c = true →
     (c ∈ Scheduler.eligibleClients today w ↔
      30 * Scheduler.msPerDay <= today - Scheduler.c_createdAt c
      ∨ 30 * Scheduler.msPerDay <= today - Scheduler.lastCheckOf c))
  ∧ result.1.*1 = Scheduler.c_id <$> Scheduler.eligibleClients today w
  ∧ (∀ row, row ∈ Scheduler.customers result.2 →
       (∃ c, c ∈ Scheduler.eligibleClients today w
             ∧ Scheduler.c_id c = Scheduler.c_id row
             ∧ Scheduler.rejects o (Scheduler.CustomerUpdate (Scheduler.c_id c)) = false) →
       Scheduler.c_updatedAt row = Some today)
  ∧ (∀ row later, row ∈ Scheduler.customers result.2 →
       Scheduler.c_updatedAt row = Some today →
       (Scheduler.isEligible later row = true ↔
        30 * Scheduler.msPerDay <= later - Scheduler.c_createdAt row
        ∨ 30 * Scheduler.msPerDay <= later - today))
  ∧ (∀ c later, c ∈ Scheduler.eligibleClients today w →
       30 * Scheduler.msPerDay <= today - Scheduler.c_createdAt c →
       today <= later →
       ∃ row, Scheduler.c_id row = Scheduler.c_id c
              ∧ row ∈ Scheduler.eligibleClients later result.2)
  ∧ (∀ c, c ∈ Scheduler.eligibleClients today w →
       Scheduler.c_orderPattern c = Some "daily" →
       Scheduler.orderQueriesResolve o (Scheduler.c_id c) →
       Scheduler.rejects o (Scheduler.CustomerFindUnique (Scheduler.c_id c)) = false →
       Scheduler.rejects o (Scheduler.AdminFindFirst (Scheduler.c_id c)) = false →
       (∃ a, a ∈ Scheduler.admins w ∧ Scheduler.a_role a = SUPER_ADMIN) →
       ∃ created,
         (Scheduler.c_id c, created) ∈ result.1
         ∧ length created = 31%nat
         ∧ Forall (λ x, orderStatus x = PENDING) created).
Proof.
  intros Hmany. cbv zeta.
  assert (Hrun : Scheduler.runAutoOrderScheduler o today w
                 = foldl (Scheduler.processClient o today) ([], w)
                     (Scheduler.eligibleClients today w))
    by (unfold Scheduler.runAutoOrderScheduler; by rewrite Hmany).
  destruct (foldl_processClient o today (Scheduler.eligibleClients today w) [] w)
    as [Hreport Hcust].
  split; [|split; [|split; [|split; [|split]]]].
  - intros c Hin Hact. rewrite eligibleClients_elem, isEligible_spec. tauto.
  - by rewrite Hrun, Hreport.
  - intros row Hrow (c & Hc & Hid & Hupd). rewrite Hrun, Hcust in Hrow.
    apply list_elem_of_fmap in Hrow as (row0 & -> & _).
    assert (Hid0 : Scheduler.c_id c = Scheduler.c_id row0)
      by (rewrite Hid; by case_match).
    assert (Scheduler.touched o (Scheduler.eligibleClients today w)
              (Scheduler.c_id row0) = true) as ->; [|done].
    unfold Scheduler.touched. apply existsb_exists. exists c.
    split; [by apply list_elem_of_In|].
    by rewrite <- Hid0, String.eqb_refl, Hupd.
  - intros row later _ Hstamp. rewrite isEligible_spec.
    unfold Scheduler.lastCheckOf. by rewrite Hstamp.
  - intros c later Hc Hage Hlater.
    apply eligibleClients_elem in Hc as (Hin & Hactive & _).
    set (row := if Scheduler.touched o (Scheduler.eligibleClients today w)
                     (Scheduler.c_id c)
                then Scheduler.checkedAt today c else c).
    assert (Scheduler.c_id row = Scheduler.c_id c
            ∧ Scheduler.c_isActive row = Scheduler.c_isActive c
            ∧ Scheduler.c_createdAt row = Scheduler.c_createdAt c)
      as (Hid & Hact & Hcreated)
      by (unfold row; by destruct (Scheduler.touched _ _ _)).
    exists row. split; [done|].
    apply eligibleClients_elem. split; [|split].
    + rewrite Hrun, Hcust. apply list_elem_of_fmap. by exists c.
    + by rewrite Hact.
    + apply isEligible_spec. left. rewrite Hcreated. lia.
  - intros c Hc Hpat Hok Hfu Hfa Hadmin.
    by apply run_serves_daily_customer.
Qed.

(** The stamp of a run does not keep a customer out of the next one.  A
    "daily" customer created 31 days ago is served and stamped by a run;
    one millisecond later 30 days have not passed since the stamp, yet the
    customer is eligible, and a second run adds 31 orders to the 31 of the
    first. *)
Lemma stamped_customer_is_served_again :
  let today := 20000 * Scheduler.msPerDay + 36000000 in
  let customer :=
    Scheduler.mkCustomer "customer-1" "Ann" "+998901234567" "1 Main Street"
      None (Some "daily") true (today - 31 * Scheduler.msPerDay) None in
  let w :=
    Scheduler.mkWorld [customer] [Scheduler.mkAdmin "admin-1" SUPER_ADMIN] [] 0 in
  let o := Scheduler.mkOracle (λ _, false) (λ k, k) (λ n, "generated") in
  let first := Scheduler.runAutoOrderScheduler o today w in
  let later := today + 1 in
  let second := Scheduler.runAutoOrderScheduler o later (first.2) in
  (λ line, (line.1, length line.2)) <$> first.1 = [("customer-1", 31%nat)]
  ∧ Scheduler.c_updatedAt <$> Scheduler.customers first.2 = [Some today]
  ∧ Scheduler.has30DaysPassed later today = false
  ∧ Scheduler.c_id <$> Scheduler.eligibleClients later (first.2) = ["customer-1"]
  ∧ (λ line, (line.1, length line.2)) <$> second.1 = [("customer-1", 31%nat)]
  ∧ length (Scheduler.orders second.2) = 62%nat.
Proof. vm_compute. repeat split; reflexivity. Qed.

(** Creation age alone keeps a customer eligible: once 30 days have passed
    since its creation, a fresh last-check stamp does not take it out of
    the next runs. *)
Lemma creation_age_keeps_eligible now now' c :
  30 * Scheduler.msPerDay <= now - Scheduler.c_createdAt c →
  now <= now' →
  Scheduler.isEligible now' (Scheduler.checkedAt now c) = true.
Proof.
  intros Hage Hle. apply isEligible_spec. left. cbn. lia.
Qed.

(** Two customers due at the same run; every query made for the first one
    rejects.  The first gets an empty report line and no stamp, the second
    still gets its 31 orders and its stamp. *)
Example failing_customer_is_isolated :
  let today := 20000 * Scheduler.msPerDay in
  let first :=
    Scheduler.mkCustomer "customer-1" "Ann" "+998901234567" "1 Main Street"
      None (Some "daily") true 0 None in
  let second :=
    Scheduler.mkCustomer "customer-2" "Bob" "+998907654321" "2 Side Street"
      None (Some "daily") true 0 (Some 86400000) in
  let w :=
    Scheduler.mkWorld [first; second] [Scheduler.mkAdmin "admin-1" SUPER_ADMIN] [] 0 in
  let failsForFirst q :=
    match q with
    | Scheduler.CustomerFindUnique c | Scheduler.AdminFindFirst c
    | Scheduler.CustomerUpdate c => String.eqb c "customer-1"
    | Scheduler.OrderFindFirst c _ | Scheduler.OrderCreate c _ =>
        String.eqb c "customer-1"
    | Scheduler.CustomerFindMany => false
    end in
  let o := Scheduler.mkOracle failsForFirst (λ k, k) (λ n, "generated") in
  let result := Scheduler.runAutoOrderScheduler o today w in
  (λ line, (line.1, length line.2)) <$> result.1
  = [("customer-1", 0%nat); ("customer-2", 31%nat)]
  ∧ Scheduler.c_updatedAt <$> Scheduler.customers result.2
    = [None; Some today].
Proof. vm_compute. split; reflexivity. Qed.

(** *** Instances *)

(** With a limit of 0 the denied call can follow the reset of an expired
    record: the timestamp 3 lies inside the window (-4, 6] and is gone
    after the call. *)
Lemma checkRateLimit_denied_zero_limit :
  let config := RateLimiter.mkConfig 0 10 in
  let store : gmap string RateLimiter.RateLimitRecord :=
    {[ "client" := RateLimiter.mkRecord 1 5 [3] ]} in
  let call := RateLimiter.checkRateLimit "client" config 6 store in
  RateLimiter.allowed call.1 = false
  ∧ RateLimiter.inWindow (6 - RateLimiter.windowMs config)
      (RateLimiter.stored store "client") = [3]
  ∧ RateLimiter.stored call.2 "client" = [].
Proof. by vm_compute. Qed.

(** A second call 5 ms after the only admitted one, limit 1. *)
Lemma checkRateLimit_denied_frame_witness :
  let config := RateLimiter.mkConfig 1 10 in
  let store := (RateLimiter.run "client" config [0] ∅).2 in
  let store' := (RateLimiter.checkRateLimit "client" config 5 store).2 in
  0 < RateLimiter.maxRequests config
  ∧ RateLimiter.allowed (RateLimiter.checkRateLimit "client" config 5 store).1 = false
  ∧ RateLimiter.stored store' "client"
    = RateLimiter.inWindow (5 - RateLimiter.windowMs config)
        (RateLimiter.stored store "client")
  ∧ (∀ other, other ≠ "client" → store' !! other = store !! other)
  ∧ (∀ now', 5 <= now' →
       RateLimiter.checkRateLimit "client" config now' store'
       = RateLimiter.checkRateLimit "client" config now' store).
Proof.
  intros config store store'.
  assert (Hmax : 0 < RateLimiter.maxRequests config) by reflexivity.
  assert (Hdenied :
    RateLimiter.allowed (RateLimiter.checkRateLimit "client" config 5 store).1 = false)
    by (vm_compute; reflexivity).
  split; [exact Hmax|]. split; [exact Hdenied|].
  exact (checkRateLimit_denied_frame "client" config 5 store Hmax Hdenied).
Defined.

(** A delivered order, a courier and a low administrator. *)
Lemma start_delivery_and_role_guards_witness :
  let delivered :=
    mkOrder "order-1" 7 "customer-1" "admin-1" (Some "courier-1")
      "1 Main Street" None "12:30" 1 2000 "" UNPAID CASH false DELIVERED (Some 50) in
  let w := Lifecycle.mkWorld [delivered] (mkTable [] true) [] in
  let env := Lifecycle.mkEnv (λ _, true) (λ _, false) in
  let courier := Lifecycle.mkUser "courier-1" COURIER in
  let admin := Lifecycle.mkUser "admin-1" LOW_ADMIN in
  Lifecycle.findOrder "order-1" (Lifecycle.orders w) = Some delivered
  ∧ Lifecycle.PATCH env 100
      (Lifecycle.actionRequest courier "order-1" Lifecycle.start_delivery) w
    = (Lifecycle.Failure Lifecycle.INVALID_STATE 400, w)
  ∧ Lifecycle.PATCH env 100
      (Lifecycle.actionRequest admin "order-1" Lifecycle.complete_delivery) w
    = (Lifecycle.Failure Lifecycle.FORBIDDEN 403, w).
Proof.
  intros delivered w env courier admin.
  assert (Hfind : Lifecycle.findOrder "order-1" (Lifecycle.orders w) = Some delivered)
    by reflexivity.
  split; [exact Hfind|]. split.
  - exact (proj1 (start_delivery_and_role_guards env 100 courier "order-1" w
                    delivered Hfind) eq_refl eq_refl).
  - refine (proj2 (proj2 (proj2 (start_delivery_and_role_guards env 100 admin
                                   "order-1" w delivered Hfind))) _).
    discriminate.
Defined.


(** One customer created 31 days before the run, no rejecting query. *)
Lemma scheduler_eligibility_and_isolation_witness :
  let today := 20000 * Scheduler.msPerDay in
  let customer :=
    Scheduler.mkCustomer "customer-1" "Ann" "+998901234567" "1 Main Street"
      None (Some "daily") true (today - 31 * Scheduler.msPerDay) None in
  let w :=
    Scheduler.mkWorld [customer] [Scheduler.mkAdmin "admin-1" SUPER_ADMIN] [] 0 in
  let o := Scheduler.mkOracle (λ _, false) (λ k, k) (λ n, "generated") in
  let result := Scheduler.runAutoOrderScheduler o today w in
  Scheduler.rejects o Scheduler.CustomerFindMany = false
  ∧ result.1.*1 = Scheduler.c_id <$> Scheduler.eligibleClients today w
  ∧ ∃ row, Scheduler.c_id row = "customer-1"
           ∧ row ∈ Scheduler.eligibleClients (today + 1) result.2.
Proof.
  intros today customer w o result.
  assert (Hmany : Scheduler.rejects o Scheduler.CustomerFindMany = false)
    by reflexivity.
  pose proof (scheduler_eligibility_and_isolation o today w Hmany) as Hthm.
  cbv zeta in Hthm. destruct Hthm as (_ & Hreport & _ & _ & Hstays & _).
  split; [exact Hmany|]. split; [exact Hreport|].
  apply (Hstays customer (today + 1)).
  - apply eligibleClients_elem. split; [apply list_elem_of_here|].
    split; reflexivity.
  - unfold customer, today, Scheduler.c_createdAt, Scheduler.msPerDay. lia.
  - lia.
Defined.

(* ===================================================================== *)
(** * Further properties *)
(* ===================================================================== *)

(** ** Rate limiter: decisions, store and maintenance *)

Section LimiterMore.
Import RateLimiter RateLimitHttp.
Implicit Types (store : gmap string RateLimitRecord) (config : RateLimitConfig).

Lemma run_stored_bound identifier config times :
  ∀ store,
    0 <= maxRequests config →
    Z.of_nat (length (stored store identifier)) <= maxRequests config →
    Z.of_nat (length (stored (run identifier config times store).2 identifier))
    <= maxRequests config.
Proof.
  induction times as [|now rest IH]; intros store Hmax Hbound; [done|].
  cbn [run].
  pose proof (checkRateLimit_stored_bound identifier config now store Hmax Hbound).
  destruct (checkRateLimit identifier config now store) as [res store1].
  specialize (IH store1 Hmax H).
  by destruct (run identifier config rest store1).
Qed.

End LimiterMore.

(** X1.  What [remaining] reports: on an admitted call it is the room left
    after recording the call, between 0 and [maxRequests - 1], and the
    record's [count] is the number of stored timestamps; on a denied call
    it is 0 and the record already holds [maxRequests] timestamps or
    more. *)
Theorem checkRateLimit_remaining_range identifier config now
    (store : gmap string RateLimiter.RateLimitRecord) :
  let res := (RateLimiter.checkRateLimit identifier config now store).1 in
  let store' := (RateLimiter.checkRateLimit identifier config now store).2 in
  let held := Z.of_nat (length (RateLimiter.stored store' identifier)) in
  if RateLimiter.allowed res
  then RateLimiter.remaining res = RateLimiter.maxRequests config - held
       ∧ 0 <= RateLimiter.remaining res < RateLimiter.maxRequests config
       ∧ RateLimiter.count <$> store' !! identifier = Some held
  else RateLimiter.remaining res = 0
       ∧ RateLimiter.maxRequests config <= held.
Proof.
  cbv zeta. unfold RateLimiter.checkRateLimit.
  destruct (Z.leb_spec (RateLimiter.maxRequests config)
              (Z.of_nat (length (RateLimiter.inWindow
                 (now - RateLimiter.windowMs config)
                 (RateLimiter.requestTimestamps
                    (RateLimiter.currentRecord store identifier config now))))))
    as [Hfull|Hroom]; cbn [fst snd RateLimiter.allowed RateLimiter.remaining];
    rewrite stored_insert; cbn [RateLimiter.requestTimestamps].
  - done.
  - rewrite lookup_insert_eq. cbn.
    rewrite length_app in *. cbn [length] in *. split; [done|]. split; [lia|done].
Qed.

(** X2.  A client that starts within the limit stays within it: whatever
    the clock readings of its calls, the record never holds more than
    [maxRequests] timestamps. *)
Theorem run_keeps_limit identifier config times
    (store : gmap string RateLimiter.RateLimitRecord) :
  0 <= RateLimiter.maxRequests config →
  Z.of_nat (length (RateLimiter.stored store identifier))
    <= RateLimiter.maxRequests config →
  Z.of_nat (length (RateLimiter.stored
                      (RateLimiter.run identifier config times store).2 identifier))
    <= RateLimiter.maxRequests config.
Proof. intros. by apply run_stored_bound. Qed.

Lemma run_keeps_limit_witness :
  Z.of_nat (length (RateLimiter.stored
     (RateLimiter.run "client" (RateLimiter.mkConfig 2 10) [0; 5; 7; 30; 31; 32] ∅).2
     "client")) <= 2.
Proof.
  apply (run_keeps_limit "client" (RateLimiter.mkConfig 2 10) [0; 5; 7; 30; 31; 32] ∅).
  - by vm_compute.
  - by vm_compute.
Defined.

(** X3.  Clients do not interfere: a call of one client gets the same
    answer whether or not another client called just before, with
    whatever limits, and the two calls leave the same store in either
    order. *)
Theorem clients_do_not_interfere a b configA configB nowA nowB
    (store : gmap string RateLimiter.RateLimitRecord) :
  a ≠ b →
  let afterB := (RateLimiter.checkRateLimit b configB nowB store).2 in
  let afterA := (RateLimiter.checkRateLimit a configA nowA store).2 in
  (RateLimiter.checkRateLimit a configA nowA afterB).1
  = (RateLimiter.checkRateLimit a configA nowA store).1
  ∧ (RateLimiter.checkRateLimit a configA nowA afterB).2
    = (RateLimiter.checkRateLimit b configB nowB afterA).2.
Proof.
  intros Hne. cbv zeta.
  assert (∀ x y cx cy nx ny (s : gmap string RateLimiter.RateLimitRecord),
            x ≠ y →
            RateLimiter.currentRecord
              (RateLimiter.checkRateLimit y cy ny s).2 x cx nx
            = RateLimiter.currentRecord s x cx nx) as Hcur.
  { intros x y cx cy nx ny s Hxy. unfold RateLimiter.checkRateLimit.
    destruct (_ <=? _); cbn [snd]; unfold RateLimiter.currentRecord;
      by rewrite lookup_insert_ne. }
  split.
  - unfold RateLimiter.checkRateLimit at 1 3. rewrite Hcur by done.
    by destruct (_ <=? _).
  - unfold RateLimiter.checkRateLimit at 1 3.
    rewrite !Hcur by done.
    unfold RateLimiter.checkRateLimit.
    do 2 destruct (_ <=? _); cbn [snd]; by rewrite insert_insert_ne.
Qed.

Lemma clients_do_not_interfere_witness :
  (RateLimiter.checkRateLimit "a" (RateLimiter.mkConfig 1 10) 3
     (RateLimiter.checkRateLimit "b" (RateLimiter.mkConfig 5 20) 2 ∅).2).1
  = (RateLimiter.checkRateLimit "a" (RateLimiter.mkConfig 1 10) 3 ∅).1.
Proof.
  refine (proj1 (clients_do_not_interfere "a" "b" (RateLimiter.mkConfig 1 10)
                   (RateLimiter.mkConfig 5 20) 3 2 ∅ _)).
  discriminate.
Defined.

(** X4.  The periodic sweep is invisible to callers.  It deletes exactly
    the records whose [resetTime] lies before the sweep, and a call made
    at or after the sweep gets the same answer and leaves the same record
    for the client as if the sweep had not run. *)
Theorem sweep_is_invisible identifier config sweptAt now
    (store : gmap string RateLimiter.RateLimitRecord) :
  sweptAt <= now →
  (∀ key r, RateLimiter.cleanup sweptAt store !! key = Some r
            ↔ store !! key = Some r ∧ sweptAt <= RateLimiter.resetTime r)
  ∧ (RateLimiter.checkRateLimit identifier config now
       (RateLimiter.cleanup sweptAt store)).1
    = (RateLimiter.checkRateLimit identifier config now store).1
  ∧ (RateLimiter.checkRateLimit identifier config now
       (RateLimiter.cleanup sweptAt store)).2 !! identifier
    = (RateLimiter.checkRateLimit identifier config now store).2 !! identifier.
Proof.
  intros Hle. split; [|split].
  - intros key r. unfold RateLimiter.cleanup. rewrite map_lookup_filter_Some.
    cbn. split; intros [? ?]; split; (done || lia).
  - by apply cleanup_unobservable.
  - assert (RateLimiter.currentRecord (RateLimiter.cleanup sweptAt store)
              identifier config now
            = RateLimiter.currentRecord store identifier config now) as Hcur.
    { unfold RateLimiter.currentRecord, RateLimiter.cleanup.
      rewrite map_lookup_filter.
      destruct (store !! identifier) as [r|]; [|done]. cbn.
      case_guard as Hkeep; cbn; [done|].
      destruct (Z.ltb_spec (RateLimiter.resetTime r) now); [done|].
      cbn in Hkeep. lia. }
    unfold RateLimiter.checkRateLimit. rewrite Hcur.
    destruct (_ <=? _); cbn [snd]; by rewrite !lookup_insert_eq.
Qed.

Lemma sweep_is_invisible_witness :
  (RateLimiter.checkRateLimit "client" (RateLimiter.mkConfig 2 10) 12
     (RateLimiter.cleanup 11
        (RateLimiter.run "client" (RateLimiter.mkConfig 2 10) [0; 5] ∅).2)).1
  = (RateLimiter.checkRateLimit "client" (RateLimiter.mkConfig 2 10) 12
       (RateLimiter.run "client" (RateLimiter.mkConfig 2 10) [0; 5] ∅).2).1.
Proof.
  refine (proj1 (proj2 (sweep_is_invisible "client" (RateLimiter.mkConfig 2 10)
                          11 12 _ _))).
  lia.
Defined.

(** X5.  A client without a record gets exactly [maxRequests] calls
    inside one window: the first [maxRequests] calls, all made before the
    window of the first one closes, are admitted, and one more call in
    that window is denied with the first call's timestamp plus
    [windowMs] as reset time. *)
Theorem fresh_client_gets_exactly_max identifier config first rest later
    (store : gmap string RateLimiter.RateLimitRecord) :
  store !! identifier = None →
  Z.of_nat (length (first :: rest)) = RateLimiter.maxRequests config →
  (∀ t, t ∈ rest → first <= t ∧ t <= later) →
  first <= later →
  later < first + RateLimiter.windowMs config →
  ∃ admitted,
    (RateLimiter.run identifier config (first :: rest ++ [later]) store).1
    = admitted
      ++ [(later, RateLimiter.mkResult false 0
                    (Some (first + RateLimiter.windowMs config)))]
    ∧ admitted.*1 = first :: rest
    ∧ Forall (λ c, RateLimiter.allowed c.2 = true) admitted.
Proof.
  intros Hnone Hlen Hrest Hfl Hwin.
  assert (Hmax : 0 < RateLimiter.maxRequests config) by (cbn [length] in Hlen; lia).
  cbn [RateLimiter.run]. rewrite checkRateLimit_fresh by done.
  set (r1 := RateLimiter.mkRecord 1 (first + RateLimiter.windowMs config) [first]).
  set (store1 := <[identifier:=r1]> store).
  rewrite run_app.
  destruct (run_admits identifier config later rest store1 r1)
    as (Hall & Hfst & r' & Hr' & HR' & Hts').
  { apply lookup_insert_eq. }
  { intros now Hnow. destruct (Hrest now Hnow). subst r1. cbn. lia. }
  { intros t Ht. subst r1. cbn in Ht.
    apply elem_of_cons in Ht as [->|Ht]; [lia|]. destruct (Hrest t Ht). lia. }
  { subst r1. cbn [RateLimiter.requestTimestamps length] in *. lia. }
  destruct (RateLimiter.run identifier config rest store1) as [log2 store2].
  cbn [fst snd RateLimiter.run] in *.
  pose proof (checkRateLimit_live identifier config later store2) as Hlive.
  cbv zeta in Hlive.
  assert (RateLimiter.stored store2 identifier = first :: rest) as Hst.
  { unfold RateLimiter.stored. rewrite Hr', Hts'. by subst r1. }
  rewrite Hst in Hlive.
  rewrite inWindow_all in Hlive; last first.
  { intros t Ht. apply elem_of_cons in Ht as [->|Ht]; [lia|].
    destruct (Hrest t Ht). lia. }
  destruct (Z.leb_spec (RateLimiter.maxRequests config)
              (Z.of_nat (length (first :: rest)))) as [_|Hlt]; [|lia].
  destruct Hlive as [Hres _].
  { intros r0 Hr0. assert (r0 = r') as -> by congruence.
    rewrite HR'. subst r1. cbn. lia. }
  destruct (RateLimiter.checkRateLimit identifier config later store2)
    as [res6 store3].
  cbn [fst snd] in *. subst res6.
  eexists (_ :: _). split; [reflexivity|]. split.
  - cbn. by rewrite Hfst.
  - constructor; [done|exact Hall].
Qed.

Lemma fresh_client_gets_exactly_max_witness :
  ∃ admitted,
    (RateLimiter.run "client" (RateLimiter.mkConfig 3 100) ([5; 20; 40] ++ [90]) ∅).1
    = admitted ++ [(90, RateLimiter.mkResult false 0 (Some (5 + 100)))]
    ∧ admitted.*1 = [5; 20; 40]
    ∧ Forall (λ c, RateLimiter.allowed c.2 = true) admitted.
Proof.
  apply (fresh_client_gets_exactly_max "client" (RateLimiter.mkConfig 3 100)
           5 [20; 40] 90 ∅).
  - apply lookup_empty.
  - reflexivity.
  - intros t Ht.
    repeat (apply elem_of_cons in Ht as [->|Ht]; [lia|]).
    by apply elem_of_nil in Ht.
  - lia.
  - cbn. lia.
Defined.

(** X6.  Clearing a client restarts it: its status is gone, the other
    clients keep theirs, and its next call is treated as a first call,
    admitted with [maxRequests - 1] remaining and a new record that holds
    that call alone, even if the client had just been denied. *)
Theorem clear_restarts_client identifier config now
    (store : gmap string RateLimiter.RateLimitRecord) :
  0 < RateLimiter.maxRequests config →
  let cleared := RateLimitHttp.clearRateLimit identifier store in
  let call := RateLimiter.checkRateLimit identifier config now cleared in
  RateLimitHttp.getRateLimitStatus identifier cleared = None
  ∧ (∀ other, other ≠ identifier →
       RateLimitHttp.getRateLimitStatus other cleared
       = RateLimitHttp.getRateLimitStatus other store)
  ∧ call.1 = RateLimiter.mkResult true (RateLimiter.maxRequests config - 1)
               (Some (now + RateLimiter.windowMs config))
  ∧ RateLimitHttp.getRateLimitStatus identifier (call.2)
    = Some (RateLimiter.mkRecord 1 (now + RateLimiter.windowMs config) [now])
  ∧ call.2
    = <[identifier := RateLimiter.mkRecord 1 (now + RateLimiter.windowMs config) [now]]>
        store.
Proof.
  intros Hmax. cbv zeta.
  unfold RateLimitHttp.clearRateLimit, RateLimitHttp.getRateLimitStatus.
  rewrite checkRateLimit_fresh by (done || apply lookup_delete_eq).
  cbn [fst snd]. rewrite lookup_delete_eq, lookup_insert_eq, insert_delete_eq.
  repeat split. intros other Hne. by rewrite lookup_delete_ne.
Qed.

Lemma clear_restarts_client_witness :
  let config := RateLimiter.mkConfig 1 10 in
  let store := (RateLimiter.run "client" config [0; 1] ∅).2 in
  RateLimiter.allowed (RateLimiter.checkRateLimit "client" config 2 store).1 = false
  ∧ (RateLimiter.checkRateLimit "client" config 2
       (RateLimitHttp.clearRateLimit "client" store)).1
    = RateLimiter.mkResult true 0 (Some 12).
Proof.
  intros config store. split; [by vm_compute|].
  refine (proj1 (proj2 (proj2 (clear_restarts_client "client" config 2 store _)))).
  reflexivity.
Defined.

Section ResponseFacts.
Import RateLimiter RateLimitHttp.

Lemma ceilDiv_1000_bounds x :
  1000 * (ceilDiv x 1000 - 1) < x ∧ x <= 1000 * ceilDiv x 1000.
Proof.
  unfold ceilDiv.
  pose proof (Z.div_mod (- x) 1000). pose proof (Z.mod_pos_bound (- x) 1000). lia.
Qed.

Lemma retryAfterSeconds_nonneg resetTime now : 0 <= retryAfterSeconds resetTime now.
Proof.
  unfold retryAfterSeconds. destruct resetTime as [r|]; [|done].
  cbv zeta. destruct (Z.ltb_spec 0 (ceilDiv (r - now) 1000)); lia.
Qed.

(** A denied call under a positive limit reports the head of a non-empty
    list of in-window timestamps. *)
Lemma denied_resetTime identifier config now (store : gmap string RateLimitRecord) :
  0 < maxRequests config →
  allowed (checkRateLimit identifier config now store).1 = false →
  ∃ t0, r_resetTime (checkRateLimit identifier config now store).1
        = Some (t0 + windowMs config)
        ∧ now - windowMs config < t0
        ∧ t0 ∈ stored store identifier.
Proof.
  intros Hmax Hdenied.
  destruct (denied_live _ _ _ _ Hmax Hdenied) as (r & Hr & Hlive).
  revert Hdenied. unfold checkRateLimit.
  rewrite (currentRecord_live _ _ _ _ _ Hr Hlive).
  destruct (Z.leb_spec (maxRequests config)
              (Z.of_nat (length (inWindow (now - windowMs config)
                                   (requestTimestamps r))))) as [Hfull|]; [|done].
  intros _. cbn [fst r_resetTime].
  destruct (inWindow (now - windowMs config) (requestTimestamps r))
    as [|t0 ts] eqn:Hw; [cbn in Hfull; lia|].
  exists t0. split; [done|].
  assert (t0 ∈ inWindow (now - windowMs config) (requestTimestamps r)) as Hin
    by (rewrite Hw; left).
  apply inWindow_elem in Hin as [? ?]. split; [done|].
  unfold stored. by rewrite Hr.
Qed.

Lemma lowerName_literals :
  lowerName "X-RateLimit-Reset" = "x-ratelimit-reset"
  ∧ lowerName "X-RateLimit-Remaining" = "x-ratelimit-remaining"
  ∧ lowerName "X-RateLimit-Limit" = "x-ratelimit-limit"
  ∧ lowerName "Retry-After" = "retry-after"
  ∧ lowerName "Content-Type" = "content-type".
Proof. by vm_compute. Qed.

End ResponseFacts.

(** X7.  A client that is refused is told to wait.  For a call denied
    under a positive limit, the 429 answer built at the same clock
    reading has a [Retry-After] of at least one second, and of at most
    the window length rounded up to seconds when no stored timestamp lies
    in the future; the header carries that number and
    [X-RateLimit-Remaining] is 0. *)
Theorem denied_call_retry_after identifier config now message
    (store : gmap string RateLimiter.RateLimitRecord) :
  0 < RateLimiter.maxRequests config →
  RateLimiter.allowed (RateLimiter.checkRateLimit identifier config now store).1 = false →
  let res := (RateLimiter.checkRateLimit identifier config now store).1 in
  let wait := RateLimitHttp.retryAfterSeconds (RateLimiter.r_resetTime res) now in
  let answer :=
    RateLimitHttp.createRateLimitResponse message (RateLimiter.r_resetTime res)
      (RateLimiter.maxRequests config) now in
  1 <= wait
  ∧ ((∀ t, t ∈ RateLimiter.stored store identifier → t <= now) →
     wait <= RateLimitHttp.ceilDiv (RateLimiter.windowMs config) 1000)
  ∧ RateLimitHttp.status answer = 429
  ∧ RateLimitHttp.body answer = RateLimitHttp.RateLimitBody message wait
  ∧ RateLimitHttp.headerGet "retry-after" (RateLimitHttp.headers answer)
    = Some (pretty wait)
  ∧ RateLimitHttp.headerGet "X-RateLimit-Remaining" (RateLimitHttp.headers answer)
    = Some "0".
Proof.
  intros Hmax Hdenied. cbv zeta.
  destruct (denied_resetTime _ _ _ _ Hmax Hdenied) as (t0 & -> & Hin & Hmem).
  unfold RateLimitHttp.retryAfterSeconds. cbv zeta.
  pose proof (ceilDiv_1000_bounds (t0 + RateLimiter.windowMs config - now)) as Hc.
  pose proof (ceilDiv_1000_bounds (RateLimiter.windowMs config)) as Hw.
  destruct (Z.ltb_spec 0 (RateLimitHttp.ceilDiv
                            (t0 + RateLimiter.windowMs config - now) 1000));
    [|lia].
  split; [lia|]. split.
  { intros Hpast. specialize (Hpast t0 Hmem). lia. }
  split; [done|]. split.
  { unfold RateLimitHttp.createRateLimitResponse, RateLimitHttp.retryAfterSeconds.
    cbv zeta. cbn [RateLimitHttp.body].
    destruct (Z.ltb_spec 0 (RateLimitHttp.ceilDiv
                              (t0 + RateLimiter.windowMs config - now) 1000));
      [done|lia]. }
  unfold RateLimitHttp.createRateLimitResponse, RateLimitHttp.headerGet,
    RateLimitHttp.headerSet, RateLimitHttp.retryAfterSeconds.
  cbn [RateLimitHttp.headers]. cbv zeta.
  destruct lowerName_literals as (-> & -> & -> & -> & ->).
  change (RateLimitHttp.lowerName "retry-after") with "retry-after".
  destruct (Z.ltb_spec 0 (RateLimitHttp.ceilDiv
                            (t0 + RateLimiter.windowMs config - now) 1000));
    [|lia].
  split.
  - rewrite !lookup_insert_ne by done. by rewrite lookup_insert_eq.
  - rewrite lookup_insert_ne by done. by rewrite lookup_insert_eq.
Qed.

Lemma denied_call_retry_after_witness :
  let config := RateLimiter.mkConfig 1 2500 in
  let store := (RateLimiter.run "client" config [1000] ∅).2 in
  let res := (RateLimiter.checkRateLimit "client" config 1200 store).1 in
  RateLimiter.allowed res = false
  ∧ 1 <= RateLimitHttp.retryAfterSeconds (RateLimiter.r_resetTime res) 1200.
Proof.
  intros config store res.
  assert (Hdenied : RateLimiter.allowed
            (RateLimiter.checkRateLimit "client" config 1200 store).1 = false)
    by (by vm_compute).
  split; [exact Hdenied|].
  exact (proj1 (denied_call_retry_after "client" config 1200 "slow down" store
                  eq_refl Hdenied)).
Defined.

Section IdentifierFacts.
Import RateLimitHttp.

Lemma firstSegment_cons c s :
  firstSegment (String c s)
  = if Ascii.eqb c comma then EmptyString else String c (firstSegment s).
Proof. reflexivity. Qed.

Lemma occurs_firstSegment s : occurs comma (firstSegment s) = false.
Proof.
  induction s as [|c s IH]; [done|]. rewrite firstSegment_cons.
  destruct (Ascii.eqb c comma) eqn:Hc; [done|].
  cbn [occurs]. rewrite IH, orb_false_r. by rewrite Ascii.eqb_sym.
Qed.

Lemma firstSegment_whole s : occurs comma s = false → firstSegment s = s.
Proof.
  induction s as [|c s IH]; [done|]. rewrite firstSegment_cons. cbn [occurs].
  intros [Hc Hs]%orb_false_elim. rewrite Ascii.eqb_sym, Hc. by rewrite IH.
Qed.

Lemma occurs_trimStart c s : occurs c s = false → occurs c (trimStart s) = false.
Proof.
  induction s as [|c' s IH]; [done|]. cbn [trimStart occurs].
  intros [? ?]%orb_false_elim. destruct (isWhiteSpace c'); [by apply IH|].
  cbn [occurs]. by apply orb_false_intro.
Qed.

Lemma occurs_trimEnd c s : occurs c s = false → occurs c (trimEnd s) = false.
Proof.
  induction s as [|c' s IH]; [done|]. cbn [trimEnd occurs].
  intros [Hc Hs]%orb_false_elim. specialize (IH Hs).
  destruct (trimEnd s) as [|k kept].
  - destruct (isWhiteSpace c'); [done|]. cbn. by rewrite Hc.
  - cbn [occurs] in *. by rewrite Hc.
Qed.

Lemma trimStart_idem s : trimStart (trimStart s) = trimStart s.
Proof.
  induction s as [|c s IH]; [done|]. cbn [trimStart].
  destruct (isWhiteSpace c) eqn:Hc; [done|]. cbn [trimStart]. by rewrite Hc.
Qed.

Lemma trimEnd_idem s : trimEnd (trimEnd s) = trimEnd s.
Proof.
  induction s as [|c s IH]; [done|]. cbn [trimEnd].
  destruct (trimEnd s) as [|k kept] eqn:Hk.
  - destruct (isWhiteSpace c) eqn:Hc; [done|]. cbn [trimEnd]. by rewrite Hc.
  - cbn [trimEnd] in *. by rewrite IH.
Qed.

(** Stripping the end keeps a first code unit that is no white space. *)
Lemma trimStart_trimEnd s :
  trimStart (trimEnd (trimStart s)) = trimEnd (trimStart s).
Proof.
  destruct (trimStart s) as [|c rest] eqn:Hs; [done|].
  assert (isWhiteSpace c = false) as Hc.
  { clear -Hs. induction s as [|c' s IH]; [done|]. cbn [trimStart] in Hs.
    destruct (isWhiteSpace c') eqn:Hc'; [by apply IH|].
    injection Hs as -> _. exact Hc'. }
  cbn [trimEnd]. destruct (trimEnd rest); rewrite ?Hc; cbn [trimStart]; by rewrite Hc.
Qed.

Lemma trim_idem s : trim (trim s) = trim s.
Proof. unfold trim. by rewrite trimStart_trimEnd, trimEnd_idem. Qed.

Lemma firstSegment_app_comma a b :
  occurs comma a = false →
  firstSegment (a +:+ String comma b) = a.
Proof.
  induction a as [|c a IH]; [done|].
  change (String c a +:+ String comma b) with (String c (a +:+ String comma b)).
  rewrite firstSegment_cons. cbn [occurs].
  intros [Hc Ha]%orb_false_elim.
  rewrite Ascii.eqb_sym, Hc. by rewrite IH.
Qed.

Lemma truthy_Some s : truthy (Some s) = negb (String.eqb s "").
Proof. reflexivity. Qed.

End IdentifierFacts.

(** X8.  The client identifier taken from [x-forwarded-for].  When that
    header is present and not empty it alone decides: the identifier is
    the part before the first comma with surrounding white space
    stripped, so it contains no comma, stripping it again changes
    nothing, and whatever follows the first comma (the rest of the proxy
    chain) and the other two headers make no difference.  Without any of
    the three headers the identifier is "unknown". *)
Theorem getClientIdentifier_forwarded :
  (∀ forwarded realIp cf,
     forwarded ≠ "" →
     let ident :=
       RateLimitHttp.getClientIdentifier
         (RateLimitHttp.mkProxy (Some forwarded) realIp cf) in
     RateLimitHttp.occurs RateLimitHttp.comma ident = false
     ∧ RateLimitHttp.trim ident = ident
     ∧ ident = RateLimitHttp.getClientIdentifier
                 (RateLimitHttp.mkProxy (Some forwarded) None None))
  ∧ (∀ first chain realIp cf,
       first ≠ "" →
       RateLimitHttp.occurs RateLimitHttp.comma first = false →
       RateLimitHttp.getClientIdentifier
         (RateLimitHttp.mkProxy
            (Some (first +:+ String RateLimitHttp.comma chain)) realIp cf)
       = RateLimitHttp.getClientIdentifier
           (RateLimitHttp.mkProxy (Some first) None None))
  ∧ RateLimitHttp.getClientIdentifier (RateLimitHttp.mkProxy None None None)
    = "unknown".
Proof.
  split; [|split; [|done]].
  - intros forwarded realIp cf Hne. cbv zeta.
    unfold RateLimitHttp.getClientIdentifier. cbn [RateLimitHttp.xForwardedFor].
    rewrite truthy_Some.
    assert (String.eqb forwarded "" = false) as -> by (by apply String.eqb_neq).
    unfold default; cbn [negb from_option]; unfold Datatypes.id. split; [|split; [|done]].
    + unfold RateLimitHttp.trim.
      apply occurs_trimEnd, occurs_trimStart, occurs_firstSegment.
    + apply trim_idem.
  - intros first chain realIp cf Hne Hcomma.
    unfold RateLimitHttp.getClientIdentifier. cbn [RateLimitHttp.xForwardedFor].
    rewrite !truthy_Some.
    assert (String.eqb first "" = false) as -> by (by apply String.eqb_neq).
    assert (String.eqb (first +:+ String RateLimitHttp.comma chain) "" = false) as ->.
    { apply String.eqb_neq. by destruct first. }
    unfold default; cbn [negb from_option]; unfold Datatypes.id. rewrite firstSegment_app_comma by done.
    by rewrite firstSegment_whole.
Qed.

(** Two clients behind different proxy chains of one first hop. *)
Example getClientIdentifier_example :
  RateLimitHttp.getClientIdentifier
    (RateLimitHttp.mkProxy (Some " 10.0.0.7 , 172.16.0.1") (Some "192.168.1.1") None)
  = "10.0.0.7"
  ∧ RateLimitHttp.getClientIdentifier
      (RateLimitHttp.mkProxy (Some ", 172.16.0.1") (Some "192.168.1.1") None)
    = "".
Proof. by vm_compute. Qed.

Lemma getClientIdentifier_forwarded_witness :
  RateLimitHttp.getClientIdentifier
    (RateLimitHttp.mkProxy
       (Some (" 10.0.0.7 " +:+ String RateLimitHttp.comma " 172.16.0.1"))
       (Some "192.168.1.1") None)
  = RateLimitHttp.getClientIdentifier
      (RateLimitHttp.mkProxy (Some " 10.0.0.7 ") None None).
Proof.
  apply (proj1 (proj2 getClientIdentifier_forwarded)); [done | by vm_compute].
Defined.

Section MiddlewareFacts.
Import RateLimiter RateLimitHttp Middleware.

(** The middleware's use of the limiter: one call, keyed by the client
    alone, under the limits of the path's route class. *)
Lemma middleware_limiter env req now store :
  valid req = true →
  let checked :=
    checkRateLimit (getClientIdentifier (proxy req))
      (limit (configOf (configs env) (routeClass (pathname req)))) now store in
  (middleware env req now store).2 = checked.2
  ∧ isTooMany (middleware env req now store).1 = negb (allowed checked.1).
Proof.
  intros Hvalid. cbv zeta. unfold middleware. rewrite Hvalid. cbn [negb].
  destruct (checkRateLimit _ _ now store) as [res store1]. cbn [fst snd].
  destruct (allowed res); cbn [negb]; [|done].
  by repeat case_match.
Qed.

Lemma serve_run env req times :
  valid req = true →
  ∀ store,
  let ran :=
    run (getClientIdentifier (proxy req))
      (limit (configOf (configs env) (routeClass (pathname req)))) times store in
  (serve env req times store).2 = ran.2
  ∧ isTooMany <$> (serve env req times store).1
    = (λ c, negb (allowed c.2)) <$> ran.1.
Proof.
  intros Hvalid. induction times as [|now rest IH]; intros store; [done|].
  cbv zeta. cbn [serve run].
  destruct (middleware_limiter env req now store Hvalid) as [Hs Ho].
  destruct (middleware env req now store) as [o s1].
  destruct (checkRateLimit _ _ now store) as [res s1']. cbn [fst snd] in Hs, Ho.
  subst s1'. destruct (IH s1) as [IHs IHo].
  destruct (serve env req rest s1) as [os s2].
  destruct (run _ _ rest s1) as [out s2']. cbn [fst snd] in *.
  split; [done|]. cbn [fmap list_fmap]. by rewrite Ho, <- IHo.
Qed.

Lemma pickFromAcceptLanguage_isLang header :
  isLang (Some (pickFromAcceptLanguage header)) = true.
Proof. unfold pickFromAcceptLanguage. by repeat case_match. Qed.

Lemma isLang_Some x : isLang x = true → ∃ s, x = Some s.
Proof. destruct x; [eauto|done]. Qed.

End MiddlewareFacts.

(** X9.  The limiter's bucket is keyed by the client alone, while the
    limit is chosen by the path: requests to one route class use up the
    allowance of every other.  Take a client, unknown so far, that sends
    requests to one path and then one request to a path of another class,
    all of them inside the window of either class counted from the first
    request (so the record made by the first request has not expired for
    either class).  If the requests to the first path stay within that
    class's limit they are all let through, and if their number has
    reached the other class's limit, the request to the other path is
    answered 429. *)
Theorem route_classes_share_one_bucket
    (env : Middleware.Env) (reqA reqB : Middleware.Request)
    (first : Z) (rest : list Z) (now : Z)
    (store : gmap string RateLimiter.RateLimitRecord) :
  let limitA :=
    RateLimitHttp.limit (RateLimitHttp.configOf (Middleware.configs env)
      (Middleware.routeClass (Middleware.pathname reqA))) in
  let limitB :=
    RateLimitHttp.limit (RateLimitHttp.configOf (Middleware.configs env)
      (Middleware.routeClass (Middleware.pathname reqB))) in
  Middleware.valid reqA = true → Middleware.valid reqB = true →
  RateLimitHttp.getClientIdentifier (Middleware.proxy reqA)
  = RateLimitHttp.getClientIdentifier (Middleware.proxy reqB) →
  store !! RateLimitHttp.getClientIdentifier (Middleware.proxy reqA) = None →
  (∀ t, t ∈ rest → first <= t <= now) → first <= now →
  now < first + RateLimiter.windowMs limitA →
  now < first + RateLimiter.windowMs limitB →
  Z.of_nat (length (first :: rest)) <= RateLimiter.maxRequests limitA →
  RateLimiter.maxRequests limitB <= Z.of_nat (length (first :: rest)) →
  let served := Middleware.serve env reqA (first :: rest) store in
  Forall (λ o, Middleware.isTooMany o = false) served.1
  ∧ ∃ response,
      (Middleware.middleware env reqB now (served.2)).1
      = Middleware.TooManyRequests
          (Middleware.routeClass (Middleware.pathname reqB)) response.
Proof.
  intros limitA limitB HvA HvB Hsame Hnone Hrest Hfirst HwA HwB HmaxA HmaxB.
  cbv zeta.
  destruct (serve_run env reqA (first :: rest) HvA store) as [Hstore Hlog].
  fold limitA in Hstore, Hlog.
  set (ident := RateLimitHttp.getClientIdentifier (Middleware.proxy reqA)) in *.
  cbn [length] in HmaxA, HmaxB.
  (* the limiter's side of the first class's requests *)
  assert (Forall (λ c, RateLimiter.allowed c.2 = true)
            (RateLimiter.run ident limitA (first :: rest) store).1
          ∧ ∃ r', (RateLimiter.run ident limitA (first :: rest) store).2 !! ident
                  = Some r'
                  ∧ RateLimiter.resetTime r' = first + RateLimiter.windowMs limitA
                  ∧ RateLimiter.requestTimestamps r' = first :: rest)
    as [Hall (r' & Hr' & Hreset & Hstamps)].
  { cbn [RateLimiter.run].
    rewrite checkRateLimit_fresh by (done || lia).
    set (r1 := RateLimiter.mkRecord 1 (first + RateLimiter.windowMs limitA) [first]).
    destruct (run_admits ident limitA now rest (<[ident := r1]> store) r1)
      as (Hall & _ & r' & Hr' & Hreset & Hstamps).
    - by rewrite lookup_insert_eq.
    - intros t Ht. specialize (Hrest t Ht). cbn [RateLimiter.resetTime r1]. lia.
    - intros t [->%list_elem_of_singleton | Ht]%elem_of_app; [lia|].
      specialize (Hrest t Ht). lia.
    - cbn [RateLimiter.requestTimestamps r1 length]. lia.
    - destruct (RateLimiter.run ident limitA rest (<[ident := r1]> store))
        as [out s2]. cbn [fst snd] in *.
      split; [by constructor|]. exists r'. by rewrite Hr', Hreset, Hstamps. }
  split.
  - apply Forall_forall. intros o Ho.
    apply (list_elem_of_fmap_2 Middleware.isTooMany) in Ho.
    rewrite Hlog in Ho. apply list_elem_of_fmap in Ho as (c & -> & Hc).
    rewrite Forall_forall in Hall. by rewrite (Hall c Hc).
  - rewrite Hstore.
    set (s := (RateLimiter.run ident limitA (first :: rest) store).2) in *.
    destruct (middleware_limiter env reqB now s HvB) as [_ Ho].
    fold limitB in Ho. rewrite <- Hsame in Ho. fold ident in Ho.
    pose proof (checkRateLimit_live ident limitB now s) as Hlive.
    cbv zeta in Hlive. unfold RateLimiter.stored in Hlive. rewrite Hr' in Hlive.
    rewrite Hstamps in Hlive.
    rewrite inWindow_all in Hlive; last first.
    { intros t [->|Ht]%elem_of_cons; [lia|]. specialize (Hrest t Ht). lia. }
    destruct (Z.leb_spec (RateLimiter.maxRequests limitB)
                (Z.of_nat (length (first :: rest)))) as [_|Hlt];
      [|cbn [length] in Hlt; lia].
    destruct Hlive as [Hres _];
      [intros r Hr; injection Hr as <-; lia|].
    rewrite Hres in Ho. cbn [RateLimiter.allowed negb] in Ho.
    destruct (Middleware.middleware env reqB now s) as [o s'] eqn:Hm.
    cbn [fst] in *.
    unfold Middleware.middleware in Hm. rewrite HvB in Hm. cbn [negb] in Hm.
    destruct (RateLimiter.checkRateLimit _ _ now s) as [res s1].
    destruct (RateLimiter.allowed res); cbn [negb] in Hm.
    + repeat case_match; injection Hm as <- _; discriminate Ho.
    + injection Hm as <- _. eauto.
Qed.

Lemma route_classes_share_one_bucket_witness :
  let page := RateLimitHttp.mkResponse 200 "" ∅ (RateLimitHttp.OtherBody "") in
  let env := Middleware.mkEnv RateLimitHttp.defaultConfigs page page (λ h, h) in
  let client := RateLimitHttp.mkProxy (Some "10.0.0.7") None None in
  let orders := Middleware.mkRequest true "/api/orders" client None None None in
  let login := Middleware.mkRequest true "/api/auth/login" client None None None in
  let served := Middleware.serve env orders [0; 1; 2; 3; 4] ∅ in
  Forall (λ o, Middleware.isTooMany o = false) served.1
  ∧ ∃ response,
      (Middleware.middleware env login 5 (served.2)).1
      = Middleware.TooManyRequests RateLimitHttp.Auth response.
Proof.
  intros page env client orders login.
  apply (route_classes_share_one_bucket env orders login 0 [1; 2; 3; 4] 5 ∅);
    try (by vm_compute).
  intros t Ht.
  repeat (apply elem_of_cons in Ht as [->|Ht]; [lia|]).
  by apply elem_of_nil in Ht.
Defined.

(** X10.  What the request middleware answers.  An invalid request is
    answered 400 and takes nothing from the client's allowance.  A refused
    request is answered 429 with exactly the five headers of the limiter's
    answer: the security headers are not applied to it.  A request that is
    let through carries a language cookie that is always one of the two
    supported languages, chosen from the query parameter (then the answer
    is a redirect), else from the cookie, else from [Accept-Language]; the
    limiter's headers are set after the security headers, which therefore
    cannot replace them. *)
Theorem middleware_answers (env : Middleware.Env) (req : Middleware.Request)
    (now : Z) (store : gmap string RateLimiter.RateLimitRecord) :
  let config :=
    RateLimitHttp.limit (RateLimitHttp.configOf (Middleware.configs env)
      (Middleware.routeClass (Middleware.pathname req))) in
  let checked :=
    RateLimiter.checkRateLimit
      (RateLimitHttp.getClientIdentifier (Middleware.proxy req)) config now store in
  let answer := (Middleware.middleware env req now store).1 in
  (Middleware.valid req = false →
   Middleware.middleware env req now store = (Middleware.BadRequest, store))
  ∧ (Middleware.valid req = true → RateLimiter.allowed checked.1 = false →
     ∃ response,
       answer = Middleware.TooManyRequests
                  (Middleware.routeClass (Middleware.pathname req)) response
       ∧ RateLimitHttp.status response = 429
       ∧ dom (RateLimitHttp.headers response)
         = {[ "content-type"; "retry-after"; "x-ratelimit-limit";
              "x-ratelimit-remaining"; "x-ratelimit-reset" ]})
  ∧ (Middleware.valid req = true → RateLimiter.allowed checked.1 = true →
     ∃ lang response,
       Middleware.isLang (Some lang) = true
       ∧ (if Middleware.isLang (Middleware.queryLang req)
          then answer = Middleware.Redirected lang response
               ∧ Middleware.queryLang req = Some lang
               ∧ RateLimitHttp.status response
                 = RateLimitHttp.status (Middleware.redirectResponse env)
          else answer = Middleware.Continued lang response
               ∧ RateLimitHttp.status response
                 = RateLimitHttp.status (Middleware.nextResponse env)
               ∧ if Middleware.isLang (Middleware.cookieLang req)
                 then Middleware.cookieLang req = Some lang
                 else lang = Middleware.pickFromAcceptLanguage
                               (Middleware.acceptLanguage req))
       ∧ RateLimitHttp.headerGet "X-RateLimit-Limit"
           (RateLimitHttp.headers response)
         = Some (pretty (RateLimiter.maxRequests config))
       ∧ RateLimitHttp.headerGet "X-RateLimit-Remaining"
           (RateLimitHttp.headers response)
         = Some (pretty (RateLimiter.remaining checked.1))).
Proof.
  cbv zeta. unfold Middleware.middleware.
  destruct (RateLimiter.checkRateLimit _ _ now store) as [res store1].
  cbn [fst snd]. split; [by intros ->|]. split.
  - intros -> ->. cbn [negb fst]. eexists. split; [done|]. split; [done|].
    unfold RateLimitHttp.createRateLimitResponse. cbn [RateLimitHttp.headers].
    unfold RateLimitHttp.headerSet.
    destruct lowerName_literals as (-> & -> & -> & -> & ->).
    rewrite !dom_insert_L, dom_empty_L. set_solver.
  - intros -> ->. cbn [negb].
    assert (∀ r, RateLimitHttp.headerGet "X-RateLimit-Limit"
                   (RateLimitHttp.headers
                      (Middleware.decorate env r (RateLimiter.remaining res)
                         (RateLimiter.r_resetTime res)
                         (RateLimiter.maxRequests
                            (RateLimitHttp.limit
                               (RateLimitHttp.configOf (Middleware.configs env)
                                  (Middleware.routeClass (Middleware.pathname req)))))))
                 = Some (pretty (RateLimiter.maxRequests
                                   (RateLimitHttp.limit
                                      (RateLimitHttp.configOf (Middleware.configs env)
                                         (Middleware.routeClass (Middleware.pathname req))))))
               ∧ RateLimitHttp.headerGet "X-RateLimit-Remaining"
                   (RateLimitHttp.headers
                      (Middleware.decorate env r (RateLimiter.remaining res)
                         (RateLimiter.r_resetTime res)
                         (RateLimiter.maxRequests
                            (RateLimitHttp.limit
                               (RateLimitHttp.configOf (Middleware.configs env)
                                  (Middleware.routeClass (Middleware.pathname req)))))))
                 = Some (pretty (RateLimiter.remaining res))) as Hheaders.
    { intros r. unfold Middleware.decorate, RateLimitHttp.addRateLimitHeaders,
        RateLimitHttp.headerGet, RateLimitHttp.headerSet.
      cbn [RateLimitHttp.headers].
      destruct lowerName_literals as (-> & -> & -> & _).
      split.
      - rewrite !lookup_insert_ne by done. by rewrite lookup_insert_eq.
      - rewrite lookup_insert_ne by done. by rewrite lookup_insert_eq. }
    destruct (Middleware.isLang (Middleware.queryLang req)) eqn:Hq.
    + destruct (isLang_Some _ Hq) as [lang Hlang].
      exists lang. eexists. cbn [fst]. rewrite Hlang in *.
      split; [done|]. split; [done|]. apply Hheaders.
    + destruct (Middleware.isLang (Middleware.cookieLang req)) eqn:Hc; cbn [negb fst].
      * destruct (isLang_Some _ Hc) as [lang Hlang].
        exists lang. eexists. rewrite Hlang in *.
        split; [done|]. split; [done|]. apply Hheaders.
      * eexists _, _. split; [apply pickFromAcceptLanguage_isLang|].
        split; [done|]. apply Hheaders.
Qed.

Lemma middleware_answers_witness :
  let page := RateLimitHttp.mkResponse 200 "" ∅ (RateLimitHttp.OtherBody "") in
  let env :=
    Middleware.mkEnv RateLimitHttp.defaultConfigs page page
      (RateLimitHttp.headerSet "X-RateLimit-Limit" "unlimited") in
  let req :=
    Middleware.mkRequest true "/api/orders"
      (RateLimitHttp.mkProxy None (Some "10.0.0.7") None)
      (Some "en") None (Some "ru-RU,ru;q=0.9,en;q=0.8") in
  ∃ lang response,
    Middleware.isLang (Some lang) = true
    ∧ (Middleware.middleware env req 0 ∅).1 = Middleware.Continued lang response
    ∧ RateLimitHttp.headerGet "X-RateLimit-Limit" (RateLimitHttp.headers response)
      = Some "100".
Proof.
  intros page env req.
  destruct (proj2 (proj2 (middleware_answers env req 0 ∅)))
    as (lang & response & Hlang & Hanswer & Hlimit & _);
    [reflexivity | by vm_compute |].
  exists lang, response. split; [exact Hlang|].
  split; [exact (proj1 Hanswer) | exact Hlimit].
Defined.

Section LanguageFacts.
Import RateLimitHttp Middleware.

Lemma toLowerUnit_idem c : toLowerUnit (toLowerUnit c) = toLowerUnit c.
Proof. by destruct c as [[] [] [] [] [] [] [] []]. Qed.

Lemma toLowerCase_idem s : toLowerCase (toLowerCase s) = toLowerCase s.
Proof.
  induction s as [|c s IH]; [done|]. cbn [toLowerCase].
  by rewrite toLowerUnit_idem, IH.
Qed.

Lemma toLowerCase_app a b :
  toLowerCase (a +:+ b) = toLowerCase a +:+ toLowerCase b.
Proof.
  induction a as [|c a IH]; [done|].
  change (String c a +:+ b) with (String c (a +:+ b)).
  cbn [toLowerCase]. rewrite IH. reflexivity.
Qed.

Lemma includes_unfold s sub :
  includes s sub
  = String.prefix sub s
    || match s with
       | String _ rest => includes rest sub
       | EmptyString => false
       end.
Proof. by destruct s. Qed.

Lemma includes_app a s sub :
  String.prefix sub s = true → includes (a +:+ s) sub = true.
Proof.
  intros Hs. induction a as [|c a IH].
  - change ("" +:+ s) with s. rewrite includes_unfold. by rewrite Hs.
  - change (String c a +:+ s) with (String c (a +:+ s)).
    rewrite includes_unfold, IH. apply orb_true_r.
Qed.

Lemma header_text h :
  toLowerCase (if truthy (Some h) then default "" (Some h) else "") = toLowerCase h.
Proof. destruct h; reflexivity. Qed.

End LanguageFacts.

(** X11.  The language picked from [Accept-Language].  The result is
    always one of the two supported languages; the header is read without
    regard to case; "uz" wins whenever the two letters occur anywhere in
    the header, whatever precedes or follows them (a tag listed earlier,
    a quality weight); a missing header gives the default "uz". *)
Theorem pickFromAcceptLanguage_choice :
  (∀ header, Middleware.pickFromAcceptLanguage header = "uz"
             ∨ Middleware.pickFromAcceptLanguage header = "ru")
  ∧ (∀ h, Middleware.pickFromAcceptLanguage (Some (Middleware.toLowerCase h))
          = Middleware.pickFromAcceptLanguage (Some h))
  ∧ (∀ before tag after,
       Middleware.toLowerCase tag = "uz" →
       Middleware.pickFromAcceptLanguage (Some (before +:+ tag +:+ after)) = "uz")
  ∧ Middleware.pickFromAcceptLanguage None = "uz".
Proof.
  split; [|split; [|split; [|done]]].
  - intros header. unfold Middleware.pickFromAcceptLanguage, Middleware.defaultLang.
    cbv zeta. destruct (Middleware.includes _ "uz"); [by left|].
    destruct (Middleware.includes _ "ru"); [by right | by left].
  - intros h. unfold Middleware.pickFromAcceptLanguage. cbv zeta.
    by rewrite !header_text, toLowerCase_idem.
  - intros before tag after Htag. unfold Middleware.pickFromAcceptLanguage.
    cbv zeta.
    rewrite header_text, !toLowerCase_app, Htag.
    rewrite includes_app; [reflexivity|].
    by destruct (Middleware.toLowerCase after).
Qed.

Lemma pickFromAcceptLanguage_choice_witness :
  Middleware.pickFromAcceptLanguage (Some ("ru-RU,ru;q=0.9," +:+ "UZ" +:+ ";q=0.1"))
  = "uz".
Proof.
  apply (proj1 (proj2 (proj2 pickFromAcceptLanguage_choice))). reflexivity.
Defined.

Section SchedulerMore.
Import Scheduler.

Lemma findLastOrder_max os :
  match findLastOrder os with
  | Some b => b ∈ os ∧ ∀ x, x ∈ os → orderNumber x <= orderNumber b
  | None => os = []
  end.
Proof.
  induction os as [|o os IH] using rev_ind; [done|].
  rewrite findLastOrder_snoc. destruct (findLastOrder os) as [b|].
  - destruct IH as [Hb Hmax].
    destruct (Z.ltb_spec (orderNumber b) (orderNumber o)).
    + split; [apply elem_of_app; right; left|].
      intros x [Hx | ->%list_elem_of_singleton]%elem_of_app; [|lia].
      specialize (Hmax x Hx). lia.
    + split; [apply elem_of_app; by left|].
      intros x [Hx | ->%list_elem_of_singleton]%elem_of_app; [by apply Hmax | lia].
  - subst os. split; [left|].
    by intros x ->%list_elem_of_singleton.
Qed.

(** The next order number lies above every number in the table. *)
Lemma nextOrderNumber_above os x :
  x ∈ os → orderNumber x < nextOrderNumber os.
Proof.
  intros Hx. unfold nextOrderNumber.
  pose proof (findLastOrder_max os) as Hmax.
  destruct (findLastOrder os) as [b|].
  - destruct Hmax as [_ Hmax]. specialize (Hmax x Hx). lia.
  - subst os. by apply elem_of_nil in Hx.
Qed.

(** What one pass of the [while] loop can do, whatever the oracle
    answers: nothing to the order table, or one appended row. *)
Lemma visitDate_step o client dbClientId adminId' date created w :
  let r := visitDate o client dbClientId adminId' date (created, w) in
  (r.1 = created ∧ orders r.2 = orders w)
  ∨ ∃ n, r.1 = created ++ [n] ∧ orders r.2 = orders w ++ [n]
         ∧ n = mkOrder (newId o (length (orders w))) (nextOrderNumber (orders w))
                 dbClientId adminId' None (cd_address client) (Some date)
                 (generateDeliveryTime o (draws w)) 1 (cd_calories client)
                 (cd_specialFeatures client) UNPAID CASH false PENDING None.
Proof.
  cbv zeta. unfold visitDate, nextOrderNumber.
  destruct (dayFlag _ _); [|by left].
  destruct (rejects o (OrderFindFirst _ _)); [by left|].
  destruct (rejects o (OrderCreate _ _)); [by left|].
  right. eexists. by cbn.
Qed.

(** The orders a client's loop appends: one for some of the dates, in
    the order of the dates, numbered upwards from the next number
    without a gap, with the scheduler's defaults. *)
Lemma foldl_visitDate_any o client dbClientId adminId' dates :
  ∀ created w,
  let r := foldl (λ a date, visitDate o client dbClientId adminId' date a)
             (created, w) dates in
  ∃ new,
    r.1 = created ++ new ∧ orders r.2 = orders w ++ new
    ∧ (deliveryDate <$> new) `sublist_of` (Some <$> dates)
    ∧ orderNumber <$> new
      = (λ i, nextOrderNumber (orders w) + Z.of_nat i) <$> seq 0 (length new)
    ∧ Forall (λ x, customerId x = dbClientId ∧ adminId x = adminId'
                   ∧ courierId x = None ∧ deliveredAt x = None
                   ∧ orderStatus x = PENDING ∧ paymentStatus x = UNPAID
                   ∧ paymentMethod x = CASH ∧ isPrepaid x = false
                   ∧ quantity x = 1 ∧ calories x = cd_calories client
                   ∧ deliveryAddress x = cd_address client) new.
Proof.
  induction dates as [|date dates IH]; intros created w; cbv zeta.
  - exists []. cbn. rewrite !app_nil_r. repeat split; constructor.
  - cbn [foldl].
    destruct (visitDate_step o client dbClientId adminId' date created w)
      as [[Hc Ho] | (n & Hc & Ho & Hn)];
      destruct (visitDate o client dbClientId adminId' date (created, w))
        as [created1 w1]; cbn [fst snd] in Hc, Ho;
      destruct (IH created1 w1) as (new & H1 & H2 & Hdates & Hnum & Hall);
      subst created1.
    + exists new. rewrite H1, H2, Ho. split; [done|]. split; [done|].
      split; [by apply sublist_cons|]. split; [by rewrite Hnum, Ho | done].
    + exists (n :: new). rewrite H1, H2, Ho, <- !app_assoc.
      split; [done|]. split; [done|].
      split; [subst n; cbn; by apply sublist_skip|].
      split.
      * cbn [fmap list_fmap length seq].
        change (list_fmap _ _ orderNumber new) with (orderNumber <$> new).
        rewrite Hnum, Ho. f_equal; [subst n; cbn; lia|].
        rewrite nextOrderNumber_snoc by (by subst n).
        rewrite <- seq_shift, <- list_fmap_compose.
        apply list_fmap_ext. intros _ i _. cbn. lia.
      * constructor; [by subst n | done].
Qed.

End SchedulerMore.

Section SchedulerAnyOracle.
Import Scheduler SchedulerVocabulary.

Lemma consecutiveFrom_nil number : consecutiveFrom number [].
Proof. done. Qed.

Lemma nextOrderNumber_app os new :
  consecutiveFrom (nextOrderNumber os) new →
  nextOrderNumber (os ++ new) = nextOrderNumber os + Z.of_nat (length new).
Proof.
  unfold consecutiveFrom. revert os.
  induction new as [|n new IH]; intros os Hnum.
  - rewrite app_nil_r. cbn. lia.
  - cbn [fmap list_fmap length seq] in Hnum.
    injection Hnum as Hn Hrest.
    change (list_fmap _ _ orderNumber new) with (orderNumber <$> new) in Hrest.
    assert (Hnext : nextOrderNumber (os ++ [n]) = nextOrderNumber os + 1)
      by (apply nextOrderNumber_snoc; lia).
    replace (os ++ n :: new) with ((os ++ [n]) ++ new) by (by rewrite <- app_assoc).
    rewrite IH.
    + rewrite Hnext. cbn [length]. lia.
    + rewrite Hrest, Hnext, <- seq_shift, <- list_fmap_compose.
      apply list_fmap_ext. intros _ i _. cbn. lia.
Qed.

Lemma consecutiveFrom_app os a b :
  consecutiveFrom (nextOrderNumber os) a →
  consecutiveFrom (nextOrderNumber (os ++ a)) b →
  consecutiveFrom (nextOrderNumber os) (a ++ b).
Proof.
  intros Ha Hb. rewrite nextOrderNumber_app in Hb by done.
  unfold consecutiveFrom in *.
  rewrite fmap_app, Ha, Hb, length_app, seq_app, fmap_app. f_equal.
  rewrite (Nat.add_comm 0 (length a)), <- fmap_add_seq, <- list_fmap_compose.
  apply list_fmap_ext. intros _ i _. cbn. lia.
Qed.

(** Appending consecutively numbered rows keeps the numbers distinct. *)
Lemma NoDup_numbers_app os new :
  consecutiveFrom (nextOrderNumber os) new →
  NoDup (orderNumber <$> os) → NoDup (orderNumber <$> (os ++ new)).
Proof.
  intros Hnew Hos. rewrite fmap_app. apply NoDup_app. split; [done|]. split.
  - intros k (x & -> & Hx)%list_elem_of_fmap Hk.
    rewrite Hnew in Hk. apply list_elem_of_fmap in Hk as (i & Hi & _).
    pose proof (nextOrderNumber_above os x Hx). lia.
  - rewrite Hnew. apply NoDup_fmap_2; [|apply NoDup_seq].
    intros i j Hij. lia.
Qed.

Lemma find_id_eq clientId rows dbClient :
  List.find (λ c, String.eqb (c_id c) clientId) rows = Some dbClient →
  c_id dbClient = clientId.
Proof. intros [_ Hid]%find_some. by apply String.eqb_eq. Qed.

Lemma find_admin_elem rows a :
  List.find (λ a, bool_decide (a_role a = SUPER_ADMIN)) rows = Some a →
  a ∈ rows ∧ a_role a = SUPER_ADMIN.
Proof.
  intros [Hin Hrole]%find_some. split; [by apply list_elem_of_In|].
  by apply bool_decide_eq_true in Hrole.
Qed.

(** What [createAutoOrdersForClient] does to the database, whatever the
    oracle answers. *)
Lemma createAutoOrders_any o client startDate endDate w :
  let r := createAutoOrdersForClient o client startDate endDate w in
  orders r.2 = orders w ++ r.1
  ∧ (deliveryDate <$> r.1) `sublist_of` (Some <$> loopDates startDate endDate)
  ∧ consecutiveFrom (nextOrderNumber (orders w)) r.1
  ∧ Forall (λ x, autoOrder (admins w) (cd_id client) x
                 ∧ calories x = cd_calories client
                 ∧ deliveryAddress x = cd_address client) r.1.
Proof.
  cbv zeta. unfold createAutoOrdersForClient.
  assert (Hnothing : orders w = orders w ++ []
            ∧ (deliveryDate <$> []) `sublist_of` (Some <$> loopDates startDate endDate)
            ∧ consecutiveFrom (nextOrderNumber (orders w)) []
            ∧ Forall (λ x, autoOrder (admins w) (cd_id client) x
                           ∧ calories x = cd_calories client
                           ∧ deliveryAddress x = cd_address client) []).
  { rewrite app_nil_r. split; [done|]. split; [apply sublist_nil_l|].
    split; [done | constructor]. }
  destruct (rejects o (CustomerFindUnique _)); [done|].
  destruct (List.find _ (customers w)) as [dbClient|] eqn:Hc; [|done].
  destruct (rejects o (AdminFindFirst _)); [done|].
  destruct (List.find _ (admins w)) as [defaultAdmin|] eqn:Ha; [|done].
  rewrite (orderLoop_dates _ _ _ _ _ _ _ _ eq_refl).
  destruct (foldl_visitDate_any o client (c_id dbClient) (a_id defaultAdmin)
              (loopDates startDate endDate) [] w)
    as (new & H1 & H2 & Hdates & Hnum & Hall).
  rewrite H1, H2. cbn [app]. split; [done|]. split; [done|]. split; [done|].
  apply find_id_eq in Hc. apply find_admin_elem in Ha as [Hin Hrole].
  eapply Forall_impl; [exact Hall|]. cbn.
  intros x (? & ? & ? & ? & ? & ? & ? & ? & ? & ? & ?).
  unfold autoOrder. rewrite <- Hc. repeat split; try done. eauto.
Qed.

Lemma loopDates_30_length today : length (loopDates today (addDays today 30)) = 31%nat.
Proof. by rewrite loopDates_30, length_fmap, length_seq. Qed.

(** One pass of the scheduler's [for] loop, whatever the oracle
    answers. *)
Lemma processClient_any o today report w c :
  ∃ created w',
    processClient o today (report, w) c = (report ++ [(c_id c, created)], w')
    ∧ orders w' = orders w ++ created ∧ admins w' = admins w
    ∧ consecutiveFrom (nextOrderNumber (orders w)) created
    ∧ (length created <= 31)%nat
    ∧ Forall (λ x, autoOrder (admins w) (c_id c) x ∧ calories x = 2000) created.
Proof.
  unfold processClient.
  pose proof (createAutoOrders_any o (toClientData c) today (addDays today 30) w)
    as (Horders & Hdates & Hnum & Hall).
  pose proof (createAutoOrders_admins o (toClientData c) today (addDays today 30) w)
    as Hadmins.
  destruct (createAutoOrdersForClient _ _ _ _ w) as [created w1].
  cbn [fst snd] in *. eexists _, _. split; [done|].
  split; [|split; [|split; [done|split]]].
  - unfold updateClientLastCheck. by case_match.
  - unfold updateClientLastCheck. by case_match.
  - apply sublist_length in Hdates.
    rewrite !length_fmap, loopDates_30_length in Hdates. done.
  - eapply Forall_impl; [exact Hall|]. cbn. tauto.
Qed.

(** The whole loop: the report's lines hold the rows appended to the
    order table, in order. *)
Lemma foldl_processClient_any o today :
  ∀ clients report w,
  let r := foldl (processClient o today) (report, w) clients in
  ∃ lines,
    r.1 = report ++ lines ∧ lines.*1 = c_id <$> clients
    ∧ orders r.2 = orders w ++ concat lines.*2
    ∧ consecutiveFrom (nextOrderNumber (orders w)) (concat lines.*2)
    ∧ Forall (λ line, (length line.2 <= 31)%nat
                      ∧ Forall (λ x, autoOrder (admins w) line.1 x
                                     ∧ calories x = 2000) line.2) lines.
Proof.
  induction clients as [|c clients IH]; intros report w; cbv zeta.
  - exists []. cbn. rewrite !app_nil_r. repeat split; constructor.
  - cbn [foldl].
    destruct (processClient_any o today report w c)
      as (created & w1 & -> & Ho & Ha & Hnum & Hlen & Hall).
    destruct (IH (report ++ [(c_id c, created)]) w1)
      as (lines & H1 & Hids & H2 & Hnums & Hlines).
    exists ((c_id c, created) :: lines).
    rewrite H1, H2, Ho, <- !app_assoc. cbn [fmap list_fmap concat fst snd].
    change (list_fmap _ _ fst lines) with (lines.*1).
    change (list_fmap _ _ snd lines) with (lines.*2).
    change (list_fmap _ _ c_id clients) with (c_id <$> clients).
    split; [done|]. split; [by rewrite Hids|]. split; [done|]. split.
    + apply consecutiveFrom_app; [done|]. by rewrite <- Ho.
    + constructor; [done|]. by rewrite <- Ha.
Qed.

End SchedulerAnyOracle.

(** X12.  What [createAutoOrdersForClient] does to the database, whatever
    queries reject and whatever the random draws are.  It only appends to
    the order table, and what it appends is what it returns; customers and
    administrators are left as they are.  The new rows belong to dates of
    the loop, in the order of the dates and at most one per date; they are
    numbered upwards from the highest number in the table plus one without
    a gap (a rejected insertion uses up no number), so distinct numbers
    stay distinct; each is PENDING, UNPAID, CASH, not prepaid, of quantity
    1, without a courier, for the given client and a super
    administrator. *)
Theorem createAutoOrdersForClient_appends (o : Scheduler.Oracle)
    (client : Scheduler.ClientData) (startDate endDate : Z) (w : Scheduler.World) :
  let r := Scheduler.createAutoOrdersForClient o client startDate endDate w in
  Scheduler.orders r.2 = Scheduler.orders w ++ r.1
  ∧ Scheduler.customers r.2 = Scheduler.customers w
  ∧ Scheduler.admins r.2 = Scheduler.admins w
  ∧ (deliveryDate <$> r.1)
      `sublist_of` (Some <$> Scheduler.loopDates startDate endDate)
  ∧ SchedulerVocabulary.consecutiveFrom
      (Scheduler.nextOrderNumber (Scheduler.orders w)) r.1
  ∧ Forall (λ x, SchedulerVocabulary.autoOrder (Scheduler.admins w)
                   (Scheduler.cd_id client) x
                 ∧ calories x = Scheduler.cd_calories client
                 ∧ deliveryAddress x = Scheduler.cd_address client) r.1
  ∧ (NoDup (orderNumber <$> Scheduler.orders w) →
     NoDup (orderNumber <$> Scheduler.orders r.2)).
Proof.
  cbv zeta.
  destruct (createAutoOrders_any o client startDate endDate w)
    as (Horders & Hdates & Hnum & Hall).
  split; [done|]. split; [apply createAutoOrders_customers|].
  split; [apply createAutoOrders_admins|].
  split; [done|]. split; [done|]. split; [done|].
  rewrite Horders. by apply NoDup_numbers_app.
Qed.

(** X13.  What a scheduler run does to the order table, whatever queries
    reject.  The table only grows, by exactly the rows the report lists,
    in the report's order; the administrators are untouched.  All new
    rows together are numbered upwards from the highest number plus one
    without a gap, so a table with distinct order numbers keeps distinct
    numbers.  Every report line belongs to an eligible customer, holds at
    most 31 orders, and its orders carry that customer's id, 2000
    calories and the scheduler's defaults. *)
Theorem runAutoOrderScheduler_appends (o : Scheduler.Oracle) (today : Z)
    (w : Scheduler.World) :
  let r := Scheduler.runAutoOrderScheduler o today w in
  Scheduler.orders r.2 = Scheduler.orders w ++ concat r.1.*2
  ∧ Scheduler.admins r.2 = Scheduler.admins w
  ∧ SchedulerVocabulary.consecutiveFrom
      (Scheduler.nextOrderNumber (Scheduler.orders w)) (concat r.1.*2)
  ∧ Forall (λ line,
              (∃ c, c ∈ Scheduler.eligibleClients today w
                    ∧ Scheduler.c_id c = line.1)
              ∧ (length line.2 <= 31)%nat
              ∧ Forall (λ x, SchedulerVocabulary.autoOrder
                               (Scheduler.admins w) line.1 x
                             ∧ calories x = 2000) line.2) r.1
  ∧ (NoDup (orderNumber <$> Scheduler.orders w) →
     NoDup (orderNumber <$> Scheduler.orders r.2)).
Proof.
  cbv zeta. unfold Scheduler.runAutoOrderScheduler.
  destruct (Scheduler.rejects o Scheduler.CustomerFindMany).
  { cbn. rewrite app_nil_r. repeat split; (done || constructor). }
  destruct (foldl_processClient_any o today (Scheduler.eligibleClients today w) [] w)
    as (lines & H1 & Hids & H2 & Hnum & Hlines).
  destruct (foldl_processClient_grows o today (Scheduler.eligibleClients today w) [] w)
    as [_ Hadmins].
  cbn [app] in H1. rewrite H1, H2.
  split; [done|]. split; [done|]. split; [done|]. split.
  - apply Forall_forall. intros line Hline.
    rewrite Forall_forall in Hlines. destruct (Hlines line Hline) as [Hlen Hall].
    split; [|done].
    assert (line.1 ∈ lines.*1) as Hid by (by apply list_elem_of_fmap_2).
    rewrite Hids in Hid. apply list_elem_of_fmap in Hid as (c & -> & Hc). eauto.
  - by apply NoDup_numbers_app.
Qed.

Section SchedulerFrame.
Import Scheduler SchedulerVocabulary.

Lemma NoDup_fmap_elem_inj {A B} (f : A → B) (l : list A) x y :
  NoDup (f <$> l) → x ∈ l → y ∈ l → f x = f y → x = y.
Proof.
  induction l as [|a l IH]; [by intros _ ?%elem_of_nil|].
  cbn [fmap list_fmap]. intros [Ha Hl]%NoDup_cons Hx Hy Hf.
  apply elem_of_cons in Hx as [->|Hx]; apply elem_of_cons in Hy as [->|Hy].
  - done.
  - exfalso. apply Ha. rewrite Hf. by apply list_elem_of_fmap_2.
  - exfalso. apply Ha. rewrite <- Hf. by apply list_elem_of_fmap_2.
  - by apply IH.
Qed.

Lemma elem_of_concat {A} (x : A) (ls : list (list A)) :
  x ∈ concat ls → ∃ l, x ∈ l ∧ l ∈ ls.
Proof.
  induction ls as [|l ls IH]; cbn [concat]; [by intros ?%elem_of_nil|].
  intros [Hx|Hx]%elem_of_app.
  - exists l. split; [done | left].
  - destruct (IH Hx) as (l' & ? & ?). exists l'. split; [done | by right].
Qed.

Lemma touched_true o processed clientId :
  touched o processed clientId = true ↔
  ∃ c, c ∈ processed ∧ c_id c = clientId
       ∧ rejects o (CustomerUpdate (c_id c)) = false.
Proof.
  unfold touched. rewrite existsb_exists. split.
  - intros (c & Hin & [Hid Hrej]%andb_true_iff). exists c.
    apply list_elem_of_In in Hin. apply String.eqb_eq in Hid.
    apply negb_true_iff in Hrej. done.
  - intros (c & Hin & Hid & Hrej). exists c.
    apply list_elem_of_In in Hin. split; [done|].
    apply andb_true_iff. split; [by apply String.eqb_eq|]. by rewrite Hrej.
Qed.

(** A customer that is not eligible shares its id with no eligible
    one, when ids are unique. *)
Lemma not_eligible_no_id today w c :
  c ∈ customers w → NoDup (c_id <$> customers w) →
  c_isActive c = false ∨ isEligible today c = false →
  ∀ e, e ∈ eligibleClients today w → c_id e ≠ c_id c.
Proof.
  intros Hc Hids Hnot e He Hid.
  apply eligibleClients_elem in He as (He & Hactive & Helig).
  assert (e = c) as -> by (by eapply NoDup_fmap_elem_inj).
  destruct Hnot; congruence.
Qed.

End SchedulerFrame.

(** X14.  A run leaves alone whom it does not serve.  With unique
    customer ids, a customer that is inactive or not eligible at the time
    of the run keeps its row as it is, last check included, and no order
    is added for it, whatever queries reject. *)
Theorem ineligible_customers_untouched (o : Scheduler.Oracle) (today : Z)
    (w : Scheduler.World) (c : Scheduler.Customer) :
  c ∈ Scheduler.customers w →
  NoDup (Scheduler.c_id <$> Scheduler.customers w) →
  Scheduler.c_isActive c = false ∨ Scheduler.isEligible today c = false →
  let r := Scheduler.runAutoOrderScheduler o today w in
  c ∈ Scheduler.customers r.2
  ∧ ∀ x, x ∈ Scheduler.orders r.2 → customerId x = Scheduler.c_id c →
         x ∈ Scheduler.orders w.
Proof.
  intros Hc Hids Hnot. cbv zeta.
  pose proof (not_eligible_no_id today w c Hc Hids Hnot) as Hother.
  unfold Scheduler.runAutoOrderScheduler.
  destruct (Scheduler.rejects o Scheduler.CustomerFindMany); [done|].
  destruct (foldl_processClient o today (Scheduler.eligibleClients today w) [] w)
    as [_ Hcust].
  destruct (foldl_processClient_any o today (Scheduler.eligibleClients today w) [] w)
    as (lines & H1 & Hlids & H2 & _ & Hlines).
  split.
  - rewrite Hcust. apply list_elem_of_fmap. exists c. split; [|done].
    destruct (Scheduler.touched o _ (Scheduler.c_id c)) eqn:Ht; [|done].
    apply touched_true in Ht as (e & He & Hid & _). by destruct (Hother e He).
  - intros x Hx Hid. rewrite H2 in Hx.
    apply elem_of_app in Hx as [Hx|Hx]; [done|]. exfalso.
    apply elem_of_concat in Hx as (created & Hx & Hcreated).
    apply list_elem_of_fmap in Hcreated as (line & -> & Hline).
    rewrite Forall_forall in Hlines. destruct (Hlines line Hline) as [_ Hall].
    rewrite Forall_forall in Hall. destruct (Hall x Hx) as [[Hcid _] _].
    assert (line.1 ∈ lines.*1) as Hl by (by apply list_elem_of_fmap_2).
    rewrite Hlids in Hl. apply list_elem_of_fmap in Hl as (e & He1 & He).
    apply (Hother e He). congruence.
Qed.

(** X15.  Without a super administrator a run creates no order at all,
    yet it still stamps the last check of every eligible customer whose
    update goes through. *)
Theorem no_super_admin_no_orders (o : Scheduler.Oracle) (today : Z)
    (w : Scheduler.World) :
  (∀ a, a ∈ Scheduler.admins w → Scheduler.a_role a ≠ SUPER_ADMIN) →
  let r := Scheduler.runAutoOrderScheduler o today w in
  Scheduler.orders r.2 = Scheduler.orders w
  ∧ Forall (λ line, line.2 = []) r.1
  ∧ (Scheduler.rejects o Scheduler.CustomerFindMany = false →
     ∀ c, c ∈ Scheduler.eligibleClients today w →
          Scheduler.rejects o (Scheduler.CustomerUpdate (Scheduler.c_id c)) = false →
          Scheduler.checkedAt today c ∈ Scheduler.customers r.2).
Proof.
  intros Hnone. cbv zeta. unfold Scheduler.runAutoOrderScheduler.
  destruct (Scheduler.rejects o Scheduler.CustomerFindMany).
  { split; [done|]. split; [constructor | done]. }
  destruct (foldl_processClient o today (Scheduler.eligibleClients today w) [] w)
    as [_ Hcust].
  destruct (foldl_processClient_any o today (Scheduler.eligibleClients today w) [] w)
    as (lines & H1 & Hlids & H2 & _ & Hlines).
  cbn [app] in H1.
  assert (Hempty : Forall (λ line : string * list Order, line.2 = []) lines).
  { eapply Forall_impl; [exact Hlines|]. cbn. intros [ident created] [_ Hall].
    cbn [snd] in *. destruct created as [|x created]; [done|]. exfalso.
    apply Forall_cons in Hall as [[(_ & (a & Ha & Hrole & _) & _) _] _].
    by apply (Hnone a). }
  split; [|split].
  - rewrite H2. assert (concat lines.*2 = []) as ->; [|by rewrite app_nil_r].
    clear -Hempty. induction Hempty as [|line lines Hline _ IH]; [done|].
    cbn [fmap list_fmap concat]. rewrite Hline. exact IH.
  - by rewrite H1.
  - intros _ c Hc Hupdate. rewrite Hcust.
    apply list_elem_of_fmap. exists c.
    pose proof Hc as (Hin & _ & _)%eligibleClients_elem. split; [|done].
    assert (Scheduler.touched o (Scheduler.eligibleClients today w)
              (Scheduler.c_id c) = true) as ->; [|done].
    apply touched_true. by exists c.
Qed.

Lemma ineligible_customers_untouched_witness :
  let today := 20000 * Scheduler.msPerDay in
  let served :=
    Scheduler.mkCustomer "customer-1" "Ann" "+998901234567" "1 Main Street"
      None (Some "daily") true (today - 31 * Scheduler.msPerDay) None in
  let recent :=
    Scheduler.mkCustomer "customer-2" "Bob" "+998907654321" "2 Side Street"
      None (Some "daily") true (today - 5 * Scheduler.msPerDay) None in
  let w :=
    Scheduler.mkWorld [served; recent]
      [Scheduler.mkAdmin "admin-1" SUPER_ADMIN] [] 0 in
  let o := Scheduler.mkOracle (λ _, false) (λ k, k) (λ n, "generated") in
  recent ∈ Scheduler.customers (Scheduler.runAutoOrderScheduler o today w).2.
Proof.
  intros today served recent w o.
  apply (proj1 (ineligible_customers_untouched o today w recent
                  ltac:(right; left)
                  ltac:(by apply (bool_decide_unpack _))
                  ltac:(by right))).
Defined.

Lemma no_super_admin_no_orders_witness :
  let today := 20000 * Scheduler.msPerDay in
  let customer :=
    Scheduler.mkCustomer "customer-1" "Ann" "+998901234567" "1 Main Street"
      None (Some "daily") true (today - 31 * Scheduler.msPerDay) None in
  let w :=
    Scheduler.mkWorld [customer] [Scheduler.mkAdmin "admin-2" MIDDLE_ADMIN] [] 0 in
  let o := Scheduler.mkOracle (λ _, false) (λ k, k) (λ n, "generated") in
  Scheduler.orders (Scheduler.runAutoOrderScheduler o today w).2 = [].
Proof.
  intros today customer w o.
  apply (proj1 (no_super_admin_no_orders o today w
    ltac:(by intros a ->%list_elem_of_singleton))).
Defined.

(** X16.  A scheduler run does not look for orders that exist already.
    A "daily" customer created at least 30 days ago stays eligible after
    it has been served, by its creation age alone, so a second run, however
    soon after the first, adds a second batch of 31 orders for it, on
    top of the first batch (no query rejecting in either run). *)
Theorem second_run_orders_again (o : Scheduler.Oracle) (today later : Z)
    (w : Scheduler.World) (c : Scheduler.Customer) :
  (∀ q, Scheduler.rejects o q = false) →
  c ∈ Scheduler.customers w →
  Scheduler.c_isActive c = true →
  Scheduler.c_orderPattern c = Some "daily" →
  30 * Scheduler.msPerDay <= today - Scheduler.c_createdAt c →
  today <= later →
  (∃ a, a ∈ Scheduler.admins w ∧ Scheduler.a_role a = SUPER_ADMIN) →
  let first := Scheduler.runAutoOrderScheduler o today w in
  let second := Scheduler.runAutoOrderScheduler o later (first.2) in
  ∃ batch1 batch2,
    (Scheduler.c_id c, batch1) ∈ first.1 ∧ length batch1 = 31%nat
    ∧ (Scheduler.c_id c, batch2) ∈ second.1 ∧ length batch2 = 31%nat
    ∧ Scheduler.orders second.2
      = Scheduler.orders w ++ concat first.1.*2 ++ concat second.1.*2.
Proof.
  intros Hok Hc Hactive Hdaily Hage Hlater Hadmin. cbv zeta.
  assert (Hresolve : ∀ ident, Scheduler.orderQueriesResolve o ident)
    by (intros ident date; by rewrite !Hok).
  assert (Hel : c ∈ Scheduler.eligibleClients today w).
  { apply eligibleClients_elem. split; [done|]. split; [done|].
    apply isEligible_spec. by left. }
  destruct (run_serves_daily_customer o today w c) as (batch1 & Hb1 & Hl1 & _);
    try done.
  (* the customer's row after the first run *)
  assert (Hrow : Scheduler.checkedAt today c
                 ∈ Scheduler.customers (Scheduler.runAutoOrderScheduler o today w).2).
  { unfold Scheduler.runAutoOrderScheduler. rewrite Hok.
    destruct (foldl_processClient o today (Scheduler.eligibleClients today w) [] w)
      as [_ ->].
    apply list_elem_of_fmap. exists c. split; [|done].
    assert (Scheduler.touched o (Scheduler.eligibleClients today w)
              (Scheduler.c_id c) = true) as ->; [|done].
    apply touched_true. exists c. by rewrite Hok. }
  assert (Hadmins : Scheduler.admins (Scheduler.runAutoOrderScheduler o today w).2
                    = Scheduler.admins w).
  { unfold Scheduler.runAutoOrderScheduler. rewrite Hok.
    apply (foldl_processClient_grows o today _ [] w). }
  destruct (run_serves_daily_customer o later
              (Scheduler.runAutoOrderScheduler o today w).2
              (Scheduler.checkedAt today c))
    as (batch2 & Hb2 & Hl2 & _); try done.
  { apply eligibleClients_elem. split; [done|]. split; [done|].
    apply isEligible_spec. left. cbn. lia. }
  { by rewrite Hadmins. }
  exists batch1, batch2. repeat (split; [done|]).
  unfold Scheduler.runAutoOrderScheduler at 1 2 3. rewrite !Hok.
  destruct (foldl_processClient_any o today (Scheduler.eligibleClients today w) [] w)
    as (lines1 & H1 & _ & H2 & _).
  cbn [app] in H1.
  destruct (foldl_processClient_any o later
              (Scheduler.eligibleClients later
                 (foldl (Scheduler.processClient o today) ([], w)
                    (Scheduler.eligibleClients today w)).2) []
              (foldl (Scheduler.processClient o today) ([], w)
                 (Scheduler.eligibleClients today w)).2)
    as (lines2 & H3 & _ & H4 & _).
  cbn [app] in H3.
  unfold Scheduler.runAutoOrderScheduler. rewrite !Hok.
  rewrite H4, H3, H2, H1. by rewrite <- app_assoc.
Qed.

Lemma second_run_orders_again_witness :
  let today := 20000 * Scheduler.msPerDay in
  let customer :=
    Scheduler.mkCustomer "customer-1" "Ann" "+998901234567" "1 Main Street"
      None (Some "daily") true (today - 31 * Scheduler.msPerDay) None in
  let w :=
    Scheduler.mkWorld [customer] [Scheduler.mkAdmin "admin-1" SUPER_ADMIN] [] 0 in
  let o := Scheduler.mkOracle (λ _, false) (λ k, k) (λ n, "generated") in
  let first := Scheduler.runAutoOrderScheduler o today w in
  let second := Scheduler.runAutoOrderScheduler o today (first.2) in
  ∃ batch1 batch2,
    ("customer-1", batch1) ∈ first.1 ∧ length batch1 = 31%nat
    ∧ ("customer-1", batch2) ∈ second.1 ∧ length batch2 = 31%nat
    ∧ Scheduler.orders second.2
      = Scheduler.orders w ++ concat first.1.*2 ++ concat second.1.*2.
Proof.
  intros today customer w o.
  apply (second_run_orders_again o today today w customer).
  - done.
  - left.
  - done.
  - done.
  - by vm_compute.
  - lia.
  - exists (Scheduler.mkAdmin "admin-1" SUPER_ADMIN). split; [left | done].
Defined.

(** X17.  The delivery time the scheduler draws.  Whatever the random
    draws, it is a five-character "HH:MM" with an hour of 11, 12 or 13
    and a minute of 0 to 59: 14:00, the upper end named in the code's
    comment, is never produced. *)
Theorem generateDeliveryTime_range (o : Scheduler.Oracle) (k : nat) :
  ∃ hour minute,
    11 <= hour <= 13 ∧ 0 <= minute <= 59
    ∧ Scheduler.generateDeliveryTime o k
      = Scheduler.pad2 hour +:+ ":" +:+ Scheduler.pad2 minute
    ∧ String.length (Scheduler.generateDeliveryTime o k) = 5%nat
    ∧ Scheduler.generateDeliveryTime o k ≠ "14:00".
Proof.
  unfold Scheduler.generateDeliveryTime, Scheduler.randomBelow. cbv zeta.
  pose proof (Z.mod_pos_bound (Z.of_nat (Scheduler.draw o k)) 3 eq_refl) as Hh.
  pose proof (Z.mod_pos_bound (Z.of_nat (Scheduler.draw o (S k))) 60 eq_refl) as Hm.
  exists (11 + Z.of_nat (Scheduler.draw o k) mod 3),
         (Z.of_nat (Scheduler.draw o (S k)) mod 60).
  split; [lia|]. split; [lia|]. split; [done|].
  assert (Z.of_nat (Scheduler.draw o k) mod 3 = 0
          ∨ Z.of_nat (Scheduler.draw o k) mod 3 = 1
          ∨ Z.of_nat (Scheduler.draw o k) mod 3 = 2) as [->|[->| ->]] by lia;
    (split; [reflexivity | discriminate]).
Qed.

Section WeekFacts.
Import Scheduler.

Lemma getDay_addDays date i : getDay (addDays date i) = (getDay date + i) mod 7.
Proof.
  unfold getDay, addDays. rewrite Z.div_add by done.
  rewrite Z.add_mod_idemp_l by done. f_equal. lia.
Qed.

Lemma days_nth name :
  name ∈ days → ∃ k, 0 <= k < 7 ∧ nth (Z.to_nat k) days "" = name.
Proof.
  unfold days. intros Hin.
  repeat (apply elem_of_cons in Hin as [->|Hin];
          [first [ by exists 0 | by exists 1 | by exists 2 | by exists 3
                 | by exists 4 | by exists 5 | by exists 6 ]|]).
  by apply elem_of_nil in Hin.
Qed.

End WeekFacts.

(** X18.  The weekday name of a date.  It is always one of the seven
    names (the lookup never falls outside the table), it repeats every
    seven days, and any seven consecutive dates carry all seven names. *)
Theorem getDayOfWeek_week (date : Z) :
  Scheduler.getDayOfWeek date ∈ Scheduler.days
  ∧ Scheduler.getDayOfWeek (Scheduler.addDays date 7) = Scheduler.getDayOfWeek date
  ∧ ∀ name, name ∈ Scheduler.days →
      ∃ i, 0 <= i < 7
           ∧ Scheduler.getDayOfWeek (Scheduler.addDays date i) = name.
Proof.
  split; [|split].
  - unfold Scheduler.getDayOfWeek. pose proof (getDay_range date) as Hr.
    assert (Scheduler.getDay date = 0 ∨ Scheduler.getDay date = 1
            ∨ Scheduler.getDay date = 2 ∨ Scheduler.getDay date = 3
            ∨ Scheduler.getDay date = 4 ∨ Scheduler.getDay date = 5
            ∨ Scheduler.getDay date = 6) as Hcases by lia.
    unfold Scheduler.days.
    destruct Hcases as [->|[->|[->|[->|[->|[->| ->]]]]]]; cbn;
      repeat (first [left | right]).
  - unfold Scheduler.getDayOfWeek. rewrite getDay_addDays.
    rewrite <- Z.add_mod_idemp_r by done. rewrite Z.mod_same by done.
    rewrite Z.add_0_r, Z.mod_small by apply getDay_range. done.
  - intros name (k & Hk & <-)%days_nth.
    exists ((k - Scheduler.getDay date) mod 7).
    split; [by apply Z.mod_pos_bound|].
    unfold Scheduler.getDayOfWeek. rewrite getDay_addDays.
    rewrite Z.add_mod_idemp_r by done.
    replace (Scheduler.getDay date + (k - Scheduler.getDay date)) with k by lia.
    by rewrite Z.mod_small.
Qed.

Section LifecycleMore.
Import Lifecycle RouteVocabulary.


(** The failures of [transition] are error answers. *)
Lemma transition_failure now u order a response :
  transition now u order a = inl response →
  ∃ code status, response = Failure code status.
Proof.
  destruct a; cbn [transition]; repeat case_match; intros [= <-]; eauto.
Qed.

(** What an update of [transition] does to the status. *)
Lemma transition_status now u order a d :
  transition now u order a = inr d →
  canBecome (orderStatus order) (orderStatus (applyUpdate d order)) = true
  ∧ fixedColumns (applyUpdate d order) = fixedColumns order.
Proof.
  unfold transition.
  destruct a, (role u), (orderStatus order) eqn:Hs; cbn; try discriminate;
    intros [= <-]; cbn; by rewrite ?Hs.
Qed.

Lemma canBecome_refl s : canBecome s s = true.
Proof. by destruct s. Qed.

Lemma canBecome_trans s1 s2 s3 :
  canBecome s1 s2 = true → canBecome s2 s3 = true → canBecome s1 s3 = true.
Proof. by destruct s1, s2, s3. Qed.

Lemma findOrder_unique orderId os order o :
  NoDup (id <$> os) → findOrder orderId os = Some order →
  o ∈ os → id o = orderId → o = order.
Proof.
  intros Hids Hfind Ho Hid. pose proof (findOrder_id _ _ _ Hfind) as Hid'.
  apply find_some in Hfind as [Hin _]. apply list_elem_of_In in Hin.
  eapply NoDup_fmap_elem_inj; [done..|]. congruence.
Qed.

(** One request: every row keeps its fixed columns and its status moves
    along [canBecome]. *)
Lemma PATCH_rows env now request w :
  NoDup (id <$> orders w) →
  Forall2 (λ o o', fixedColumns o' = fixedColumns o
                   ∧ canBecome (orderStatus o) (orderStatus o') = true)
    (orders w) (orders (PATCH env now request w).2).
Proof.
  intros Hids.
  assert (Hsame : ∀ os, Forall2 (λ o o', fixedColumns o' = fixedColumns o
                    ∧ canBecome (orderStatus o) (orderStatus o') = true) os os).
  { intros os. induction os; constructor; [|done].
    split; [done | apply canBecome_refl]. }
  unfold PATCH.
  destruct (user request) as [u|]; [|apply Hsame].
  destruct (body request) as [a|]; [|apply Hsame].
  destruct (parseAction a) as [action|]; [|apply Hsame].
  destruct (findOrder _ _) as [order|] eqn:Hfind; [|apply Hsame].
  destruct (transition now u order action) as [response|d] eqn:Htr; [apply Hsame|].
  cbn [snd]. rewrite purchaseDispatch_orders. cbn [orders].
  unfold updateOrder.
  assert (Hrow : ∀ o, o ∈ orders w → id o = orderIdParam request → o = order)
    by (intros o; by apply findOrder_unique).
  clear Hfind Hids. induction (orders w) as [|o os IH]; [constructor|].
  cbn [map]. constructor.
  - destruct (String.eqb (id o) (orderIdParam request)) eqn:Ho;
      [|split; [done | apply canBecome_refl]].
    apply String.eqb_eq in Ho. rewrite (Hrow o) by (done || left).
    destruct (transition_status _ _ _ _ _ Htr). done.
  - apply IH. intros o' Ho'. apply Hrow. by right.
Qed.

End LifecycleMore.

Section LifecycleAnswers.
Import Lifecycle RouteVocabulary.


Lemma fixedColumns_ids os os' :
  Forall2 (λ o o', fixedColumns o' = fixedColumns o
                   ∧ canBecome (orderStatus o) (orderStatus o') = true) os os' →
  id <$> os' = id <$> os.
Proof.
  induction 1 as [|o o' os os' [Hfix _] _ IH]; [done|].
  cbn [fmap list_fmap]. f_equal; [|exact IH].
  unfold fixedColumns in Hfix. congruence.
Qed.

Lemma rows_trans os1 os2 os3 :
  Forall2 (λ o o', fixedColumns o' = fixedColumns o
                   ∧ canBecome (orderStatus o) (orderStatus o') = true) os1 os2 →
  Forall2 (λ o o', fixedColumns o' = fixedColumns o
                   ∧ canBecome (orderStatus o) (orderStatus o') = true) os2 os3 →
  Forall2 (λ o o', fixedColumns o' = fixedColumns o
                   ∧ canBecome (orderStatus o) (orderStatus o') = true) os1 os3.
Proof.
  intros H12. revert os3.
  induction H12 as [|o1 o2 os1 os2 [Hf1 Hs1] _ IH]; intros os3 H23;
    inversion H23 as [|? o3 ? os3' [Hf2 Hs2] Hrest]; subst; constructor.
  - split; [congruence | by eapply canBecome_trans].
  - by apply IH.
Qed.

End LifecycleAnswers.



(** X20.  Orders only move forward.  With unique order ids, over any
    sequence of [PATCH] requests every row keeps its place and all the
    columns the handler does not own (id, number, customer, administrator,
    address, date, time, quantity, calories, features and the three
    payment columns), and its status moves only along the lifecycle: a
    delivered order stays delivered, no order returns to PENDING, none
    becomes FAILED, and a FAILED order can only become DELIVERED. *)
Theorem orders_only_move_forward (env : Lifecycle.Env)
    (reqs : list (Z * Lifecycle.Request)) (w : Lifecycle.World) :
  NoDup (id <$> Lifecycle.orders w) →
  Forall2 (λ o o', RouteVocabulary.fixedColumns o' = RouteVocabulary.fixedColumns o
                   ∧ RouteVocabulary.canBecome (orderStatus o) (orderStatus o') = true)
    (Lifecycle.orders w) (Lifecycle.orders (Lifecycle.serve env reqs w).2).
Proof.
  revert w. induction reqs as [|[now request] reqs IH]; intros w Hids.
  - cbn. clear Hids. induction (Lifecycle.orders w) as [|o os IH]; [constructor|].
    constructor; [|exact IH]. split; [done | apply canBecome_refl].
  - cbn [Lifecycle.serve].
    pose proof (PATCH_rows env now request w Hids) as Hstep.
    destruct (Lifecycle.PATCH env now request w) as [response w1].
    cbn [snd] in Hstep.
    specialize (IH w1). rewrite (fixedColumns_ids _ _ Hstep) in IH.
    specialize (IH Hids).
    destruct (Lifecycle.serve env reqs w1) as [responses w2]. cbn [snd] in *.
    by eapply rows_trans.
Qed.

Lemma orders_only_move_forward_witness :
  let order :=
    mkOrder "order-1" 7 "customer-1" "admin-1" None "1 Main Street" None
      "12:30" 1 2000 "" UNPAID CASH false DELIVERED (Some 5) in
  let w := Lifecycle.mkWorld [order] (mkTable [] true) [] in
  let courier := Lifecycle.mkUser "courier-1" COURIER in
  let env := Lifecycle.mkEnv (λ _, true) (λ _, false) in
  Forall2 (λ o o', RouteVocabulary.fixedColumns o' = RouteVocabulary.fixedColumns o
                   ∧ RouteVocabulary.canBecome (orderStatus o) (orderStatus o') = true)
    [order]
    (Lifecycle.orders
       (Lifecycle.serve env
          [(10, Lifecycle.actionRequest courier "order-1" Lifecycle.start_delivery);
           (11, Lifecycle.actionRequest courier "order-1" Lifecycle.complete_delivery)]
          w).2).
Proof.
  intros order w courier env.
  apply (orders_only_move_forward env
           [(10, Lifecycle.actionRequest courier "order-1" Lifecycle.start_delivery);
            (11, Lifecycle.actionRequest courier "order-1" Lifecycle.complete_delivery)]
           w).
  by apply (bool_decide_unpack _).
Defined.

Section CallerFacts.
Import Lifecycle.

(** What the dispatch block appends and what it does to the ledger
    depends on the order and the ledger only, not on the trace so far. *)
Lemma purchaseDispatch_shape env o os led :
  ∃ led' more, ∀ tr,
    purchaseDispatch env o (mkWorld os led tr) = mkWorld os led' (tr ++ more).
Proof.
  unfold purchaseDispatch. cbn [orders ledger trace].
  destruct (_ || _); [|exists led, []; intros tr; by rewrite app_nil_r].
  destruct (hasDispatched _ _ led) as [[|]|]; [by eexists _, _ | | by eexists _, _].
  destruct (dispatchPurchase env GA4 (id o)) as [r1 ev1].
  destruct (dispatchPurchase env Meta (id o)) as [r2 ev2].
  destruct (markDispatched _ _ led) as [r3 led'].
  exists led', ([LedgerRead (id o) "order_paid"] ++ ev1 ++ ev2
                ++ [LedgerInsert (id o) "order_paid"]).
  intros tr. by rewrite <- !app_assoc.
Qed.

End CallerFacts.

(** X21.  The handler never asks which courier is calling.  For pausing,
    resuming and completing, two couriers get the same answer, leave the
    same order table and the same ledger and cause the same outbound
    calls; the traces they leave differ in one place only, the caller
    named in the audit row of a successful update.  A success keeps the
    courier recorded on the order: an order started by one courier can be
    completed by any other and stays assigned to the first. *)
Theorem PATCH_ignores_which_courier (env : Lifecycle.Env) (now : Z)
    (u u' : Lifecycle.JWTPayload) (orderId : string) (a : Lifecycle.Action)
    (w : Lifecycle.World) :
  Lifecycle.role u = COURIER → Lifecycle.role u' = COURIER →
  a ≠ Lifecycle.start_delivery →
  let r := Lifecycle.PATCH env now (Lifecycle.actionRequest u orderId a) w in
  let r' := Lifecycle.PATCH env now (Lifecycle.actionRequest u' orderId a) w in
  r.1 = r'.1
  ∧ Lifecycle.orders r.2 = Lifecycle.orders r'.2
  ∧ Lifecycle.ledger r.2 = Lifecycle.ledger r'.2
  ∧ Lifecycle.externalCalls (Lifecycle.trace r.2)
    = Lifecycle.externalCalls (Lifecycle.trace r'.2)
  ∧ ((Lifecycle.trace r.2 = Lifecycle.trace w
      ∧ Lifecycle.trace r'.2 = Lifecycle.trace w)
     ∨ ∃ order status rest,
         Lifecycle.findOrder orderId (Lifecycle.orders w) = Some order
         ∧ Lifecycle.trace r.2
           = Lifecycle.trace w
             ++ Lifecycle.AuditLog (Lifecycle.userId u) COURIER orderId a
                  (orderNumber order) status :: rest
         ∧ Lifecycle.trace r'.2
           = Lifecycle.trace w
             ++ Lifecycle.AuditLog (Lifecycle.userId u') COURIER orderId a
                  (orderNumber order) status :: rest)
  ∧ ∀ order',
      r.1 = Lifecycle.Success order' →
      ∃ order, Lifecycle.findOrder orderId (Lifecycle.orders w) = Some order
               ∧ courierId order' = courierId order.
Proof.
  intros Hu Hu' Ha. cbv zeta.
  destruct (Lifecycle.findOrder orderId (Lifecycle.orders w)) as [order|] eqn:Hfind.
  - rewrite !(PATCH_found _ _ _ _ _ _ _ Hfind).
    assert (Lifecycle.transition now u order a = Lifecycle.transition now u' order a)
      as Hsame by (destruct a; cbn [Lifecycle.transition]; by rewrite ?Hu, ?Hu').
    rewrite <- Hsame.
    destruct (Lifecycle.transition now u order a) as [response|d] eqn:Htr.
    + destruct (transition_failure _ _ _ _ _ Htr) as (code & status & ->).
      cbn [fst snd]. repeat (split; [done|]). split; [by left | done].
    + rewrite Hu, Hu'.
      destruct (purchaseDispatch_shape env (Lifecycle.applyUpdate d order)
                  (Lifecycle.updateOrder orderId d (Lifecycle.orders w))
                  (Lifecycle.ledger w)) as (led' & more & Hshape).
      rewrite !Hshape.
      cbn [fst snd Lifecycle.orders Lifecycle.ledger Lifecycle.trace].
      rewrite (findOrder_id _ _ _ Hfind).
      split; [done|]. split; [done|]. split; [done|]. split.
      { rewrite !externalCalls_app. by cbn. }
      split.
      { right. exists order, (orderStatus (Lifecycle.applyUpdate d order)), more.
        split; [done|]. by rewrite <- !app_assoc. }
      intros order' [= <-]. exists order. split; [done|].
      destruct a; try done; clear Ha Hsame Hshape; cbn [Lifecycle.transition] in Htr;
        repeat case_match; try discriminate; by injection Htr as <-.
  - unfold Lifecycle.PATCH, Lifecycle.actionRequest.
    cbn [Lifecycle.user Lifecycle.body Lifecycle.orderIdParam].
    rewrite parseAction_name, Hfind. cbn [fst snd].
    repeat (split; [done|]). split; [by left | done].
Qed.

Lemma PATCH_ignores_which_courier_witness :
  let order :=
    mkOrder "order-1" 7 "customer-1" "admin-1" (Some "courier-1") "1 Main Street"
      None "12:30" 1 2000 "" UNPAID CASH false IN_DELIVERY None in
  let w := Lifecycle.mkWorld [order] (mkTable [] true) [] in
  let env := Lifecycle.mkEnv (λ _, true) (λ _, false) in
  let r :=
    Lifecycle.PATCH env 9
      (Lifecycle.actionRequest (Lifecycle.mkUser "courier-1" COURIER) "order-1"
         Lifecycle.complete_delivery) w in
  let r' :=
    Lifecycle.PATCH env 9
      (Lifecycle.actionRequest (Lifecycle.mkUser "courier-2" COURIER) "order-1"
         Lifecycle.complete_delivery) w in
  r.1 = r'.1 ∧ Lifecycle.orders r.2 = Lifecycle.orders r'.2.
Proof.
  intros order w env r r'.
  destruct (PATCH_ignores_which_courier env 9 (Lifecycle.mkUser "courier-1" COURIER)
              (Lifecycle.mkUser "courier-2" COURIER) "order-1"
              Lifecycle.complete_delivery w eq_refl eq_refl ltac:(discriminate))
    as (Hanswer & Horders & _).
  split; [exact Hanswer | exact Horders].
Defined.

Section DispatchOnce.
Import Lifecycle OrdersRoute RouteVocabulary.

Lemma purchaseDispatch_block env o w :
  purchaseDispatch env o w
  = dispatchBlock env
      (bool_decide (paymentStatus o = PAID)
       || (bool_decide (orderStatus o = DELIVERED)
           && bool_decide (paymentMethod o = CASH))) o w.
Proof. reflexivity. Qed.

Lemma createdDispatch_block env o w :
  createdDispatch env o w
  = dispatchBlock env (bool_decide (paymentStatus o = PAID)) o w.
Proof. reflexivity. Qed.

Lemma fetchesFor_app orderId tr1 tr2 :
  fetchesFor orderId (tr1 ++ tr2) = fetchesFor orderId tr1 ++ fetchesFor orderId tr2.
Proof. unfold fetchesFor. apply List.filter_app. Qed.

(** The outbound calls of one dispatch carry the order's id, one per
    configured endpoint. *)
Lemma fetchesFor_attempts env orderId other :
  fetchesFor orderId
    ((dispatchPurchase env GA4 other).2 ++ (dispatchPurchase env Meta other).2)
  = (if String.eqb other orderId
     then (dispatchPurchase env GA4 other).2 ++ (dispatchPurchase env Meta other).2
     else [])
  ∧ ((dispatchPurchase env GA4 other).2 ++ (dispatchPurchase env Meta other).2)
      `sublist_of` [Fetch GA4 other; Fetch Meta other].
Proof.
  unfold dispatchPurchase, fetchesFor.
  destruct (configured env GA4), (configured env Meta); cbn;
    destruct (String.eqb other orderId); (split; [done|]);
    repeat first [ apply sublist_nil_l | apply sublist_skip | apply sublist_cons ].
Qed.

Lemma fetchesFor_dispatch orderId tr oid eventName ev :
  fetchesFor orderId
    ((tr ++ [LedgerRead oid eventName]) ++ ev ++ [LedgerInsert oid eventName])
  = fetchesFor orderId tr ++ fetchesFor orderId ev.
Proof.
  unfold fetchesFor. rewrite !List.filter_app. cbn. by rewrite !app_nil_r.
Qed.

Lemma dispatchBlock_orders env c o w : orders (dispatchBlock env c o w) = orders w.
Proof.
  unfold dispatchBlock. destruct c; [|done].
  destruct (hasDispatched _ _ _) as [[|]|]; try done.
  destruct (dispatchPurchase env GA4 _), (dispatchPurchase env Meta _).
  by destruct (markDispatched _ _ _).
Qed.

(** The dispatch block keeps [sentOnce]. *)
Lemma dispatchBlock_sentOnce env c o w :
  sentOnce w → sentOnce (dispatchBlock env c o w).
Proof.
  intros [Hreach Hsent]. unfold dispatchBlock. destruct c; [|done].
  rewrite table_hasDispatched, Hreach. cbn [andb].
  destruct (decide ((id o, "order_paid") ∈ rows (ledger w))) as [Hin|Hout].
  - rewrite bool_decide_eq_true_2 by done. split; [done|].
    intros orderId. cbn [trace ledger]. rewrite fetchesFor_app. cbn.
    rewrite app_nil_r. apply Hsent.
  - rewrite bool_decide_eq_false_2 by done.
    generalize (λ orderId, fetchesFor_attempts env orderId (id o)).
    destruct (dispatchPurchase env GA4 (id o)) as [r1 ev1].
    destruct (dispatchPurchase env Meta (id o)) as [r2 ev2].
    cbn [snd]. intros Hatt.
    unfold markDispatched. cbn [create Table_Delegate]. unfold tableCreate.
    rewrite Hreach, bool_decide_eq_false_2 by done.
    split; [done|]. intros orderId. cbn [trace ledger rows].
    rewrite (app_assoc ev1 ev2), fetchesFor_dispatch.
    destruct (Hatt orderId) as [-> Hsub].
    destruct (String.eqb_spec (id o) orderId) as [<-|Hne].
    + right. split; [apply elem_of_app; right; left|].
      destruct (Hsent (id o)) as [->|[Hin _]]; [done|]. by destruct Hout.
    + rewrite !app_nil_r. destruct (Hsent orderId) as [Hnone|[Hin Hsub']].
      * by left.
      * right. split; [apply elem_of_app; by left | done].
Qed.

Lemma PATCH_sentOnce env now request w :
  sentOnce w → sentOnce (PATCH env now request w).2.
Proof.
  intros Hw.
  assert (Hrow : ∀ os e, (∀ i, fetchesFor i [e] = []) →
            sentOnce (mkWorld os (ledger w) (trace w ++ [e]))).
  { intros os e He. destruct Hw as [Hreach Hsent]. split; [done|].
    intros orderId. cbn [trace ledger]. rewrite fetchesFor_app, He, app_nil_r.
    apply Hsent. }
  unfold PATCH.
  destruct (user request) as [u|]; [|done].
  destruct (body request) as [a|]; [|by apply Hrow].
  destruct (parseAction a) as [action|]; [|done].
  destruct (findOrder _ _) as [order|]; [|done].
  destruct (transition now u order action) as [response|d]; [done|].
  cbn [snd]. rewrite purchaseDispatch_block. apply dispatchBlock_sentOnce.
  by apply Hrow.
Qed.

Lemma POST_sentOnce env gen now request s :
  sentOnce (world s) → sentOnce (world (POST env gen now request s).2).
Proof.
  intros Hw. unfold POST. cbv zeta.
  repeat case_match; cbn [snd world]; try exact Hw;
    rewrite createdDispatch_block; apply dispatchBlock_sentOnce;
    destruct Hw as [Hreach Hsent]; by split.
Qed.

Lemma step_sentOnce s op : sentOnce (world s) → sentOnce (world (step s op)).
Proof.
  intros Hw. destruct op as [env gen now request|env now request|o today];
    cbn [step].
  - by apply POST_sentOnce.
  - unfold patch. pose proof (PATCH_sentOnce env now request (world s) Hw).
    by destruct (PATCH env now request (world s)).
  - unfold schedulerRun. cbn [world]. destruct Hw as [Hreach Hsent]. by split.
Qed.

End DispatchOnce.

(** X22.  A purchase confirmation is sent at most once per order and
    endpoint, whatever happens to the backend.  Starting from a state in
    which the ledger can be reached and every order id with an outbound
    call has its ledger row and at most one call per endpoint (an empty
    trace, for one), the same holds after any sequence of order creations,
    lifecycle requests and scheduler runs, in any environment: for every
    order id the outbound calls are at most one to GA4 followed by at most
    one to Meta, and none is made without the ledger row being written. *)
Theorem purchase_sent_at_most_once (ops : list OrdersRoute.Op)
    (s : OrdersRoute.State) :
  RouteVocabulary.sentOnce (OrdersRoute.world s) →
  RouteVocabulary.sentOnce (OrdersRoute.world (foldl OrdersRoute.step s ops)).
Proof.
  revert s. induction ops as [|op ops IH]; intros s Hs; [done|].
  cbn [foldl]. apply IH. by apply step_sentOnce.
Qed.

Lemma purchase_sent_at_most_once_witness :
  let env := Lifecycle.mkEnv (λ _, true) (λ _, false) in
  let admin := Lifecycle.mkUser "admin-1" SUPER_ADMIN in
  let courier := Lifecycle.mkUser "courier-1" COURIER in
  let data :=
    OrdersRoute.mkCreateOrder "Ann" "+998901234567" "1 Main Street" None 1 2000
      None PAID CARD true None None in
  let gen := OrdersRoute.mkGenerated "customer-1" "order-1" true None in
  let s :=
    OrdersRoute.mkState [] [Scheduler.mkAdmin "admin-1" SUPER_ADMIN]
      (Lifecycle.mkWorld [] (mkTable [] true) []) [] 0 in
  RouteVocabulary.sentOnce
    (OrdersRoute.world
       (foldl OrdersRoute.step s
          [OrdersRoute.Post env gen 0
             (OrdersRoute.mkPost (Some admin) (OrdersRoute.Accepted data));
           OrdersRoute.Patch env 1
             (Lifecycle.actionRequest courier "order-1" Lifecycle.complete_delivery);
           OrdersRoute.Patch env 2
             (Lifecycle.actionRequest courier "order-1" Lifecycle.complete_delivery)])).
Proof.
  intros env admin courier data gen s.
  apply (purchase_sent_at_most_once _ s).
  split; [reflexivity|]. intros orderId. by left.
Defined.

Section LedgerDown.
Import Lifecycle.

(** With the ledger out of reach the read counts as "not dispatched"
    and the insert is lost. *)
Lemma purchaseDispatch_unreachable env o w :
  due o → reachable (ledger w) = false →
  purchaseDispatch env o w =
  mkWorld (orders w) (ledger w)
    (trace w ++ [LedgerRead (id o) "order_paid"] ++ attempts env (id o)
       ++ [LedgerInsert (id o) "order_paid"]).
Proof.
  intros Hdue Hdown. unfold purchaseDispatch.
  rewrite (due_shouldDispatch _ Hdue), table_hasDispatched, Hdown.
  cbn [andb]. unfold attempts.
  destruct (dispatchPurchase env GA4 (id o)) as [r1 ev1].
  destruct (dispatchPurchase env Meta (id o)) as [r2 ev2].
  unfold markDispatched. cbn [create Table_Delegate]. unfold tableCreate.
  rewrite Hdown. cbn [snd]. destruct w as [os [rs up] tr]. cbn in *. subst up.
  by rewrite <- !app_assoc.
Qed.

End LedgerDown.

(** X23.  With the ledger out of reach nothing is remembered: every
    [complete_delivery] a courier sends for a cash (or paid) order
    succeeds and sends the purchase confirmation again.  So n replays
    make n rounds of outbound calls, each round one [fetch] to GA4 if it
    has its credentials followed by one to Meta if it has its, and the
    ledger stays as it was. *)
Theorem unreachable_ledger_repeats_dispatch (env : Lifecycle.Env)
    (u : Lifecycle.JWTPayload) (orderId : string) (times : list Z) :
  Lifecycle.role u = COURIER →
  ∀ (w : Lifecycle.World) (order : Order),
  Lifecycle.findOrder orderId (Lifecycle.orders w) = Some order →
  paymentMethod order = CASH ∨ paymentStatus order = PAID →
  reachable (Lifecycle.ledger w) = false →
  let replays :=
    (λ now, (now, Lifecycle.actionRequest u orderId Lifecycle.complete_delivery))
      <$> times in
  let served := Lifecycle.serve env replays w in
  Lifecycle.externalCalls (Lifecycle.trace served.2)
  = Lifecycle.externalCalls (Lifecycle.trace w)
    ++ concat ((λ _, (if Lifecycle.configured env Lifecycle.GA4
                      then [Lifecycle.Fetch Lifecycle.GA4 orderId] else [])
                     ++ (if Lifecycle.configured env Lifecycle.Meta
                         then [Lifecycle.Fetch Lifecycle.Meta orderId] else []))
                 <$> times)
  ∧ Lifecycle.ledger served.2 = Lifecycle.ledger w
  ∧ Forall (λ r, ∃ o, r = Lifecycle.Success o ∧ orderStatus o = DELIVERED) served.1.
Proof.
  intros Hrole.
  change (λ _ : Z, (if Lifecycle.configured env Lifecycle.GA4
                    then [Lifecycle.Fetch Lifecycle.GA4 orderId] else [])
                   ++ (if Lifecycle.configured env Lifecycle.Meta
                       then [Lifecycle.Fetch Lifecycle.Meta orderId] else []))
    with (λ _ : Z, Lifecycle.expectedCalls env orderId).
  rewrite <- attempts_expected.
  induction times as [|now times IH]; intros w order Hfind Hpay Hdown.
  - cbn. by rewrite app_nil_r.
  - cbv zeta. cbn [fmap list_fmap Lifecycle.serve concat].
    pose proof (complete_delivery_any_state now u order Hrole) as Htr.
    destruct (PATCH_courier env now u orderId Lifecycle.complete_delivery w order _
                Hfind Htr) as [-> Hfind'].
    set (order' := Lifecycle.applyUpdate
                     (Lifecycle.mkUpdate (Some DELIVERED) None (Some now)) order) in *.
    assert (Hdue : Lifecycle.due order').
    { destruct Hpay as [Hcash|Hpaid]; [right | left]; done. }
    assert (Hid : id order' = orderId) by (by apply findOrder_id in Hfind).
    rewrite purchaseDispatch_unreachable in * by done.
    cbn [Lifecycle.orders Lifecycle.ledger Lifecycle.trace] in *.
    match goal with
    | |- context [Lifecycle.serve env _ ?w1] =>
        specialize (IH w1 order' Hfind' Hpay Hdown); cbv zeta in IH;
        change (list_fmap _ _ ?f times) with (f <$> times);
        destruct (Lifecycle.serve env
                    ((λ now, (now, Lifecycle.actionRequest u orderId
                                     Lifecycle.complete_delivery)) <$> times) w1)
          as [responses w2]
    end.
    cbn [fst snd Lifecycle.trace Lifecycle.ledger] in *.
    destruct IH as (Hcalls & Hledger & Hall).
    split; [|split; [done|]].
    + rewrite Hcalls, Hid, !externalCalls_app, externalCalls_attempts. cbn.
      by rewrite !app_nil_r, <- !app_assoc.
    + constructor; [|done]. by exists order'.
Qed.

Lemma unreachable_ledger_repeats_dispatch_witness :
  let order :=
    mkOrder "order-1" 7 "customer-1" "admin-1" (Some "courier-1") "1 Main Street"
      None "12:30" 1 2000 "" UNPAID CASH false IN_DELIVERY None in
  let w := Lifecycle.mkWorld [order] (mkTable [] false) [] in
  let env := Lifecycle.mkEnv (λ _, true) (λ _, false) in
  let courier := Lifecycle.mkUser "courier-1" COURIER in
  Lifecycle.externalCalls
    (Lifecycle.trace
       (Lifecycle.serve env
          ((λ now, (now, Lifecycle.actionRequest courier "order-1"
                           Lifecycle.complete_delivery)) <$> [1; 2; 3]) w).2)
  = [Lifecycle.Fetch Lifecycle.GA4 "order-1"; Lifecycle.Fetch Lifecycle.Meta "order-1";
     Lifecycle.Fetch Lifecycle.GA4 "order-1"; Lifecycle.Fetch Lifecycle.Meta "order-1";
     Lifecycle.Fetch Lifecycle.GA4 "order-1"; Lifecycle.Fetch Lifecycle.Meta "order-1"].
Proof.
  intros order w env courier.
  apply (unreachable_ledger_repeats_dispatch env courier "order-1" [1; 2; 3]
           eq_refl w order eq_refl (or_introl eq_refl) eq_refl).
Defined.

Section FilterFacts.
Import OrdersRoute RouteVocabulary.

Lemma guard_false (b : bool) (rest : bool) :
  (if b then false else rest) = true ↔ b = false ∧ rest = true.
Proof. destruct b; [split; [done | by intros [? _]] | by split; [|intros [_ ?]]]. Qed.

Lemma flag_unless (flag : bool) (P : Prop) `{!Decision P} :
  flag && bool_decide (¬ P) = false ↔ (flag = true → P).
Proof.
  destruct flag; cbn; [|naive_solver].
  rewrite bool_decide_eq_false. split; [intros ? _; by apply dec_stable | auto].
Qed.

Lemma flag_if (flag : bool) (P : Prop) `{!Decision P} :
  flag && bool_decide P = false ↔ (flag = true → ¬ P).
Proof.
  destruct flag; cbn; [|naive_solver].
  rewrite bool_decide_eq_false. naive_solver.
Qed.

Lemma flag_negb (flag b : bool) : flag && negb b = false ↔ (flag = true → b = true).
Proof. destruct flag, b; naive_solver. Qed.

(** The filter callback read as a conjunction: an order passes when it
    meets the condition of every flag that is set. *)
Lemma passesFilters_spec f o :
  passesFilters f o = true ↔
  (successful f = true → orderStatus o = DELIVERED)
  ∧ (failed f = true → orderStatus o = FAILED)
  ∧ (pending f = true → orderStatus o = PENDING)
  ∧ (inDelivery f = true → orderStatus o = IN_DELIVERY)
  ∧ (prepaid f = true → isPrepaid o = true)
  ∧ (unpaid f = true → paymentStatus o = UNPAID)
  ∧ (card f = true → paymentMethod o = CARD)
  ∧ (cash f = true → paymentMethod o = CASH)
  ∧ (calories1200 f = true → calories o = 1200)
  ∧ (calories1600 f = true → calories o = 1600)
  ∧ (calories2000 f = true → calories o = 2000)
  ∧ (calories2500 f = true → calories o = 2500)
  ∧ (calories3000 f = true → calories o = 3000)
  ∧ (singleItem f = true → quantity o = 1)
  ∧ (multiItem f = true → quantity o ≠ 1).
Proof.
  unfold passesFilters.
  rewrite !guard_false, !flag_unless, flag_negb, flag_if. tauto.
Qed.

Lemma bothFilters_spec f g o :
  passesFilters (bothFilters f g) o = passesFilters f o && passesFilters g o.
Proof.
  apply eq_true_iff_eq.
  rewrite andb_true_iff, !passesFilters_spec. unfold bothFilters. cbn.
  rewrite !orb_true_iff.
  split.
  - intros (H1 & H2 & H3 & H4 & H5 & H6 & H7 & H8 & H9 & H10 & H11 & H12
            & H13 & H14 & H15).
    split; repeat split; intros ?; auto.
  - intros [(H1 & H2 & H3 & H4 & H5 & H6 & H7 & H8 & H9 & H10 & H11 & H12
             & H13 & H14 & H15)
            (G1 & G2 & G3 & G4 & G5 & G6 & G7 & G8 & G9 & G10 & G11 & G12
             & G13 & G14 & G15)].
    repeat split; intros [?|?]; auto.
Qed.

End FilterFacts.

(** X24.  The listing filters of [GET].  Filtering only removes rows
    and keeps their order; a courier's listing, and a request whose filter
    object has no key, are not filtered at all.  The flags work as a
    conjunction: filtering by two filter objects together is filtering by
    one and then by the other.  So two different status flags leave
    nothing, and as there is no flag for PAUSED, any status flag hides
    every paused order. *)
Theorem filterOrders_conjunctive (role : Role) (hasKeys : bool)
    (f g : OrdersRoute.Filters) (orders : list Order) :
  OrdersRoute.filterOrders role hasKeys f orders `sublist_of` orders
  ∧ OrdersRoute.filterOrders COURIER hasKeys f orders = orders
  ∧ OrdersRoute.filterOrders role false f orders = orders
  ∧ OrdersRoute.filterOrders role hasKeys (RouteVocabulary.bothFilters f g) orders
    = OrdersRoute.filterOrders role hasKeys g
        (OrdersRoute.filterOrders role hasKeys f orders)
  ∧ (role ≠ COURIER → hasKeys = true →
     OrdersRoute.successful f && OrdersRoute.failed f
     || OrdersRoute.successful f && OrdersRoute.pending f
     || OrdersRoute.successful f && OrdersRoute.inDelivery f
     || OrdersRoute.failed f && OrdersRoute.pending f
     || OrdersRoute.failed f && OrdersRoute.inDelivery f
     || OrdersRoute.pending f && OrdersRoute.inDelivery f = true →
     OrdersRoute.filterOrders role hasKeys f orders = [])
  ∧ (role ≠ COURIER → hasKeys = true →
     RouteVocabulary.anyStatusFlag f = true →
     Forall (λ o, orderStatus o ≠ PAUSED)
       (OrdersRoute.filterOrders role hasKeys f orders)).
Proof.
  unfold OrdersRoute.filterOrders.
  split; [|split; [|split; [|split; [|split]]]].
  - destruct (_ && _); [|done].
    induction orders as [|o os IH]; [done|]. cbn [List.filter].
    destruct (OrdersRoute.passesFilters f o);
      [by apply sublist_skip | by apply sublist_cons].
  - done.
  - by rewrite andb_false_r.
  - destruct (_ && _); [|done].
    induction orders as [|o os IH]; [done|]. cbn [List.filter].
    rewrite bothFilters_spec.
    destruct (OrdersRoute.passesFilters f o); cbn [andb List.filter];
      [|exact IH].
    destruct (OrdersRoute.passesFilters g o); by rewrite IH.
  - intros Hrole -> Hclash. rewrite bool_decide_eq_true_2 by done. cbn [andb].
    induction orders as [|o os IH]; [done|]. cbn [List.filter].
    destruct (OrdersRoute.passesFilters f o) eqn:Hpass; [|exact IH].
    exfalso. apply passesFilters_spec in Hpass as (H1 & H2 & H3 & H4 & _).
    destruct (OrdersRoute.successful f), (OrdersRoute.failed f),
      (OrdersRoute.pending f), (OrdersRoute.inDelivery f);
      try discriminate Hclash;
      repeat match goal with
             | H : true = true → _ |- _ => specialize (H eq_refl)
             end; congruence.
  - intros Hrole -> Hflag. rewrite bool_decide_eq_true_2 by done. cbn [andb].
    apply Forall_forall. intros o Ho.
    apply list_elem_of_In, filter_In in Ho as [_ Hpass].
    apply passesFilters_spec in Hpass as (H1 & H2 & H3 & H4 & _).
    unfold RouteVocabulary.anyStatusFlag in Hflag.
    destruct (OrdersRoute.successful f), (OrdersRoute.failed f),
      (OrdersRoute.pending f), (OrdersRoute.inDelivery f);
      try discriminate Hflag;
      repeat match goal with
             | H : true = true → _ |- _ => specialize (H eq_refl)
             end; congruence.
Qed.

Lemma filterOrders_conjunctive_witness :
  let paused :=
    mkOrder "order-1" 7 "customer-1" "admin-1" (Some "courier-1") "1 Main Street"
      None "12:30" 1 2000 "" UNPAID CASH false PAUSED None in
  let inDeliveryOnly :=
    OrdersRoute.mkFilters false false false true false false false false
      false false false false false false false in
  Forall (λ o, orderStatus o ≠ PAUSED)
    (OrdersRoute.filterOrders SUPER_ADMIN true inDeliveryOnly [paused]).
Proof.
  intros paused inDeliveryOnly.
  apply (proj2 (proj2 (proj2 (proj2 (proj2
           (filterOrders_conjunctive SUPER_ADMIN true inDeliveryOnly
              inDeliveryOnly [paused]))))));
    done.
Defined.

Section PaginationFacts.
Import OrdersRoute RateLimitHttp.

Lemma ceilDiv_bounds x d :
  0 < d → d * (ceilDiv x d - 1) < x ∧ x <= d * ceilDiv x d.
Proof.
  intros Hd. unfold ceilDiv.
  pose proof (Z.div_mod (- x) d). pose proof (Z.mod_pos_bound (- x) d). lia.
Qed.

(** The first [n] pages, one after the other, are the first [n * limit]
    rows. *)
Lemma pages_take (matching : list Order) (limit : Z) :
  1 <= limit →
  ∀ n, concat ((λ i, pageRows matching (Z.of_nat i + 1) limit) <$> seq 0 n)
       = take (n * Z.to_nat limit) matching.
Proof.
  intros Hlimit. induction n as [|n IH]; [done|].
  rewrite seq_S, fmap_app, concat_app, IH. cbn [fmap list_fmap concat Nat.add].
  rewrite app_nil_r. unfold pageRows.
  replace (Z.to_nat ((Z.of_nat n + 1 - 1) * limit)) with (n * Z.to_nat limit)%nat
    by lia.
  rewrite take_take_drop. f_equal. lia.
Qed.

End PaginationFacts.

(** X25.  Pagination of the order listing.  When the [limit] parameter
    parses to a number, the limit used lies between 1 and 100, and when
    the [page] parameter parses to a number, the page used is at least 1;
    a parameter that does not parse (NaN, here [None]) stays without a
    number, whatever the clamps.  For a page and
    a limit of at least 1 and a count that is not negative: [hasMore] says
    exactly that a later page exists ([page < totalPages]), and
    [totalPages] is the least number of pages of [limit] rows that hold
    [total] rows.  Of the matching rows, every page holds at most [limit],
    the pages 1 to [totalPages] one after the other are all the rows, each
    once and in order, and every page after [totalPages] is empty. *)
Theorem pagination_consistent (matching : list Order) (page limit : Z) :
  1 <= page → 1 <= limit →
  let total := Z.of_nat (length matching) in
  let p := OrdersRoute.paginationOf total page limit in
  (OrdersRoute.hasMore p = true ↔ page < OrdersRoute.totalPages p)
  ∧ limit * (OrdersRoute.totalPages p - 1) < total <= limit * OrdersRoute.totalPages p
  ∧ Z.of_nat (length (OrdersRoute.pageRows matching page limit)) <= limit
  ∧ concat ((λ i, OrdersRoute.pageRows matching (Z.of_nat i + 1) limit)
              <$> seq 0 (Z.to_nat (OrdersRoute.totalPages p)))
    = matching
  ∧ (OrdersRoute.totalPages p < page → OrdersRoute.pageRows matching page limit = [])
  ∧ (∀ n l, OrdersRoute.limitOf (Some n) = Some l → 1 <= l <= 100)
  ∧ (∀ n q, OrdersRoute.pageOf (Some n) = Some q → 1 <= q)
  ∧ OrdersRoute.limitOf None = None
  ∧ OrdersRoute.pageOf None = None.
Proof.
  intros Hpage Hlimit. cbv zeta.
  unfold OrdersRoute.paginationOf.
  cbn [OrdersRoute.hasMore OrdersRoute.totalPages].
  pose proof (ceilDiv_bounds (Z.of_nat (length matching)) limit ltac:(lia))
    as [Hlow Hhigh].
  set (pages := RateLimitHttp.ceilDiv (Z.of_nat (length matching)) limit) in *.
  split; [|split; [|split; [|split; [|split; [|split; [|split; [|split]]]]]]].
  - rewrite Z.ltb_lt. split; intros; nia.
  - lia.
  - unfold OrdersRoute.pageRows. rewrite length_take. lia.
  - rewrite pages_take by done. apply take_ge. nia.
  - intros Hbeyond. unfold OrdersRoute.pageRows.
    rewrite drop_ge; [by rewrite take_nil|]. nia.
  - intros n l [= <-]. lia.
  - intros n q [= <-]. lia.
  - reflexivity.
  - reflexivity.
Qed.

Lemma pagination_consistent_witness :
  let order n :=
    mkOrder "order" n "customer-1" "admin-1" None "1 Main Street" None
      "12:30" 1 2000 "" UNPAID CASH false PENDING None in
  let matching := [order 5; order 4; order 3; order 2; order 1] in
  concat ((λ i, OrdersRoute.pageRows matching (Z.of_nat i + 1) 2) <$> seq 0 3)
  = matching.
Proof.
  intros order matching.
  apply (proj1 (proj2 (proj2 (proj2
           (pagination_consistent matching 1 2 ltac:(lia) ltac:(lia)))))).
Defined.

Section PostFacts.
Import Lifecycle OrdersRoute SchedulerVocabulary.

(** What [POST] leaves behind, case by case. *)
Lemma POST_cases env gen now request s :
  let r := POST env gen now request s in
  (∃ o, r.1 = Created o
        ∧ orders (world r.2) = orders (world s) ++ [o]
        ∧ orderNumber o = Scheduler.nextOrderNumber (orders (world s))
        ∧ id o = g_orderId gen
        ∧ orderStatus o = PENDING ∧ courierId o = None ∧ deliveredAt o = None
        ∧ (∃ a, a ∈ admins s ∧ Scheduler.a_role a = SUPER_ADMIN
                ∧ adminId o = Scheduler.a_id a)
        ∧ (∃ c, c ∈ customers r.2 ∧ customerId o = Scheduler.c_id c)
        ∧ creations r.2 = creations s ++ [(id o, orderNumber o)]
        ∧ admins r.2 = admins s)
  ∨ ((∀ o, r.1 ≠ Created o)
     ∧ world r.2 = world s ∧ creations r.2 = creations s
     ∧ admins r.2 = admins s).
Proof.
  assert (Hrefused : ∀ (result : PostResult) s',
            (∀ o, result ≠ Created o) →
            world s' = world s → creations s' = creations s → admins s' = admins s →
            (∃ o, (result, s').1 = Created o
               ∧ orders (world (result, s').2) = orders (world s) ++ [o]
               ∧ orderNumber o = Scheduler.nextOrderNumber (orders (world s))
               ∧ id o = g_orderId gen
               ∧ orderStatus o = PENDING ∧ courierId o = None ∧ deliveredAt o = None
               ∧ (∃ a, a ∈ admins s ∧ Scheduler.a_role a = SUPER_ADMIN
                       ∧ adminId o = Scheduler.a_id a)
               ∧ (∃ c, c ∈ customers (result, s').2 ∧ customerId o = Scheduler.c_id c)
               ∧ creations (result, s').2 = creations s ++ [(id o, orderNumber o)]
               ∧ admins (result, s').2 = admins s)
            ∨ ((∀ o, (result, s').1 ≠ Created o)
               ∧ world (result, s').2 = world s
               ∧ creations (result, s').2 = creations s
               ∧ admins (result, s').2 = admins s))
    by (intros; by right).
  cbv zeta. unfold POST.
  destruct (p_user request) as [u|]; [|by apply Hrefused].
  destruct (_ && _); [by apply Hrefused|].
  destruct (p_body request) as [| |data]; [by apply Hrefused..|].
  cbv zeta.
  match goal with
  | |- context [match ?x with Some _ => _ | None => (Thrown "CUSTOMER_NOT_FOUND" 404, s) end] =>
      destruct x as [[customer customers']|] eqn:Hcustomer;
        [|by apply Hrefused]
  end.
  destruct (List.find _ (admins s)) as [admin|] eqn:Hadmin;
    [|by apply Hrefused].
  clear Hrefused.
  left. eexists. split; [done|]. cbn [fst snd world creations admins orders id
    orderNumber orderStatus courierId deliveredAt adminId customerId customers].
  rewrite createdDispatch_block, dispatchBlock_orders. cbn [orders].
  apply find_admin_elem in Hadmin as [Ha Hrole].
  repeat (split; [done|]). split; [eauto|]. split; [|done].
  exists customer. split; [|done].
  revert Hcustomer.
  repeat case_match; try (intros [=]; fail); intros [= <- <-];
    first [ apply elem_of_app; right; left
          | match goal with
            | H : List.find _ _ = Some _ |- _ =>
                apply find_some in H as [H _]; by apply list_elem_of_In
            end ].
Qed.

End PostFacts.

Section PostCustomers.
Import Lifecycle OrdersRoute.

(** The customer table after [POST]: as it was, or with one new row for
    a phone number no customer had. *)
Lemma POST_customers env gen now request s :
  let r := POST env gen now request s in
  customers r.2 = customers s
  ∨ ∃ data c,
      p_body request = Accepted data
      ∧ customers r.2 = customers s ++ [c]
      ∧ c = Scheduler.mkCustomer (g_customerId gen) (customerName data)
              (customerPhone data) (co_deliveryAddress data)
              (co_specialFeatures data) (Some "daily") (g_isActive gen) now
              (g_updatedAt gen)
      ∧ ∀ x, x ∈ customers s → Scheduler.c_phone x ≠ customerPhone data.
Proof.
  cbv zeta. unfold POST.
  destruct (p_user request) as [u|]; [|by left].
  destruct (_ && _); [by left|].
  destruct (p_body request) as [| |data]; [by left..|].
  cbv zeta.
  destruct (match selectedClientId data with
            | Some i => negb (String.eqb i "") && negb (String.eqb i "manual")
            | None => false
            end).
  - destruct (List.find _ (customers s)); [|by left].
    destruct (List.find _ (admins s)); by left.
  - destruct (List.find _ (customers s)) as [c|] eqn:Hfind.
    + destruct (List.find _ (admins s)); by left.
    + assert (∀ x, x ∈ customers s → Scheduler.c_phone x ≠ customerPhone data)
        as Hfresh.
      { intros x Hx%list_elem_of_In Heq.
        pose proof (find_none _ _ Hfind x Hx) as Hno. cbn in Hno.
        apply String.eqb_neq in Hno. done. }
      destruct (List.find _ (admins s)); right; eexists _, _; by cbn.
Qed.

End PostCustomers.

(** X26.  What [POST] writes.  A created order is appended to the order
    table as the only change to it; its number is the highest number in
    the table plus one, so above every existing number and distinct
    numbers stay distinct; it is PENDING without a courier, belongs to a
    customer of the table and to a super administrator, and is logged
    once.  Any other answer leaves orders, ledger, trace and log as they
    were.  The customer table is unchanged or gains exactly one row, for
    a phone number no customer had, with pattern "daily"; this row is
    written before the administrator is looked up, so it stays behind
    when the request then fails because there is no super
    administrator. *)
Theorem POST_writes (env : Lifecycle.Env) (gen : OrdersRoute.Generated) (now : Z)
    (request : OrdersRoute.PostRequest) (s : OrdersRoute.State) :
  let r := OrdersRoute.POST env gen now request s in
  (∀ o, r.1 = OrdersRoute.Created o →
     Lifecycle.orders (OrdersRoute.world r.2)
     = Lifecycle.orders (OrdersRoute.world s) ++ [o]
     ∧ (∀ x, x ∈ Lifecycle.orders (OrdersRoute.world s) →
             orderNumber x < orderNumber o)
     ∧ (NoDup (OrdersRoute.orderNumbers s) → NoDup (OrdersRoute.orderNumbers r.2))
     ∧ orderStatus o = PENDING ∧ courierId o = None ∧ deliveredAt o = None
     ∧ (∃ c, c ∈ OrdersRoute.customers r.2 ∧ customerId o = Scheduler.c_id c)
     ∧ (∃ a, a ∈ OrdersRoute.admins s ∧ Scheduler.a_role a = SUPER_ADMIN
             ∧ adminId o = Scheduler.a_id a)
     ∧ OrdersRoute.creations r.2
       = OrdersRoute.creations s ++ [(id o, orderNumber o)])
  ∧ ((∀ o, r.1 ≠ OrdersRoute.Created o) →
     OrdersRoute.world r.2 = OrdersRoute.world s
     ∧ OrdersRoute.creations r.2 = OrdersRoute.creations s)
  ∧ (OrdersRoute.customers r.2 = OrdersRoute.customers s
     ∨ ∃ c, OrdersRoute.customers r.2 = OrdersRoute.customers s ++ [c]
            ∧ Scheduler.c_orderPattern c = Some "daily"
            ∧ Scheduler.c_createdAt c = now
            ∧ ∀ x, x ∈ OrdersRoute.customers s →
                   Scheduler.c_phone x ≠ Scheduler.c_phone c)
  ∧ ((∀ a, a ∈ OrdersRoute.admins s → Scheduler.a_role a ≠ SUPER_ADMIN) →
     OrdersRoute.customers r.2 ≠ OrdersRoute.customers s →
     r.1 = OrdersRoute.Thrown "ADMIN_NOT_FOUND" 500).
Proof.
  cbv zeta. split; [|split; [|split]].
  - intros o Ho.
    destruct (POST_cases env gen now request s)
      as [(o' & Ho' & Horders & Hnum & _ & Hst & Hco & Hde & Ha & Hc & Hlog & _)
         |[Hnot _]]; [|by destruct (Hnot o)].
    rewrite Ho in Ho'. injection Ho' as <-.
    split; [done|]. split.
    { intros x Hx. rewrite Hnum. by apply nextOrderNumber_above. }
    split.
    { unfold OrdersRoute.orderNumbers. rewrite Horders.
      apply NoDup_numbers_app. unfold SchedulerVocabulary.consecutiveFrom.
      cbn. rewrite Hnum. f_equal. lia. }
    done.
  - intros Hnot.
    destruct (POST_cases env gen now request s)
      as [(o' & Ho' & _)|(_ & Hw & Hlog & _)]; [by destruct (Hnot o')|done].
  - destruct (POST_customers env gen now request s)
      as [Hsame|(data & c & _ & Happ & -> & Hfresh)]; [by left|].
    right. eexists. split; [exact Happ|]. done.
  - intros Hnone Hchanged.
    destruct (POST_cases env gen now request s)
      as [(o' & _ & _ & _ & _ & _ & _ & _ & (a & Ha & Hrole & _) & _)|_];
      [by destruct (Hnone a Ha)|].
    revert Hchanged. unfold OrdersRoute.POST.
    destruct (OrdersRoute.p_user request) as [u|]; [|done].
    destruct (_ && _); [done|].
    destruct (OrdersRoute.p_body request) as [| |data]; [done..|].
    cbv zeta.
    assert (List.find (λ a, bool_decide (Scheduler.a_role a = SUPER_ADMIN))
              (OrdersRoute.admins s) = None) as ->.
    { destruct (List.find _ (OrdersRoute.admins s)) as [a|] eqn:Hfind; [|done].
      apply find_admin_elem in Hfind as [Ha Hrole]. by destruct (Hnone a Ha). }
    repeat case_match; done.
Qed.

Lemma POST_writes_witness :
  let env := Lifecycle.mkEnv (λ _, true) (λ _, false) in
  let data :=
    OrdersRoute.mkCreateOrder "Ann" "+998901234567" "1 Main Street" None 1 2000
      None UNPAID CASH false None None in
  let gen := OrdersRoute.mkGenerated "customer-1" "order-1" true None in
  let s :=
    OrdersRoute.mkState [] [Scheduler.mkAdmin "admin-2" MIDDLE_ADMIN]
      (Lifecycle.mkWorld [] (mkTable [] true) []) [] 0 in
  let request :=
    OrdersRoute.mkPost (Some (Lifecycle.mkUser "admin-2" MIDDLE_ADMIN))
      (OrdersRoute.Accepted data) in
  (OrdersRoute.POST env gen 0 request s).1 = OrdersRoute.Thrown "ADMIN_NOT_FOUND" 500.
Proof.
  intros env data gen s request.
  apply (proj2 (proj2 (proj2 (POST_writes env gen 0 request s)))).
  - by intros a ->%list_elem_of_singleton.
  - by vm_compute.
Defined.

Section NumbersInvariant.
Import Lifecycle OrdersRoute SchedulerVocabulary.

Lemma updateOrder_numbers orderId d os :
  orderNumber <$> updateOrder orderId d os = orderNumber <$> os.
Proof.
  unfold updateOrder. induction os as [|o os IH]; [done|].
  cbn [map fmap list_fmap]. f_equal; [by case_match | exact IH].
Qed.

Lemma PATCH_numbers env now request w :
  orderNumber <$> orders (PATCH env now request w).2 = orderNumber <$> orders w.
Proof.
  unfold PATCH. repeat case_match; try done.
  cbn [snd]. rewrite purchaseDispatch_orders. cbn [orders].
  apply updateOrder_numbers.
Qed.

(** One operation appends consecutively numbered rows, or none. *)
Lemma step_numbers s op :
  ∃ new, orderNumbers (step s op) = orderNumbers s ++ (orderNumber <$> new)
         ∧ consecutiveFrom (Scheduler.nextOrderNumber (orders (world s))) new
         ∧ (new = [] ∨ orders (world (step s op)) = orders (world s) ++ new).
Proof.
  unfold orderNumbers.
  destruct op as [env gen now request|env now request|o today]; cbn [step].
  - destruct (POST_cases env gen now request s)
      as [(o' & _ & Horders & Hnum & _)|(_ & Hw & _)].
    + exists [o']. rewrite Horders, fmap_app. split; [done|].
      split; [|by right]. unfold consecutiveFrom. cbn. rewrite Hnum. f_equal. lia.
    + exists []. rewrite Hw, app_nil_r. split; [done|]. split; [done | by left].
  - exists []. unfold patch.
    pose proof (PATCH_numbers env now request (world s)) as Hnum.
    destruct (PATCH env now request (world s)) as [response w1].
    cbn [snd withWorld world] in *. rewrite Hnum, app_nil_r.
    split; [done|]. split; [done | by left].
  - unfold schedulerRun. cbn [world orders].
    unfold Scheduler.runAutoOrderScheduler.
    destruct (Scheduler.rejects o Scheduler.CustomerFindMany).
    { exists []. cbn. rewrite app_nil_r. split; [done|]. split; [done | by left]. }
    destruct (foldl_processClient_any o today
                (Scheduler.eligibleClients today
                   (Scheduler.mkWorld (customers s) (admins s) (orders (world s))
                      (draws s))) []
                (Scheduler.mkWorld (customers s) (admins s) (orders (world s))
                   (draws s)))
      as (lines & _ & _ & Horders & Hnum & _).
    cbn [Scheduler.orders] in *.
    exists (concat lines.*2). rewrite Horders, fmap_app.
    split; [done|]. split; [done | by right].
Qed.

End NumbersInvariant.

(** X27.  Order numbers stay unique across the backend.  Over any
    sequence of order creations, lifecycle requests and scheduler runs,
    with any rejections, the list of order numbers only grows at its end
    (no number is ever changed or removed), and a table with distinct
    numbers keeps distinct numbers. *)
Theorem order_numbers_stay_unique (ops : list OrdersRoute.Op)
    (s : OrdersRoute.State) :
  OrdersRoute.orderNumbers s `prefix_of` OrdersRoute.orderNumbers
                                            (foldl OrdersRoute.step s ops)
  ∧ (NoDup (OrdersRoute.orderNumbers s) →
     NoDup (OrdersRoute.orderNumbers (foldl OrdersRoute.step s ops))).
Proof.
  revert s. induction ops as [|op ops IH]; intros s; [done|].
  cbn [foldl]. destruct (IH (OrdersRoute.step s op)) as [Hprefix Hunique].
  destruct (step_numbers s op) as (new & Hnum & Hcons & Hnew).
  split.
  - etrans; [|exact Hprefix]. rewrite Hnum. by apply prefix_app_r.
  - intros Hs. apply Hunique. rewrite Hnum.
    pose proof (NoDup_numbers_app _ _ Hcons Hs) as Happ.
    by rewrite fmap_app in Happ.
Qed.

Section TimerFacts.
Import Scheduler ServerTimers.

Lemma length_concat_elem {A} (l : list A) (ls : list (list A)) :
  l ∈ ls → (length l <= length (concat ls))%nat.
Proof.
  induction ls as [|k ls IH]; [by intros ?%elem_of_nil|].
  cbn [concat]. rewrite length_app.
  intros [->|Hin]%elem_of_cons; [lia|]. specialize (IH Hin). lia.
Qed.

(** Every run adds a batch for a "daily" customer that is old enough. *)
Lemma runs_pile_up o times :
  (∀ q, rejects o q = false) →
  ∀ w c,
  c ∈ customers w → c_isActive c = true → c_orderPattern c = Some "daily" →
  (∀ t, t ∈ times → 30 * msPerDay <= t - c_createdAt c) →
  (∃ a, a ∈ admins w ∧ a_role a = SUPER_ADMIN) →
  (length (orders w) + 31 * length times
   <= length (orders (runScheduler o times w)))%nat.
Proof.
  intros Hok. induction times as [|today times IH];
    intros w c Hc Hactive Hdaily Hage Hadmin; [cbn; lia|].
  change (runScheduler o (today :: times) w)
    with (runScheduler o times (runAutoOrderScheduler o today w).2).
  cbn [length].
  assert (Hresolve : orderQueriesResolve o (c_id c))
    by (intros date; by rewrite !Hok).
  assert (Hel : c ∈ eligibleClients today w).
  { apply eligibleClients_elem. split; [done|]. split; [done|].
    apply isEligible_spec. left. apply Hage. left. }
  destruct (run_serves_daily_customer o today w c) as (batch & Hbatch & Hlen & _);
    try done.
  assert (Hrun : runAutoOrderScheduler o today w
                 = foldl (processClient o today) ([], w) (eligibleClients today w))
    by (unfold runAutoOrderScheduler; by rewrite Hok).
  rewrite Hrun in *.
  destruct (foldl_processClient o today (eligibleClients today w) [] w)
    as [_ Hcust].
  destruct (foldl_processClient_grows o today (eligibleClients today w) [] w)
    as [_ Hadmins].
  destruct (foldl_processClient_any o today (eligibleClients today w) [] w)
    as (lines & H1 & _ & H2 & _).
  cbn [app] in H1. rewrite H1 in Hbatch.
  set (w1 := (foldl (processClient o today) ([], w) (eligibleClients today w)).2) in *.
  assert (Hgrow : (length (orders w) + 31 <= length (orders w1))%nat).
  { rewrite H2, length_app.
    assert (batch ∈ lines.*2) as Hin
      by (by apply (list_elem_of_fmap_2 snd) in Hbatch).
    apply length_concat_elem in Hin. lia. }
  set (c1 := if touched o (eligibleClients today w) (c_id c)
             then checkedAt today c else c).
  assert (Hc1 : c1 ∈ customers w1).
  { rewrite Hcust. apply list_elem_of_fmap. by exists c. }
  specialize (IH w1 c1 Hc1).
  assert (c_isActive c1 = true ∧ c_orderPattern c1 = Some "daily"
          ∧ c_createdAt c1 = c_createdAt c) as (Ha1 & Hd1 & Hcr1)
    by (unfold c1; by destruct (touched _ _ _)).
  specialize (IH Ha1 Hd1).
  assert ((length (orders w1) + 31 * length times
           <= length (orders (runScheduler o times w1)))%nat) as Hrest.
  { apply IH.
    - intros t Ht. rewrite Hcr1. apply Hage. by right.
    - by rewrite Hadmins. }
  lia.
Qed.

End TimerFacts.

(** X28.  The server starts the scheduler ten seconds after the listen
    callback has set its timers (which it does once [ensureDefaultAdmin]
    has settled) and then every hour, and no run looks at the orders that
    exist already.  So, when the admin table holds a SUPER_ADMIN and no
    query rejects, for an active "daily" customer that is at least 30
    days old when the timers are set, every one of these runs adds a
    batch of 31 orders: after the first run and [n] hourly runs the order
    table holds at least [31 * (n + 1)] rows more. *)
Theorem hourly_runs_pile_up (o : Scheduler.Oracle) (armed : Z) (n : nat)
    (w : Scheduler.World) (c : Scheduler.Customer) :
  (∀ q, Scheduler.rejects o q = false) →
  c ∈ Scheduler.customers w →
  Scheduler.c_isActive c = true →
  Scheduler.c_orderPattern c = Some "daily" →
  30 * Scheduler.msPerDay <= armed - Scheduler.c_createdAt c →
  (∃ a, a ∈ Scheduler.admins w ∧ Scheduler.a_role a = SUPER_ADMIN) →
  (length (Scheduler.orders w) + 31 * (n + 1)
   <= length (Scheduler.orders
                (ServerTimers.runScheduler o
                   (ServerTimers.schedulerTicks armed n) w)))%nat.
Proof.
  intros Hok Hc Hactive Hdaily Hage Hadmin.
  pose proof (runs_pile_up o (ServerTimers.schedulerTicks armed n) Hok w c
                Hc Hactive Hdaily) as Hruns.
  assert (length (ServerTimers.schedulerTicks armed n) = (n + 1)%nat) as Hlen.
  { unfold ServerTimers.schedulerTicks. cbn [length].
    rewrite length_fmap, length_seq. lia. }
  rewrite Hlen in Hruns. apply Hruns; [|done].
  intros t Ht. unfold ServerTimers.schedulerTicks in Ht.
  apply elem_of_cons in Ht as [->|Ht]; [lia|].
  apply list_elem_of_fmap in Ht as (k & -> & _). lia.
Qed.

Lemma hourly_runs_pile_up_witness :
  let armed := 20000 * Scheduler.msPerDay in
  let customer :=
    Scheduler.mkCustomer "customer-1" "Ann" "+998901234567" "1 Main Street"
      None (Some "daily") true (armed - 31 * Scheduler.msPerDay) None in
  let w :=
    Scheduler.mkWorld [customer] [Scheduler.mkAdmin "admin-1" SUPER_ADMIN] [] 0 in
  let o := Scheduler.mkOracle (λ _, false) (λ k, k) (λ n, "generated") in
  (length (Scheduler.orders w) + 31 * (2 + 1)
   <= length (Scheduler.orders
                (ServerTimers.runScheduler o
                   (ServerTimers.schedulerTicks armed 2) w)))%nat.
Proof.
  intros armed customer w o.
  apply (hourly_runs_pile_up o armed 2 w customer).
  - done.
  - left.
  - done.
  - done.
  - by vm_compute.
  - exists (Scheduler.mkAdmin "admin-1" SUPER_ADMIN). split; [left | done].
Defined.

(** X29.  The [rateLimit] wrapper and [clearAllRateLimits].  A refused
    request never reaches the handler: the answer is the 429 answer and
    the store is the limiter's, whatever the handler would have done.  An
    admitted request runs the handler on the store in which the request
    is already counted; the answer keeps the handler's status, body and
    every other header, and carries the limiter's three headers in place
    of whatever the handler set under these names.  After
    [clearAllRateLimits] every client starts afresh. *)
Theorem rateLimit_gates_handler (configs : RateLimitHttp.RateLimitConfigs)
    (configType : RateLimitHttp.ConfigType) (request : RateLimitHttp.ProxyHeaders)
    (next next' : gmap string RateLimiter.RateLimitRecord →
                  RateLimitHttp.HttpResponse * gmap string RateLimiter.RateLimitRecord)
    (now : Z) (store : gmap string RateLimiter.RateLimitRecord) :
  let config := RateLimitHttp.limit (RateLimitHttp.configOf configs configType) in
  let checked :=
    RateLimiter.checkRateLimit (RateLimitHttp.getClientIdentifier request)
      config now store in
  let answer := RateLimitHttp.rateLimit configs configType request next now store in
  (RateLimiter.allowed checked.1 = false →
   answer = RateLimitHttp.rateLimit configs configType request next' now store
   ∧ answer.2 = checked.2 ∧ RateLimitHttp.status answer.1 = 429)
  ∧ (RateLimiter.allowed checked.1 = true →
     let handled := next (checked.2) in
     answer.2 = handled.2
     ∧ RateLimitHttp.status answer.1 = RateLimitHttp.status handled.1
     ∧ RateLimitHttp.body answer.1 = RateLimitHttp.body handled.1
     ∧ RateLimitHttp.headerGet "X-RateLimit-Limit" (RateLimitHttp.headers answer.1)
       = Some (pretty (RateLimiter.maxRequests config))
     ∧ RateLimitHttp.headerGet "X-RateLimit-Remaining" (RateLimitHttp.headers answer.1)
       = Some (pretty (RateLimiter.remaining checked.1))
     ∧ ∀ name,
         RateLimitHttp.lowerName name ∉
           ["x-ratelimit-limit"; "x-ratelimit-remaining"; "x-ratelimit-reset"] →
         RateLimitHttp.headerGet name (RateLimitHttp.headers answer.1)
         = RateLimitHttp.headerGet name (RateLimitHttp.headers handled.1))
  ∧ (∀ identifier, 0 < RateLimiter.maxRequests config →
     (RateLimiter.checkRateLimit identifier config now
        (RateLimitHttp.clearAllRateLimits store)).1
     = RateLimiter.mkResult true (RateLimiter.maxRequests config - 1)
         (Some (now + RateLimiter.windowMs config))).
Proof.
  cbv zeta. unfold RateLimitHttp.rateLimit.
  destruct (RateLimiter.checkRateLimit _ _ now store) as [res store1].
  cbn [fst snd]. split; [|split].
  - by intros ->.
  - intros ->. destruct (next store1) as [response store2]. cbn [fst snd].
    split; [done|]. split; [done|]. split; [done|].
    unfold RateLimitHttp.addRateLimitHeaders, RateLimitHttp.headerGet,
      RateLimitHttp.headerSet.
    cbn [RateLimitHttp.headers].
    destruct lowerName_literals as (-> & -> & -> & _).
    split; [|split].
    + rewrite !lookup_insert_ne by done. by rewrite lookup_insert_eq.
    + rewrite lookup_insert_ne by done. by rewrite lookup_insert_eq.
    + intros name Hname.
      rewrite !lookup_insert_ne; [done|..];
        intros Heq; apply Hname; rewrite <- Heq;
        repeat first [left | right].
  - intros identifier Hmax. unfold RateLimitHttp.clearAllRateLimits.
    by rewrite checkRateLimit_fresh by (done || apply lookup_empty).
Qed.

Lemma rateLimit_gates_handler_witness :
  let page := RateLimitHttp.mkResponse 200 "" ∅ (RateLimitHttp.OtherBody "ok") in
  let busy :=
    (RateLimiter.run "10.0.0.7"
       (RateLimitHttp.limit (RateLimitHttp.auth RateLimitHttp.defaultConfigs))
       [0; 1; 2; 3; 4] ∅).2 in
  let request := RateLimitHttp.mkProxy None (Some "10.0.0.7") None in
  RateLimitHttp.status
    (RateLimitHttp.rateLimit RateLimitHttp.defaultConfigs RateLimitHttp.Auth request
       (λ s, (page, s)) 5 busy).1
  = 429.
Proof.
  intros page busy request.
  apply (proj1 (rateLimit_gates_handler RateLimitHttp.defaultConfigs
                  RateLimitHttp.Auth request (λ s, (page, s)) (λ s, (page, s))
                  5 busy)).
  by vm_compute.
Defined.
